(** * agentconfig: the mapping, conflict and state-reconciliation engine

    A shallow embedding of [src/sync.ts], [src/filesystem.ts], [src/state.ts],
    [src/status.ts], [src/errors.ts] and [src/types.ts].  Asynchronous
    functions become computations in a state-and-exception monad over a
    model of the outside world (file tree, platform capabilities, terminal,
    clock). *)

From Stdlib Require Import ZArith Ascii String.
From stdpp Require Import gmap strings list fin_maps.

Local Open Scope string_scope.
Local Open Scope list_scope.

(** ** Paths

    Every path the engine hands to the file system is the result of
    [path.resolve] or [path.join], that is an absolute normalised POSIX path.
    Such a path is represented by its list of components: ["/a/b"] is
    [["a"; "b"]] and ["/"] is [[]]. *)

Abbreviation path := (list string).

(** The text of a path, as it appears in messages and in symbolic links. *)
Definition render (p : path) : string :=
  match p with
  | [] => "/"
  | _ => String.concat "" (map (fun c => "/" +:+ c) p)
  end.

(** [path.dirname] on an absolute normalised path ([dirname "/" = "/"]). *)
Definition dirname (p : path) : path := removelast p.

(** [path.join] of an absolute path and a relative one. *)
Definition join (p q : path) : path := p ++ q.

Fixpoint strip_prefix (p k : path) : option path :=
  match p, k with
  | [], _ => Some k
  | x :: p', y :: k' => if decide (x = y) then strip_prefix p' k' else None
  | _ :: _, [] => None
  end.

(** ** types.ts *)

Inductive SyncMode := auto | link | copy.
Inductive Scope := global | project.
Inductive ConflictPolicy := overwrite | backup | skip | cancel.

#[global] Instance SyncMode_eq_dec : EqDecision SyncMode.
Proof. solve_decision. Defined.
#[global] Instance Scope_eq_dec : EqDecision Scope.
Proof. solve_decision. Defined.
#[global] Instance ConflictPolicy_eq_dec : EqDecision ConflictPolicy.
Proof. solve_decision. Defined.

Record ResolvedMapping := {
  agent : string;
  source : path;
  target : path;
  mode : SyncMode
}.

Record MappingFile := {
  mf_source : string;
  mf_target : string
}.

Record AgentScopeConfig := {
  root : string;
  files : list MappingFile
}.

Record AgentConfigEntry := {
  displayName : string;
  cfg_global : option AgentScopeConfig;
  cfg_project : option AgentScopeConfig
}.

Record Defaults := {
  def_mode : SyncMode;
  profile : string;
  def_sourceRoot : string
}.

(** [agents] and [profiles] are objects enumerated in insertion order. *)
Record AgentConfigFile := {
  version : Z;
  defaults : Defaults;
  agents : list (string * AgentConfigEntry);
  profiles : option (list (string * option (list MappingFile)))
}.

Record SyncRecord := {
  rec_path : path;
  rec_source : path;
  rec_agent : string;
  rec_mode : SyncMode;
  rec_size : Z;
  rec_mtimeMs : Z;
  rec_hash : option string;
  rec_linkTarget : option string
}.

(** [files] is a JavaScript object used as a map.  Its keys are absolute
    paths, so enumeration follows insertion order: an association list in
    which every key occurs at most once. *)
Record SyncState := {
  st_version : Z;
  st_updatedAt : string;
  st_mode : Scope;
  st_projectRoot : option string;
  st_files : list (path * SyncRecord)
}.

(** ** errors.ts *)

Module ExitCodes.
Definition Success : Z := 0.
Definition Failure : Z := 1.
Definition Usage : Z := 2.
Definition Validation : Z := 3.
Definition Conflict : Z := 4.
Definition Filesystem : Z := 5.
End ExitCodes.

(** What a [throw] carries: the repository's own [AgentConfigError], or an
    error of the platform identified by its [code] (ENOENT, EPERM, ...). *)
Inductive exn :=
  | AgentConfigError (message : string) (code : Z)
  | ErrnoException (code : string)
  | SyntaxError (message : string).

Definition instanceof_AgentConfigError (e : exn) : bool :=
  match e with AgentConfigError _ _ => true | _ => false end.

(** [error.message]; the wording of the platform's messages is not modelled. *)
Definition message_of (e : exn) : string :=
  match e with
  | AgentConfigError message _ => message
  | ErrnoException code => code
  | SyntaxError message => message
  end.

(** ** The outside world *)

(** The content of a regular file: raw bytes, or a JSON document with the
    shape of a [SyncState] (the text [JSON.stringify] writes and [JSON.parse]
    reads back, represented by the value it denotes). *)
Inductive content :=
  | Raw (bytes : string)
  | Snapshot (doc : SyncState).

Inductive node :=
  | File (c : content)
  | Dir
  | Symlink (text : string).

Definition isDirectory (n : node) : bool :=
  match n with Dir => true | _ => false end.
Definition isSymbolicLink (n : node) : bool :=
  match n with Symlink _ => true | _ => false end.

(** The file tree is a finite map from paths to nodes; the entries of a
    directory [d] are the keys [d ++ [name]]. *)
Record World := {
  fs : gmap path node;
  (** does the volume holding this path allow creating symbolic links *)
  symlinkAllowed : path -> bool;
  (** [process.stdin.isTTY && process.stdout.isTTY] *)
  isTTY : bool;
  (** the lines the operator types, in order, and how many were read *)
  operator : nat -> string;
  linesRead : nat;
  (** what [new Date().toISOString()] returns at its n-th call *)
  clock : nat -> string;
  ticks : nat;
  (** [size] and [mtimeMs] as reported by [lstat] *)
  statMeta : path -> Z * Z;
  (** [process.env], [os.homedir()], [process.cwd()] and [os.tmpdir()] *)
  env : gmap string string;
  homedir : string;
  cwd : path;
  tmpdir : path
}.

Definition set_fs (m : gmap path node) (w : World) : World :=
  {| fs := m; symlinkAllowed := symlinkAllowed w; isTTY := isTTY w;
     operator := operator w; linesRead := linesRead w;
     clock := clock w; ticks := ticks w; statMeta := statMeta w;
     env := env w; homedir := homedir w; cwd := cwd w; tmpdir := tmpdir w |}.

(** ** The monad of asynchronous functions

    A computation runs on a world and ends by returning, by throwing, or
    not at all ([Timeout], for the one recursion that is bounded by fuel).
    Changes made before a [throw] stay in the world. *)

Inductive outcome (A : Type) :=
  | Ok (a : A)
  | Throw (e : exn)
  | Timeout.
Arguments Ok {A} a.
Arguments Throw {A} e.
Arguments Timeout {A}.

Definition M (A : Type) : Type := World -> outcome A * World.

Definition ret {A} (a : A) : M A := fun w => (Ok a, w).
Definition throw {A} (e : exn) : M A := fun w => (Throw e, w).
Definition timeout {A} : M A := fun w => (Timeout, w).

Definition bind {A B} (c : M A) (k : A -> M B) : M B :=
  fun w =>
    match c w with
    | (Ok a, w') => k a w'
    | (Throw e, w') => (Throw e, w')
    | (Timeout, w') => (Timeout, w')
    end.

(** [try { c } catch (error) { h error }] *)
Definition try_catch {A} (c : M A) (h : exn -> M A) : M A :=
  fun w =>
    match c w with
    | (Throw e, w') => h e w'
    | r => r
    end.

Notation "'let!' x ':=' c 'in' k" := (bind c (fun x => k))
  (at level 10, x pattern, c at level 100, k at level 200).
Notation "c ';;;' k" := (bind c (fun _ => k))
  (at level 100, k at level 200, right associativity).

Definition get_fs : M (gmap path node) := fun w => (Ok (fs w), w).
Definition put_fs (m : gmap path node) : M unit := fun w => (Ok tt, set_fs m w).

(** [for (const x of l) { ... }] threading an accumulator. *)
Fixpoint foldM {A S} (f : S -> A -> M S) (s : S) (l : list A) : M S :=
  match l with
  | [] => ret s
  | x :: l' => let! s' := f s x in foldM f s' l'
  end.

Definition forM_ {A} (f : A -> M unit) (l : list A) : M unit :=
  foldM (fun _ x => f x) tt l.

(** ** Node's [fs/promises], on the model *)

Definition ENOENT {A} : M A := throw (ErrnoException "ENOENT").

Definition fs_lstat (p : path) : M node :=
  let! m := get_fs in
  match m !! p with
  | Some n => ret n
  | None => ENOENT
  end.

Definition fs_readlink (p : path) : M string :=
  let! m := get_fs in
  match m !! p with
  | Some (Symlink text) => ret text
  | Some _ => throw (ErrnoException "EINVAL")
  | None => ENOENT
  end.

(** Names of the entries of directory [p]. *)
Definition child_of (p k : path) : option string :=
  match strip_prefix p k with
  | Some [x] => Some x
  | _ => None
  end.

Definition entries (m : gmap path node) (p : path) : list string :=
  omap (fun kv => child_of p kv.1) (map_to_list m).

Definition fs_readdir (p : path) : M (list string) :=
  let! m := get_fs in
  match m !! p with
  | Some Dir => ret (entries m p)
  | Some _ => throw (ErrnoException "ENOTDIR")
  | None => ENOENT
  end.

Definition fs_unlink (p : path) : M unit :=
  let! m := get_fs in
  match m !! p with
  | Some Dir => throw (ErrnoException "EISDIR")
  | Some _ => put_fs (delete p m)
  | None => ENOENT
  end.

(** The root directory cannot be removed. *)
Definition fs_rmdir (p : path) : M unit :=
  let! m := get_fs in
  match m !! p with
  | Some Dir =>
      if decide (p = []) then throw (ErrnoException "EBUSY")
      else match entries m p with
           | [] => put_fs (delete p m)
           | _ :: _ => throw (ErrnoException "ENOTEMPTY")
           end
  | Some _ => throw (ErrnoException "ENOTDIR")
  | None => ENOENT
  end.

(** [fs.rm(p, { recursive: true, force: true })] *)
Definition fs_rm_rf (p : path) : M unit :=
  if decide (p = []) then throw (ErrnoException "EBUSY")
  else
    let! m := get_fs in
    put_fs (filter (fun kv => ¬ p `prefix_of` kv.1) m).

(** [fs.mkdir(p, { recursive: true })]: walks down from the root and
    creates what is missing; a component that exists and is not a directory
    stops it (symbolic links are not traversed in this model). *)
Fixpoint mkdirs (base rest : path) (m : gmap path node) : option exn * gmap path node :=
  match m !! base with
  | Some Dir | None =>
      let m' := match m !! base with None => <[base := Dir]> m | _ => m end in
      match rest with
      | [] => (None, m')
      | x :: rest' => mkdirs (base ++ [x]) rest' m'
      end
  | Some _ =>
      (Some (ErrnoException (match rest with [] => "EEXIST" | _ => "ENOTDIR" end)), m)
  end.

Definition fs_mkdir_p (p : path) : M unit :=
  fun w =>
    match mkdirs [] p (fs w) with
    | (None, m') => (Ok tt, set_fs m' w)
    | (Some e, m') => (Throw e, set_fs m' w)
    end.

(** [fs.symlink(text, p)] *)
Definition fs_symlink (text : string) (p : path) : M unit :=
  fun w =>
    if negb (symlinkAllowed w p) then (Throw (ErrnoException "EPERM"), w)
    else if decide (p = []) then (Throw (ErrnoException "EEXIST"), w)
    else match fs w !! p, fs w !! dirname p with
         | Some _, _ => (Throw (ErrnoException "EEXIST"), w)
         | None, Some Dir => (Ok tt, set_fs (<[p := Symlink text]> (fs w)) w)
         | None, _ => (Throw (ErrnoException "ENOENT"), w)
         end.

(** Reading follows symbolic links at the last component.  The text of a
    link is resolved from the directory that holds the link. *)
Fixpoint split_slash (s cur : string) : list string :=
  match s with
  | EmptyString => [cur]
  | String c s' =>
      if Ascii.eqb c "/" then cur :: split_slash s' ""
      else split_slash s' (cur +:+ String c "")
  end.

Definition walk (base : path) (parts : list string) : path :=
  foldl (fun acc c =>
           if decide (c = "" ∨ c = ".") then acc
           else if decide (c = "..") then removelast acc
           else acc ++ [c]) base parts.

Definition isAbsolute (s : string) : bool :=
  match s with String "/" _ => true | _ => false end.

(** [path.resolve(from, s)] *)
Definition path_resolve (from : path) (s : string) : path :=
  walk (if isAbsolute s then [] else from) (split_slash s "").

Fixpoint read_through (hops : nat) (m : gmap path node) (p : path) : exn + content :=
  match m !! p with
  | Some (File c) => inr c
  | Some Dir => inl (ErrnoException "EISDIR")
  | Some (Symlink text) =>
      match hops with
      | 0 => inl (ErrnoException "ELOOP")
      | S hops' => read_through hops' m (path_resolve (dirname p) text)
      end
  | None => inl (ErrnoException "ENOENT")
  end.

Definition fs_readFile (p : path) : M content :=
  fun w =>
    match read_through 40 (fs w) p with
    | inr c => (Ok c, w)
    | inl e => (Throw e, w)
    end.

(** Writing creates or replaces a regular file in an existing directory.
    A destination that is a symbolic link is not written through in this
    model: it is reported as an error. *)
Definition fs_writeFile (p : path) (c : content) : M unit :=
  fun w =>
    match fs w !! p, fs w !! dirname p with
    | Some Dir, _ => (Throw (ErrnoException "EISDIR"), w)
    | Some (Symlink _), _ => (Throw (ErrnoException "ELOOP"), w)
    | _, Some Dir => (Ok tt, set_fs (<[p := File c]> (fs w)) w)
    | _, _ => (Throw (ErrnoException "ENOENT"), w)
    end.

Definition fs_copyFile (src dst : path) : M unit :=
  let! c := fs_readFile src in
  fs_writeFile dst c.

(** ** filesystem.ts *)

Definition isErrnoException (e : exn) : bool :=
  match e with ErrnoException _ => true | _ => false end.

Definition has_code (e : exn) (c : string) : bool :=
  match e with ErrnoException code => bool_decide (code = c) | _ => false end.

Definition ensureDir (target : path) : M unit := fs_mkdir_p target.

Definition fileExists (target : path) : M bool :=
  try_catch (fs_lstat target ;;; ret true)
    (fun error =>
       if isErrnoException error && has_code error "ENOENT" then ret false
       else throw error).

Definition readLinkTarget (target : path) : M (option string) :=
  try_catch (let! text := fs_readlink target in ret (Some text))
    (fun error =>
       if isErrnoException error && has_code error "ENOENT" then ret None
       else throw error).

(** The entries of a directory are copied one after the other, in the
    order [readdir] lists them ([Promise.all] over independent subtrees), and
    the first failure ends the copy.  The recursion follows the live tree, so
    it is bounded by [fuel]. *)
Fixpoint copyFileOrDir (fuel : nat) (source target : path) : M unit :=
  match fuel with
  | 0 => timeout
  | S fuel' =>
      let! stat := fs_lstat source in
      if isDirectory stat then
        ensureDir target ;;;
        let! entries := fs_readdir source in
        forM_ (fun entry =>
                 let src := join source [entry] in
                 let dest := join target [entry] in
                 copyFileOrDir fuel' src dest) entries
      else
        ensureDir (dirname target) ;;;
        fs_copyFile source target
  end.

(** ** state.ts *)

Definition STATE_FILE : string := ".sync-state.json".

Definition getStatePath (root : path) : path := join root [STATE_FILE].

Definition JSON_parse (raw : content) : M SyncState :=
  match raw with
  | Snapshot doc => ret doc
  | Raw _ => throw (SyntaxError "Unexpected token")
  end.

Definition JSON_stringify (state : SyncState) : content := Snapshot state.

Definition readState (root : path) : M (option SyncState) :=
  let statePath := getStatePath root in
  try_catch
    (let! raw := fs_readFile statePath in
     let! doc := JSON_parse raw in
     ret (Some doc))
    (fun error =>
       if isErrnoException error && has_code error "ENOENT" then ret None
       else match error with
            | SyntaxError message =>
                throw (AgentConfigError
                         ("Invalid JSON in " +:+ render statePath +:+ ": " +:+ message)
                         ExitCodes.Validation)
            | _ => throw error
            end).

Definition writeState (root : path) (state : SyncState) : M unit :=
  let statePath := getStatePath root in
  let contents := JSON_stringify state in
  fs_mkdir_p root ;;;
  fs_writeFile statePath contents.

(** ** paths.ts *)

Definition expandHome (home inputPath : string) : string :=
  match inputPath with
  | String "~" EmptyString => home
  | String "~" (String "/" rest) => home +:+ "/" +:+ rest
  | _ => inputPath
  end.

Definition is_name_char (c : ascii) : bool :=
  let n := nat_of_ascii c in
  (Nat.leb 65 n && Nat.leb n 90) || (Nat.leb 97 n && Nat.leb n 122)
  || (Nat.leb 48 n && Nat.leb n 57) || Nat.eqb n 95.

Fixpoint span (f : ascii -> bool) (s : string) : string * string :=
  match s with
  | String c s' =>
      if f c then let '(a, b) := span f s' in (String c a, b) else ("", s)
  | EmptyString => ("", "")
  end.

(** Matches [NAME}] or [NAME:-FALLBACK}] at the start of [s], the text that
    follows ["${"]; gives the name, the fallback and the text left. *)
Definition match_placeholder (s : string) : option (string * option string * string) :=
  let '(name, r) := span is_name_char s in
  if decide (name = "") then None
  else match r with
       | String "}" rest => Some (name, None, rest)
       | String ":" (String "-" r') =>
           let '(fallback, r'') := span (fun c => negb (Ascii.eqb c "}")) r' in
           match r'' with
           | String "}" rest => Some (name, Some fallback, rest)
           | _ => None
           end
       | _ => None
       end.

Fixpoint expandEnv_from (fuel : nat) (s : string) (e : gmap string string) : string :=
  match fuel with
  | 0 => s
  | S fuel' =>
      match s with
      | EmptyString => ""
      | String "$" (String "{" r as s') =>
          match match_placeholder r with
          | Some (varName, fallback, rest) =>
              let value := e !! varName in
              let text :=
                match value, fallback with
                | Some v, _ => if decide (v = "") then default "" fallback else v
                | None, Some f => f
                | None, None => ""
                end in
              text +:+ expandEnv_from fuel' rest e
          | None => String "$" (expandEnv_from fuel' s' e)
          end
      | String c s' => String c (expandEnv_from fuel' s' e)
      end
  end.

Definition expandEnv (inputPath : string) (e : gmap string string) : string :=
  expandEnv_from (String.length inputPath) inputPath e.

Definition resolvePath (inputPath : string) (e : gmap string string) : M path :=
  fun w =>
    let expanded := expandHome (homedir w) (expandEnv inputPath e) in
    (Ok (path_resolve (cwd w) expanded), w).

Definition resolveFromRoot (root : path) (relativePath : string) : path :=
  path_resolve root relativePath.

(** ** sync.ts *)

Record SyncOptions := {
  config : AgentConfigFile;
  (** an absolute path: cli.ts passes the result of [resolvePath] *)
  sourceRoot : path;
  opt_mode : Scope;
  projectRoot : option string;
  linkMode : SyncMode;
  dryRun : bool;
  force : bool;
  conflictPolicy : option ConflictPolicy;
  agentFilter : option string;
  strict : option bool
}.

Record SyncResult := {
  planned : list ResolvedMapping;
  updated : list ResolvedMapping;
  skipped : list ResolvedMapping;
  warnings : list string
}.

Record ConflictState := {
  policy : option ConflictPolicy;
  canAsk : bool
}.

Record ConflictDecision := {
  action : ConflictPolicy;
  state : ConflictState
}.

(** [readline.question]: the next line the operator types. *)
Definition question : M string :=
  fun w =>
    (Ok (operator w (linesRead w)),
     {| fs := fs w; symlinkAllowed := symlinkAllowed w; isTTY := isTTY w;
        operator := operator w; linesRead := S (linesRead w);
        clock := clock w; ticks := ticks w; statMeta := statMeta w;
        env := env w; homedir := homedir w; cwd := cwd w; tmpdir := tmpdir w |}).

(** [new Date().toISOString()] *)
Definition now_ISO : M string :=
  fun w =>
    (Ok (clock w (ticks w)),
     {| fs := fs w; symlinkAllowed := symlinkAllowed w; isTTY := isTTY w;
        operator := operator w; linesRead := linesRead w;
        clock := clock w; ticks := S (ticks w); statMeta := statMeta w;
        env := env w; homedir := homedir w; cwd := cwd w; tmpdir := tmpdir w |}).

Definition is_space (c : ascii) : bool :=
  let n := nat_of_ascii c in (Nat.leb 9 n && Nat.leb n 13) || Nat.eqb n 32.

Fixpoint trim_start (s : string) : string :=
  match s with
  | String c s' => if is_space c then trim_start s' else s
  | EmptyString => ""
  end.

Fixpoint trim_end (s : string) : string :=
  match s with
  | String c s' =>
      match trim_end s' with
      | EmptyString => if is_space c then "" else String c ""
      | t => String c t
      end
  | EmptyString => ""
  end.

Definition trim (s : string) : string := trim_end (trim_start s).

Definition lower (c : ascii) : ascii :=
  let n := nat_of_ascii c in
  if Nat.leb 65 n && Nat.leb n 90 then ascii_of_nat (n + 32) else c.

Fixpoint lowercase (s : string) : string :=
  match s with
  | String c s' => String (lower c) (lowercase s')
  | EmptyString => ""
  end.

(** [/^(y|yes)$/i.test(s)] *)
Definition is_yes (s : string) : bool :=
  bool_decide (lowercase s = "y") || bool_decide (lowercase s = "yes").

Definition digit (c : ascii) : option Z :=
  let n := nat_of_ascii c in
  if Nat.leb 48 n && Nat.leb n 57 then Some (Z.of_nat (n - 48)) else None.

Fixpoint digits (s : string) (acc : option Z) : option Z :=
  match s with
  | String c s' =>
      match digit c with
      | Some d => digits s' (Some (10 * default 0%Z acc + d)%Z)
      | None => acc
      end
  | EmptyString => acc
  end.

(** [Number.parseInt(s, 10)]; [None] is NaN. *)
Definition parseInt (s : string) : option Z :=
  match trim_start s with
  | String "-" s' => Z.opp <$> digits s' None
  | String "+" s' => digits s' None
  | s' => digits s' None
  end.

(** The prompt written to the terminal is not modelled; the two answers
    are. *)
Definition promptConflictAction (target : path) : M (ConflictPolicy * bool) :=
  let! choice := question in
  let! applyToAllAnswer := question in
  let applyToAll := is_yes (trim applyToAllAnswer) in
  let selection := parseInt (trim choice) in
  match selection with
  | Some 1%Z => ret (overwrite, applyToAll)
  | Some 2%Z => ret (backup, applyToAll)
  | Some 4%Z => ret (cancel, applyToAll)
  | _ => ret (skip, applyToAll)
  end.

Definition get_isTTY : M bool := fun w => (Ok (isTTY w), w).

Definition resolveConflictPolicy (target : path) (state : ConflictState)
  : M ConflictDecision :=
  match policy state with
  | Some p => ret {| action := p; state := state |}
  | None =>
      let! tty := get_isTTY in
      if negb (canAsk state) || negb tty then
        ret {| action := skip;
               state := {| policy := Some skip; canAsk := canAsk state |} |}
      else
        let! (act, applyToAll) := promptConflictAction target in
        let resolved := if applyToAll then Some act else None in
        ret {| action := act;
               state := {| policy := resolved; canAsk := negb applyToAll |} |}
  end.

(** [s.replace(/[:.]/g, "-")] *)
Fixpoint dashes (s : string) : string :=
  match s with
  | String c s' =>
      String (if Ascii.eqb c ":" || Ascii.eqb c "." then "-"%char else c) (dashes s')
  | EmptyString => ""
  end.

Section Engine.

(** How deep [copyFileOrDir] may recurse. *)
Variable fuel : nat.

(** [hashPath] of filesystem.ts, the content hash of a file or directory,
    is not part of the sources at hand: it is a parameter. *)
Variable hashPath : gmap path node -> path -> string.

Definition backupDestination (timestamp : string) (target sourceRoot : path) : path :=
  let backupRoot := join sourceRoot ["backup"; timestamp] in
  let relativeTarget := target in
  join backupRoot relativeTarget.

Definition backupTarget (target sourceRoot : path) : M unit :=
  let! iso := now_ISO in
  let timestamp := dashes iso in
  let destination := backupDestination timestamp target sourceRoot in
  ensureDir (dirname destination) ;;;
  copyFileOrDir fuel target destination.

Definition lookup_key {A} (k : string) (l : list (string * A)) : option A :=
  snd <$> List.find (fun kv => bool_decide (kv.1 = k)) l.

Definition getProfileFiles (config : AgentConfigFile) : list MappingFile :=
  let profileName := profile (defaults config) in
  match profiles config with
  | Some ps =>
      match lookup_key profileName ps with
      | Some (Some fls) => fls
      | _ => []
      end
  | None => []
  end.

(** [s.replace(pat, rep)] for a string pattern: the first occurrence. *)
Fixpoint replace_first (pat rep s : string) : string :=
  if String.prefix pat s
  then rep +:+ String.substring (String.length pat) (String.length s - String.length pat) s
  else match s with
       | String c s' => String c (replace_first pat rep s')
       | EmptyString => ""
       end.

Definition truthy (s : option string) : bool :=
  match s with
  | Some t => negb (bool_decide (t = ""))
  | None => false
  end.

Definition get_env : M (gmap string string) := fun w => (Ok (env w), w).

Definition resolveMappings (config : AgentConfigFile) (sourceRoot : path)
    (mode : Scope) (projectRoot : option string) (linkMode : SyncMode)
    (agentFilter : option string) : M (list ResolvedMapping) :=
  let profileFiles := getProfileFiles config in
  foldM (fun mappings '(agent, agentConfig) =>
           if truthy agentFilter && negb (bool_decide (agentFilter = Some agent))
           then ret mappings
           else
             let scopeConfig :=
               match mode with
               | global => cfg_global agentConfig
               | project => cfg_project agentConfig
               end in
             match scopeConfig with
             | None => ret mappings
             | Some scopeConfig =>
                 let! root :=
                   match mode with
                   | project =>
                       if negb (truthy projectRoot) then
                         throw (AgentConfigError
                                  "Project root is required for project mode"
                                  ExitCodes.Validation)
                       else ret (replace_first "<project-root>"
                                   (default "" projectRoot) (root scopeConfig))
                   | global => ret (root scopeConfig)
                   end in
                 let! e := get_env in
                 let! resolvedRoot := resolvePath root e in
                 ret (mappings ++
                      map (fun mapping =>
                             {| agent := agent;
                                source := resolveFromRoot sourceRoot (mf_source mapping);
                                target := resolveFromRoot resolvedRoot (mf_target mapping);
                                mode := linkMode |})
                          (files scopeConfig ++ profileFiles))
             end)
        [] (agents config).

(** The scratch directory is created and removed within the call; what is
    left is the answer of the platform. *)
Definition canCreateSymlink : M bool :=
  fun w => (Ok (symlinkAllowed w (join (tmpdir w) ["agentconfig-"; "target"])), w).

Definition resolveSyncMode (linkMode : SyncMode) : M SyncMode :=
  match linkMode with
  | auto =>
      let! canLink := canCreateSymlink in
      ret (if canLink then link else copy)
  | _ => ret linkMode
  end.

Definition formatError (error : exn) : string :=
  match error with
  | ErrnoException code => code +:+ ": " +:+ message_of error
  | _ => message_of error
  end.

Record TargetInfo := {
  info_isDirectory : bool;
  info_isSymlink : bool;
  info_linkTarget : option string
}.

Definition getTargetInfo (target : path) : M (option TargetInfo) :=
  try_catch
    (let! stat := fs_lstat target in
     if isSymbolicLink stat then
       let! text := readLinkTarget target in
       ret (Some {| info_isDirectory := false; info_isSymlink := true;
                    info_linkTarget := text |})
     else
       ret (Some {| info_isDirectory := isDirectory stat; info_isSymlink := false;
                    info_linkTarget := None |}))
    (fun _error => ret None).

Definition removeEmptyDirectory (target : path) : M bool :=
  let! entries := fs_readdir target in
  if Nat.ltb 0 (length entries) then ret false
  else fs_rmdir target ;;; ret true.

Definition removeDirectory (target : path) (allowNonEmptyDir : bool) : M bool :=
  if negb allowNonEmptyDir then removeEmptyDirectory target
  else fs_rm_rf target ;;; ret true.

(** [warnings] is the caller's array, or absent; the function gives back
    what the array holds afterwards. *)
Definition ensureTargetParent (targetParent target : path)
    (warnings : option (list string)) : M (option (list string)) :=
  let! parentExists := fileExists targetParent in
  if negb parentExists then
    ensureDir targetParent ;;;
    ret ((fun ws => ws ++ ["Created target parent directory: " +:+ render targetParent
                           +:+ " (for " +:+ render target +:+ ")"]) <$> warnings)
  else
    ensureDir targetParent ;;; ret warnings.

Definition refuse (target : path) : exn :=
  AgentConfigError ("Refusing to replace non-empty directory: " +:+ render target)
                   ExitCodes.Filesystem.

Definition applyCopyMapping (mapping : ResolvedMapping) (options : option bool) : M unit :=
  let allowNonEmptyDir := default false options in
  let! sourceStat := fs_lstat (source mapping) in
  let! existing := getTargetInfo (target mapping) in
  let targetParent := dirname (target mapping) in
  if isDirectory sourceStat then
    (match existing with
     | Some info => if negb (info_isDirectory info) then fs_unlink (target mapping) else ret tt
     | None => ret tt
     end) ;;;
    (match existing with
     | Some info =>
         if info_isDirectory info then
           let! removed := removeDirectory (target mapping) allowNonEmptyDir in
           if negb removed then throw (refuse (target mapping)) else ret tt
         else ret tt
     | None => ret tt
     end) ;;;
    ensureTargetParent targetParent (target mapping) None ;;;
    copyFileOrDir fuel (source mapping) (target mapping)
  else
    (match existing with
     | Some info =>
         if info_isDirectory info then
           let! removed := removeDirectory (target mapping) allowNonEmptyDir in
           if negb removed then throw (refuse (target mapping)) else ret tt
         else fs_unlink (target mapping)
     | None => ret tt
     end) ;;;
    ensureTargetParent targetParent (target mapping) None ;;;
    copyFileOrDir fuel (source mapping) (target mapping).

(** The caller's [warnings] array is passed in and what it holds at the end
    is returned. *)
Definition applyMapping (mapping : ResolvedMapping) (warnings : list string)
    (options : option bool) : M (list string) :=
  let allowNonEmptyDir := default false options in
  if decide (mode mapping = copy) then
    applyCopyMapping mapping (Some allowNonEmptyDir) ;;; ret warnings
  else
    let targetParent := dirname (target mapping) in
    let! pushed := ensureTargetParent targetParent (target mapping) (Some warnings) in
    let warnings := default warnings pushed in
    try_catch
      (let! sourceStat := fs_lstat (source mapping) in
       let! existing := getTargetInfo (target mapping) in
       let create :=
         fs_symlink (render (source mapping)) (target mapping) ;;; ret warnings in
       match existing with
       | Some info =>
           if info_isSymlink info then
             if decide (info_linkTarget info = Some (render (source mapping)))
             then ret warnings
             else fs_unlink (target mapping) ;;; create
           else if info_isDirectory info then
             let! removed := removeDirectory (target mapping) allowNonEmptyDir in
             if negb removed then throw (refuse (target mapping)) else create
           else fs_unlink (target mapping) ;;; create
       | None => create
       end)
      (fun error =>
         if instanceof_AgentConfigError error then throw error
         else
           let warnings :=
             warnings ++ ["Symlink failed for " +:+ render (target mapping) +:+ " ("
                          +:+ formatError error +:+ "); falling back to copy"] in
           applyCopyMapping mapping (Some allowNonEmptyDir) ;;; ret warnings).

Definition files_get {A} (k : path) (l : list (path * A)) : option A :=
  snd <$> List.find (fun kv => bool_decide (kv.1 = k)) l.

(** [files[k] = v]: an existing key keeps its place, a new one goes last. *)
Fixpoint files_set {A} (k : path) (v : A) (l : list (path * A)) : list (path * A) :=
  match l with
  | [] => [(k, v)]
  | (k', v') :: l' =>
      if decide (k' = k) then (k, v) :: l' else (k', v') :: files_set k v l'
  end.

Definition isManaged (target : path) (state : option SyncState) : bool :=
  match state with
  | None => false
  | Some st => bool_decide (is_Some (files_get target (st_files st)))
  end.

Definition get_statMeta (p : path) : M (Z * Z) := fun w => (Ok (statMeta w p), w).

Definition buildState (stateRoot : path) (mode : Scope) (projectRoot : option string)
    (mappings : list ResolvedMapping) (previousState : option SyncState) : M SyncState :=
  let files0 := match previousState with Some st => st_files st | None => [] end in
  let! files :=
    foldM (fun files mapping =>
             let! stat := fs_lstat (target mapping) in
             let! meta := get_statMeta (target mapping) in
             let isLink := isSymbolicLink stat in
             let modeValue := if isLink then link else copy in
             let! hash :=
               if decide (modeValue = copy)
               then (let! m := get_fs in ret (Some (hashPath m (target mapping))))
               else ret None in
             let! linkTarget :=
               if decide (modeValue = link) then readLinkTarget (target mapping)
               else ret None in
             let record :=
               {| rec_path := target mapping;
                  rec_source := source mapping;
                  rec_agent := agent mapping;
                  rec_mode := modeValue;
                  rec_size := meta.1;
                  rec_mtimeMs := meta.2;
                  rec_hash := hash;
                  rec_linkTarget := linkTarget |} in
             ret (files_set (target mapping) record files))
          files0 mappings in
  let! updatedAt := now_ISO in
  ret {| st_version := 1;
         st_updatedAt := updatedAt;
         st_mode := mode;
         st_projectRoot := projectRoot;
         st_files := files |}.

(** The state of the [for] loop of [syncConfigs]. *)
Record Loop := {
  conflictState : ConflictState;
  updatedMappings : list ResolvedMapping;
  skippedMappings : list ResolvedMapping;
  loop_warnings : list string
}.

Definition skip_with (warning : string) (mapping : ResolvedMapping)
    (cs : ConflictState) (l : Loop) : Loop :=
  {| conflictState := cs;
     updatedMappings := updatedMappings l;
     skippedMappings := skippedMappings l ++ [mapping];
     loop_warnings := loop_warnings l ++ [warning] |}.

(** From [if (dryRun) continue] to the end of the loop body. *)
Definition syncApply (opts : SyncOptions) (mapping : ResolvedMapping)
    (cs : ConflictState) (allowNonEmptyDir : bool) (l : Loop) : M Loop :=
  if dryRun opts then
    ret {| conflictState := cs; updatedMappings := updatedMappings l;
           skippedMappings := skippedMappings l; loop_warnings := loop_warnings l |}
  else
    let! ws :=
      try_catch (applyMapping mapping (loop_warnings l) (Some allowNonEmptyDir))
        (fun error =>
           if instanceof_AgentConfigError error then throw error
           else throw (AgentConfigError ("Failed to sync " +:+ render (target mapping))
                                        ExitCodes.Filesystem)) in
    ret {| conflictState := cs;
           updatedMappings := updatedMappings l ++ [mapping];
           skippedMappings := skippedMappings l;
           loop_warnings := ws |}.

(** The body of [for (const mapping of resolvedMappings)]. *)
Definition syncMapping (opts : SyncOptions) (existingState : option SyncState)
    (l : Loop) (mapping : ResolvedMapping) : M Loop :=
  let strictMode := default false (strict opts) in
  let policyAllowsOverwrite :=
    bool_decide (policy (conflictState l) = Some overwrite)
    || bool_decide (policy (conflictState l) = Some backup) in
  let managedTarget := isManaged (target mapping) existingState in
  let allowNonEmptyDir := force opts || policyAllowsOverwrite || managedTarget in
  let! sourceExists := fileExists (source mapping) in
  if negb sourceExists then
    if strictMode then
      throw (AgentConfigError ("Missing source: " +:+ render (source mapping))
                              ExitCodes.Validation)
    else
      ret (skip_with ("Skipping missing source: " +:+ render (source mapping))
                     mapping (conflictState l) l)
  else
    let! targetExists := fileExists (target mapping) in
    if targetExists && negb (force opts) && negb managedTarget then
      let! decision := resolveConflictPolicy (target mapping) (conflictState l) in
      match action decision with
      | cancel => throw (AgentConfigError "Sync cancelled" ExitCodes.Conflict)
      | skip =>
          ret (skip_with ("Skipping unmanaged target: " +:+ render (target mapping))
                         mapping (state decision) l)
      | backup =>
          (if negb (dryRun opts) then backupTarget (target mapping) (sourceRoot opts)
           else ret tt) ;;;
          syncApply opts mapping (state decision) true l
      | overwrite =>
          syncApply opts mapping (state decision) true l
      end
    else
      syncApply opts mapping (conflictState l) allowNonEmptyDir l.

Definition syncLoop (opts : SyncOptions) (existingState : option SyncState)
    (l : Loop) (resolvedMappings : list ResolvedMapping) : M Loop :=
  foldM (syncMapping opts existingState) l resolvedMappings.

(** The loop starts with nothing updated or skipped and the caller's
    conflict policy, if any. *)
Definition initialLoop (options : SyncOptions) : Loop :=
  {| conflictState := {| policy := conflictPolicy options; canAsk := true |};
     updatedMappings := []; skippedMappings := []; loop_warnings := [] |}.

Definition syncConfigs (options : SyncOptions) : M SyncResult :=
  let! resolvedMode := resolveSyncMode (linkMode options) in
  let! resolvedMappings :=
    resolveMappings (config options) (sourceRoot options) (opt_mode options)
                    (projectRoot options) resolvedMode (agentFilter options) in
  let stateRoot := sourceRoot options in
  let! existingState := readState stateRoot in
  let! l := syncLoop options existingState (initialLoop options) resolvedMappings in
  (if negb (dryRun options) then
     let! newState :=
       buildState stateRoot (opt_mode options) (projectRoot options)
                  (updatedMappings l) existingState in
     writeState stateRoot newState
   else ret tt) ;;;
  ret {| planned := resolvedMappings;
         updated := updatedMappings l;
         skipped := skippedMappings l;
         warnings := loop_warnings l |}.

(** ** status.ts *)

Inductive Status := missing | drifted | ok.

Record StatusEntry := {
  entry_path : path;
  status : Status;
  reason : option string
}.

Definition getStatus (stateRoot : path) : M (list StatusEntry) :=
  let! state := readState stateRoot in
  match state with
  | None => ret []
  | Some state =>
      foldM (fun results record =>
               let! exists_ := fileExists (rec_path record) in
               if negb exists_ then
                 ret (results ++ [{| entry_path := rec_path record; status := missing;
                                     reason := Some "target missing" |}])
               else
                 let! stat :=
                   match rec_mode record with
                   | link | auto => let! s := fs_lstat (rec_path record) in ret (Some s)
                   | copy => ret None
                   end in
                 let is_link :=
                   match stat with Some s => isSymbolicLink s | None => false end in
                 let mode :=
                   match rec_mode record with
                   | auto => if is_link then link else copy
                   | m => m
                   end in
                 let drift why :=
                   ret (results ++ [{| entry_path := rec_path record; status := drifted;
                                       reason := Some why |}]) in
                 let fine :=
                   ret (results ++ [{| entry_path := rec_path record; status := ok;
                                       reason := None |}]) in
                 if decide (mode = link) then
                   if negb is_link then drift "link target changed"
                   else if negb (truthy (rec_linkTarget record))
                   then drift "link target changed"
                   else
                     let! linkTarget := readLinkTarget (rec_path record) in
                     if negb (bool_decide (linkTarget = rec_linkTarget record))
                     then drift "link target changed"
                     else fine
                 else
                   if negb (truthy (rec_hash record)) then drift "content changed"
                   else
                     let! m := get_fs in
                     let currentHash := hashPath m (rec_path record) in
                     if negb (bool_decide (Some currentHash = rec_hash record))
                     then drift "content changed"
                     else fine)
            [] (map snd (st_files state))
  end.

(** ** Auxiliary definitions for the proofs *)

(** The first three steps of [syncConfigs], which only read, and the last
    ones, which write the snapshot. *)
Definition plan (options : SyncOptions) : M (list ResolvedMapping * option SyncState) :=
  let! resolvedMode := resolveSyncMode (linkMode options) in
  let! resolvedMappings :=
    resolveMappings (config options) (sourceRoot options) (opt_mode options)
                    (projectRoot options) resolvedMode (agentFilter options) in
  let! existingState := readState (sourceRoot options) in
  ret (resolvedMappings, existingState).

Definition persist (options : SyncOptions) (resolvedMappings : list ResolvedMapping)
    (existingState : option SyncState) (l : Loop) : M SyncResult :=
  (if negb (dryRun options) then
     let! newState :=
       buildState (sourceRoot options) (opt_mode options) (projectRoot options)
                  (updatedMappings l) existingState in
     writeState (sourceRoot options) newState
   else ret tt) ;;;
  ret {| planned := resolvedMappings;
         updated := updatedMappings l;
         skipped := skippedMappings l;
         warnings := loop_warnings l |}.

End Engine.

(** A computation [keeps] a relation between worlds when every run of it,
    whatever its outcome, relates the world before to the world after. *)
Definition keeps {A} (R : World -> World -> Prop) (c : M A) : Prop :=
  forall w r w', c w = (r, w') -> R w w'.

(** What a computation returns, when it returns. *)
Definition returns {A} (c : M A) (Q : A -> Prop) : Prop :=
  forall w a w', c w = (Ok a, w') -> Q a.

(** The file tree after a computation is the one before it. *)
Definition same_fs (w w' : World) : Prop := fs w' = fs w.

(** Nothing at all changes. *)
Definition same_world (w w' : World) : Prop := w' = w.

(** Everything but the file tree and the two counters. *)
Definition same_host (w w' : World) : Prop :=
  symlinkAllowed w' = symlinkAllowed w /\ isTTY w' = isTTY w
  /\ operator w' = operator w /\ clock w' = clock w.

(** What [getTargetInfo] reports for a node. *)
Definition info_of (n : option node) : option TargetInfo :=
  match n with
  | Some (Symlink text) =>
      Some {| info_isDirectory := false; info_isSymlink := true;
              info_linkTarget := Some text |}
  | Some n =>
      Some {| info_isDirectory := isDirectory n; info_isSymlink := false;
              info_linkTarget := None |}
  | None => None
  end.

(** The loop only ever appends to its three lists. *)
Definition grows (l l' : Loop) : Prop :=
  updatedMappings l `prefix_of` updatedMappings l'
  /\ skippedMappings l `prefix_of` skippedMappings l'
  /\ loop_warnings l `prefix_of` loop_warnings l'.

(** ** The classification of the drift detector, in the words of the specification

    A record is link-effective when its stored mode is link, or when it is
    auto and the target is a symbolic link now; a stored link target or hash
    is one that is neither null nor empty. *)
Definition link_effective (n : node) (record : SyncRecord) : bool :=
  match rec_mode record with
  | link => true
  | auto => isSymbolicLink n
  | copy => false
  end.

Definition current_link (n : node) : option string :=
  match n with Symlink text => Some text | _ => None end.

Section Classification.

Variable hashPath : gmap path node -> path -> string.

Definition classify (m : gmap path node) (record : SyncRecord) : Status * option string :=
  match m !! rec_path record with
  | None => (missing, None)
  | Some n =>
      if link_effective n record then
        if negb (isSymbolicLink n)
           || negb (truthy (rec_linkTarget record))
           || negb (bool_decide (current_link n = rec_linkTarget record))
        then (drifted, Some "link target changed")
        else (ok, None)
      else
        if negb (truthy (rec_hash record))
           || negb (bool_decide (Some (hashPath m (rec_path record)) = rec_hash record))
        then (drifted, Some "content changed")
        else (ok, None)
  end.

End Classification.

(** What an entry of [getStatus] says: its status, and its reason when the
    status is drifted. *)
Definition verdict (e : StatusEntry) : Status * option string :=
  (status e, match status e with drifted => reason e | _ => None end).

(** A record made for a mapping carries its target, source and agent. *)
Definition describes (r : SyncRecord) (m : ResolvedMapping) : Prop :=
  rec_path r = target m /\ rec_source r = source m /\ rec_agent r = agent m.

Definition previous_files (es : option SyncState) : list (path * SyncRecord) :=
  match es with Some st => st_files st | None => [] end.

(** ** How far an operation reaches in the file tree *)

(** From [m] to [m'] nothing changed but missing directories on the way
    to [p], which were created. *)
Definition grown_map (p : path) (m m' : gmap path node) : Prop :=
  forall k, m' !! k = m !! k
            \/ (m !! k = None /\ m' !! k = Some Dir /\ k `prefix_of` p).

Definition grown (p : path) (w w' : World) : Prop := grown_map p (fs w) (fs w').

(** From [m] to [m'] nothing changed outside the subtree of [t] but missing
    directories on the way to [t], which were created. *)
Definition within_map (t : path) (m m' : gmap path node) : Prop :=
  forall k, ¬ t `prefix_of` k ->
            m' !! k = m !! k
            \/ (m !! k = None /\ m' !! k = Some Dir /\ k `prefix_of` t).

Definition within (t : path) (w w' : World) : Prop := within_map t (fs w) (fs w').

(** Two paths neither of which is at or below the other. *)
Definition apart (p q : path) : Prop := ¬ p `prefix_of` q /\ ¬ q `prefix_of` p.

(** The node at [k] is the same before and after. *)
Definition same_at (k : path) (w w' : World) : Prop := fs w' !! k = fs w !! k.

(** The subtree of [t] is the same before and after. *)
Definition same_below (t : path) (w w' : World) : Prop :=
  forall k, t `prefix_of` k -> fs w' !! k = fs w !! k.

(** ** Copies *)

Definition regular (n : node) : bool :=
  match n with Symlink _ => false | _ => true end.

(** Every file and directory at or below [src] in [m] is found, the same,
    at the same place below [dst] in [m']. *)
Definition copied (m : gmap path node) (src : path) (m' : gmap path node) (dst : path)
  : Prop :=
  forall q n, m !! (src ++ q) = Some n -> regular n = true ->
              m' !! (dst ++ q) = Some n.

(** In a well-formed tree whatever exists lies in a directory. *)
Definition well_formed (m : gmap path node) : Prop :=
  forall k x, is_Some (m !! (k ++ [x])) -> m !! k = Some Dir.

(** The same, for what lies below [src]. *)
Definition tree_below (m : gmap path node) (src : path) : Prop :=
  forall q x, is_Some (m !! (src ++ q ++ [x])) -> m !! (src ++ q) = Some Dir.

(** The clock reads the same. *)
Definition same_clock (w w' : World) : Prop :=
  clock w' = clock w /\ ticks w' = ticks w.

(** ** Example data

    One agent with one or two mappings, a source root [/s] holding
    [agent.md], and a target root [/t]. *)

Definition ex_agent_md : path := ["s"; "agent.md"].
Definition ex_AGENTS_md : path := ["t"; "AGENTS.md"].

Definition ex_config (fls : list MappingFile) : AgentConfigFile :=
  {| version := 1;
     defaults := {| def_mode := auto; profile := "default";
                    def_sourceRoot := "/s" |};
     agents := [("testagent",
                 {| displayName := "Test";
                    cfg_global := Some {| root := "/t"; files := fls |};
                    cfg_project := None |})];
     profiles := Some [("default", Some [])] |}.

Definition ex_options (fls : list MappingFile) (lm : SyncMode) (frc : bool)
    (pol : option ConflictPolicy) (str : option bool) : SyncOptions :=
  {| config := ex_config fls; sourceRoot := ["s"]; opt_mode := global;
     projectRoot := None; linkMode := lm; dryRun := false; force := frc;
     conflictPolicy := pol; agentFilter := Some "testagent"; strict := str |}.

Definition ex_world (tree : list (path * node)) (links : bool) : World :=
  {| fs := list_to_map tree;
     symlinkAllowed := fun _ => links;
     isTTY := false;
     operator := fun _ => "";
     linesRead := 0;
     clock := fun _ => "2024-01-02T03:04:05.678Z";
     ticks := 0;
     statMeta := fun _ => (0%Z, 0%Z);
     env := ∅; homedir := "/home/u"; cwd := ["w"]; tmpdir := ["tmp"] |}.

Definition ex_hash (m : gmap path node) (p : path) : string :=
  match m !! p with
  | Some (File (Raw bytes)) => "sha256:" +:+ bytes
  | _ => "sha256:"
  end.

Definition ex_mapping (src tgt : path) (md : SyncMode) : ResolvedMapping :=
  {| agent := "testagent"; source := src; target := tgt; mode := md |}.

(** The source tree alone; with a file already at the target; with a
    non-empty directory at the target. *)
Definition ex_tree_fresh : list (path * node) :=
  [([], Dir); (["s"], Dir); (ex_agent_md, File (Raw "hello")); (["t"], Dir)].

Definition ex_tree_taken : list (path * node) :=
  ex_tree_fresh ++ [(ex_AGENTS_md, File (Raw "existing"))].

Definition ex_tree_dir : list (path * node) :=
  ex_tree_fresh ++ [(ex_AGENTS_md, Dir);
                    (ex_AGENTS_md ++ ["nested.txt"], File (Raw "data"))].

Definition ex_one : list MappingFile :=
  [{| mf_source := "agent.md"; mf_target := "AGENTS.md" |}].

Definition ex_two : list MappingFile :=
  [{| mf_source := "agent.md"; mf_target := "FIRST.md" |};
   {| mf_source := "agent.md"; mf_target := "AGENTS.md" |}].

Definition ex_missing : list MappingFile :=
  [{| mf_source := "missing.md"; mf_target := "AGENTS.md" |}].

(** A snapshot recording a copied target and a linked one; in the tree the
    first has other content by now and the second is gone. *)
Definition ex_snapshot : SyncState :=
  {| st_version := 1; st_updatedAt := "2024-01-02T03:04:05.678Z";
     st_mode := global; st_projectRoot := None;
     st_files :=
       [(ex_AGENTS_md,
         {| rec_path := ex_AGENTS_md; rec_source := ex_agent_md;
            rec_agent := "testagent"; rec_mode := copy;
            rec_size := 5; rec_mtimeMs := 0;
            rec_hash := Some "sha256:hello";
            rec_linkTarget := None |});
        (["t"; "GONE.md"],
         {| rec_path := ["t"; "GONE.md"]; rec_source := ex_agent_md;
            rec_agent := "testagent"; rec_mode := link;
            rec_size := 5; rec_mtimeMs := 0;
            rec_hash := None;
            rec_linkTarget := Some "/s/agent.md" |})] |}.

Definition ex_tree_drift : list (path * node) :=
  ex_tree_fresh ++
  [(ex_AGENTS_md, File (Raw "changed"));
   (["s"; ".sync-state.json"], File (Snapshot ex_snapshot))].

Definition ex_then_missing : list MappingFile :=
  [{| mf_source := "agent.md"; mf_target := "FIRST.md" |};
   {| mf_source := "missing.md"; mf_target := "AGENTS.md" |}].

(** ** Further auxiliary definitions *)

(** A computation [raises] only errors that satisfy [P]. *)
Definition raises {A} (P : exn -> Prop) (c : M A) : Prop :=
  forall w e w', c w = (Throw e, w') -> P e.

(** An error of the platform. *)
Definition errno (e : exn) : Prop := isErrnoException e = true.

(** What the apply step raises: an error of the platform, or the refusal,
    which takes that the directory may not be replaced. *)
Definition apply_error (target : path) (allow : bool) (e : exn) : Prop :=
  errno e \/ (e = refuse target /\ allow = false).


(** The ways in which a run can fail. *)
Inductive failure (opts : SyncOptions) : exn -> Prop :=
  | fail_project_root :
      failure opts (AgentConfigError "Project root is required for project mode"
                                     ExitCodes.Validation)
  | fail_snapshot message :
      failure opts (AgentConfigError
                      ("Invalid JSON in " +:+ render (getStatePath (sourceRoot opts))
                       +:+ ": " +:+ message) ExitCodes.Validation)
  | fail_missing_source m :
      strict opts = Some true ->
      failure opts (AgentConfigError ("Missing source: " +:+ render (source m))
                                     ExitCodes.Validation)
  | fail_cancelled :
      force opts = false ->
      failure opts (AgentConfigError "Sync cancelled" ExitCodes.Conflict)
  | fail_refused m :
      failure opts (AgentConfigError ("Refusing to replace non-empty directory: "
                                      +:+ render (target m)) ExitCodes.Filesystem)
  | fail_apply m :
      failure opts (AgentConfigError ("Failed to sync " +:+ render (target m))
                                     ExitCodes.Filesystem)
  | fail_platform code :
      failure opts (ErrnoException code).

(** What [buildState] records for a target, read off the tree. *)
Definition recorded (hashPath : gmap path node -> path -> string)
    (m : gmap path node) (k : path) (r : SyncRecord) : Prop :=
  rec_path r = k
  /\ match m !! k with
     | Some (Symlink text) =>
         rec_mode r = link /\ rec_linkTarget r = Some text
     | Some _ =>
         rec_mode r = copy /\ rec_hash r = Some (hashPath m k)
     | None => False
     end.

(** The options with another conflict policy. *)
Definition with_policy (p : option ConflictPolicy) (opts : SyncOptions) : SyncOptions :=
  {| config := config opts; sourceRoot := sourceRoot opts; opt_mode := opt_mode opts;
     projectRoot := projectRoot opts; linkMode := linkMode opts; dryRun := dryRun opts;
     force := force opts; conflictPolicy := p; agentFilter := agentFilter opts;
     strict := strict opts |}.

(** What of the loop's state goes into the result. *)
Definition loop_lists (l : Loop) : list ResolvedMapping * list ResolvedMapping * list string :=
  (updatedMappings l, skippedMappings l, loop_warnings l).

Definition outcome_map {A B} (f : A -> B) (r : outcome A) : outcome B :=
  match r with
  | Ok a => Ok (f a)
  | Throw e => Throw e
  | Timeout => Timeout
  end.

Definition lists_of (x : outcome Loop * World)
  : outcome (list ResolvedMapping * list ResolvedMapping * list string) * World :=
  (outcome_map loop_lists x.1, x.2).

(** The root of a scope as [resolveMappings] reads it, before it is
    resolved. *)
Definition scope_root (md : Scope) (pr : option string) (sc : AgentScopeConfig) : string :=
  match md with
  | global => root sc
  | project => replace_first "<project-root>" (default "" pr) (root sc)
  end.

(** The mapping planned for one file of one agent. *)
Definition mapping_for (sr : path) (md : Scope) (pr : option string) (lm : SyncMode)
    (w : World) (name : string) (sc : AgentScopeConfig) (mf : MappingFile)
  : ResolvedMapping :=
  {| agent := name;
     source := resolveFromRoot sr (mf_source mf);
     target := resolveFromRoot
                 (path_resolve (cwd w)
                    (expandHome (homedir w) (expandEnv (scope_root md pr sc) (env w))))
                 (mf_target mf);
     mode := lm |}.

Definition scope_of (md : Scope) (entry : AgentConfigEntry) : option AgentScopeConfig :=
  match md with global => cfg_global entry | project => cfg_project entry end.

(** A dry run over the example configuration. *)
Definition ex_dry_options (fls : list MappingFile) (lm : SyncMode)
    (pol : option ConflictPolicy) : SyncOptions :=
  {| config := ex_config fls; sourceRoot := ["s"]; opt_mode := global;
     projectRoot := None; linkMode := lm; dryRun := true; force := false;
     conflictPolicy := pol; agentFilter := None; strict := None |}.

(** Project mode over one agent, which has a project scope only. *)
Definition ex_project_config : AgentConfigFile :=
  {| version := 1;
     defaults := {| def_mode := copy; profile := "default"; def_sourceRoot := "/s" |};
     agents := [("claude",
                 {| displayName := "Claude Code";
                    cfg_global := None;
                    cfg_project := Some {| root := "<project-root>"; files := ex_one |} |})];
     profiles := None |}.

(** Two agents, each with a global scope. *)
Definition ex_two_agents : AgentConfigFile :=
  {| version := 1;
     defaults := {| def_mode := copy; profile := "default"; def_sourceRoot := "/s" |};
     agents := [("claude", {| displayName := "Claude Code";
                             cfg_global := Some {| root := "/t/claude"; files := ex_one |};
                             cfg_project := None |});
                ("codex", {| displayName := "Codex CLI";
                            cfg_global := Some {| root := "/t/./codex/"; files :=
                              [{| mf_source := "agent.md"; mf_target := "AGENTS.md" |};
                               {| mf_source := "skills/"; mf_target := "../.agents//skills/" |}] |};
                            cfg_project := None |})];
     profiles := None |}.

(** ** Normalised paths *)

Fixpoint has_slash (s : string) : bool :=
  match s with
  | String c s' => Ascii.eqb c "/" || has_slash s'
  | EmptyString => false
  end.

(** A component of a normalised path: a name that is not empty, not a dot
    and not two dots, and holds no separator. *)
Definition is_name (c : string) : Prop :=
  c <> "" /\ c <> "." /\ c <> ".." /\ has_slash c = false.

Definition normalised (p : path) : Prop := Forall is_name p.

(** ** Texts *)

Fixpoint all_chars (f : ascii -> bool) (s : string) : bool :=
  match s with
  | String c s' => f c && all_chars f s'
  | EmptyString => true
  end.

Definition not_char (a c : ascii) : bool := negb (Ascii.eqb c a).

(** The text that replaces a placeholder. *)
Definition replacement (e : gmap string string) (varName : string)
    (fallback : option string) : string :=
  match e !! varName with
  | Some v => if decide (v = "") then default "" fallback else v
  | None => default "" fallback
  end.

(** No line has been read from the terminal. *)
Definition same_lines (w w' : World) : Prop := linesRead w' = linesRead w.

(** A run is settled when no conflict can lead to a question: it is
    forced, a policy is fixed, or there is no terminal. *)
Definition settled (opts : SyncOptions) (cs : ConflictState) (w : World) : Prop :=
  force opts = true \/ policy cs <> None \/ isTTY w = false.

(** A world with a terminal, whose operator gives the answers [answers]. *)
Definition ex_terminal (tree : list (path * node)) (answers : nat -> string) : World :=
  {| fs := list_to_map tree;
     symlinkAllowed := fun _ => true;
     isTTY := true;
     operator := answers;
     linesRead := 0;
     clock := fun _ => "2024-01-02T03:04:05.678Z";
     ticks := 0;
     statMeta := fun _ => (0%Z, 0%Z);
     env := ∅; homedir := "/home/u"; cwd := ["w"]; tmpdir := ["tmp"] |}.

(** ** cli.ts: the command line *)

Record ParsedArgs := {
  command : option string;
  arg_project : option string;
  arg_dryRun : bool;
  arg_mode : option SyncMode;
  arg_force : bool;
  arg_conflictPolicy : option ConflictPolicy;
  arg_agent : option string;
  arg_strict : bool;
  arg_help : bool
}.

Definition startsWith_dash (arg : string) : bool :=
  match arg with String "-" _ => true | _ => false end.

(** The values [--on-conflict] accepts; anything else leaves the policy as
    it is. *)
Definition policy_of (value : option string) : option ConflictPolicy :=
  match value with
  | Some "overwrite" => Some overwrite
  | Some "backup" => Some backup
  | Some "skip" => Some skip
  | Some "cancel" => Some cancel
  | _ => None
  end.

Definition set_command (c : string) (r : ParsedArgs) : ParsedArgs :=
  {| command := Some c; arg_project := arg_project r; arg_dryRun := arg_dryRun r;
     arg_mode := arg_mode r; arg_force := arg_force r;
     arg_conflictPolicy := arg_conflictPolicy r; arg_agent := arg_agent r;
     arg_strict := arg_strict r; arg_help := arg_help r |}.

Definition set_project (v : option string) (r : ParsedArgs) : ParsedArgs :=
  {| command := command r; arg_project := v; arg_dryRun := arg_dryRun r;
     arg_mode := arg_mode r; arg_force := arg_force r;
     arg_conflictPolicy := arg_conflictPolicy r; arg_agent := arg_agent r;
     arg_strict := arg_strict r; arg_help := arg_help r |}.

Definition set_dryRun (r : ParsedArgs) : ParsedArgs :=
  {| command := command r; arg_project := arg_project r; arg_dryRun := true;
     arg_mode := arg_mode r; arg_force := arg_force r;
     arg_conflictPolicy := arg_conflictPolicy r; arg_agent := arg_agent r;
     arg_strict := arg_strict r; arg_help := arg_help r |}.

Definition set_mode (m : SyncMode) (r : ParsedArgs) : ParsedArgs :=
  {| command := command r; arg_project := arg_project r; arg_dryRun := arg_dryRun r;
     arg_mode := Some m; arg_force := arg_force r;
     arg_conflictPolicy := arg_conflictPolicy r; arg_agent := arg_agent r;
     arg_strict := arg_strict r; arg_help := arg_help r |}.

Definition set_force (r : ParsedArgs) : ParsedArgs :=
  {| command := command r; arg_project := arg_project r; arg_dryRun := arg_dryRun r;
     arg_mode := arg_mode r; arg_force := true;
     arg_conflictPolicy := arg_conflictPolicy r; arg_agent := arg_agent r;
     arg_strict := arg_strict r; arg_help := arg_help r |}.

Definition set_conflictPolicy (p : ConflictPolicy) (r : ParsedArgs) : ParsedArgs :=
  {| command := command r; arg_project := arg_project r; arg_dryRun := arg_dryRun r;
     arg_mode := arg_mode r; arg_force := arg_force r;
     arg_conflictPolicy := Some p; arg_agent := arg_agent r;
     arg_strict := arg_strict r; arg_help := arg_help r |}.

Definition set_agent (v : option string) (r : ParsedArgs) : ParsedArgs :=
  {| command := command r; arg_project := arg_project r; arg_dryRun := arg_dryRun r;
     arg_mode := arg_mode r; arg_force := arg_force r;
     arg_conflictPolicy := arg_conflictPolicy r; arg_agent := v;
     arg_strict := arg_strict r; arg_help := arg_help r |}.

Definition set_strict (r : ParsedArgs) : ParsedArgs :=
  {| command := command r; arg_project := arg_project r; arg_dryRun := arg_dryRun r;
     arg_mode := arg_mode r; arg_force := arg_force r;
     arg_conflictPolicy := arg_conflictPolicy r; arg_agent := arg_agent r;
     arg_strict := true; arg_help := arg_help r |}.

Definition set_help (r : ParsedArgs) : ParsedArgs :=
  {| command := command r; arg_project := arg_project r; arg_dryRun := arg_dryRun r;
     arg_mode := arg_mode r; arg_force := arg_force r;
     arg_conflictPolicy := arg_conflictPolicy r; arg_agent := arg_agent r;
     arg_strict := arg_strict r; arg_help := true |}.

(** The [for] loop of [parseArgs]: [args] is what is left from index [i]
    on.  An option that takes a value reads [args[i + 1]], which is undefined
    past the end, and steps over it. *)
Fixpoint parseLoop (result : ParsedArgs) (args : list string) : ParsedArgs :=
  match args with
  | [] => result
  | arg :: rest =>
      if negb (truthy (command result)) && negb (startsWith_dash arg)
      then parseLoop (set_command arg result) rest
      else if bool_decide (arg = "--project")
      then match rest with
           | value :: rest' => parseLoop (set_project (Some value) result) rest'
           | [] => set_project None result
           end
      else if bool_decide (arg = "--dry-run") then parseLoop (set_dryRun result) rest
      else if bool_decide (arg = "--link") then parseLoop (set_mode link result) rest
      else if bool_decide (arg = "--copy") then parseLoop (set_mode copy result) rest
      else if bool_decide (arg = "--force") then parseLoop (set_force result) rest
      else if bool_decide (arg = "--on-conflict")
      then let store value r :=
             match policy_of value with
             | Some p => set_conflictPolicy p r
             | None => r
             end in
           match rest with
           | value :: rest' => parseLoop (store (Some value) result) rest'
           | [] => store None result
           end
      else if bool_decide (arg = "--agent")
      then match rest with
           | value :: rest' => parseLoop (set_agent (Some value) result) rest'
           | [] => set_agent None result
           end
      else if bool_decide (arg = "--strict") then parseLoop (set_strict result) rest
      else if bool_decide (arg = "--help") || bool_decide (arg = "-h")
      then parseLoop (set_help result) rest
      else parseLoop result rest
  end.

Definition parseArgs (argv : list string) : ParsedArgs :=
  let args := drop 2 argv in
  let result :=
    {| command := None; arg_project := None; arg_dryRun := false; arg_mode := None;
       arg_force := false; arg_conflictPolicy := None; arg_agent := None;
       arg_strict := false; arg_help := false |} in
  parseLoop result args.

(** What [parseLoop] may have changed in the result. *)
Definition parsed_from (r : ParsedArgs) (args : list string) (r' : ParsedArgs) : Prop :=
  (arg_dryRun r' = true -> arg_dryRun r = true \/ "--dry-run" ∈ args)
  /\ (arg_force r' = true -> arg_force r = true \/ "--force" ∈ args)
  /\ (arg_strict r' = true -> arg_strict r = true \/ "--strict" ∈ args)
  /\ (arg_help r' = true -> arg_help r = true \/ "--help" ∈ args \/ "-h" ∈ args)
  /\ (forall m, arg_mode r' = Some m ->
                arg_mode r = Some m \/ (m = link /\ "--link" ∈ args)
                \/ (m = copy /\ "--copy" ∈ args))
  /\ (forall p, arg_conflictPolicy r' = Some p ->
                arg_conflictPolicy r = Some p \/ "--on-conflict" ∈ args)
  /\ (truthy (command r) = true -> command r' = command r).

(** ** scripts/clean.js *)

(** How the script ends: by throwing an [Error] of its own, or with what
    [fs.rm] does. *)
Inductive clean_outcome :=
  | CleanError (message : string)
  | Removed (r : outcome unit).

Fixpoint endsWith_sep (s : string) : bool :=
  match s with
  | EmptyString => false
  | String c EmptyString => Ascii.eqb c "/"
  | String _ s' => endsWith_sep s'
  end.

(** [run] of the script; [arg] is [process.argv[2]]. *)
Definition clean_run (arg : option string) : World -> clean_outcome * World :=
  fun w =>
    let targetArg := default "dist" arg in
    if Nat.eqb (String.length (trim targetArg)) 0
    then (CleanError "Clean target is empty", w)
    else
      let cwd_text := render (cwd w) in
      let target := path_resolve (cwd w) targetArg in
      let rootWithSep :=
        if endsWith_sep cwd_text then cwd_text else cwd_text +:+ "/" in
      if negb (String.prefix rootWithSep (render target))
         && negb (bool_decide (render target = cwd_text))
      then (CleanError ("Refusing to clean outside project: " +:+ render target), w)
      else let (r, w') := fs_rm_rf target w in (Removed r, w').

(** The text of a path after its first separator is left out. *)
Definition render_tail (p : path) : string :=
  match p with [] => "" | _ => render p end.

(** * Reasoning about computations *)

Lemma bind_Ok {A B} (c : M A) (k : A -> M B) w b w' :
  bind c k w = (Ok b, w') ->
  exists a w1, c w = (Ok a, w1) /\ k a w1 = (Ok b, w').
Proof.
  unfold bind. destruct (c w) as [[a|e|] w1]; intros H; try discriminate.
  eauto.
Qed.

Lemma bind_inv {A B} (c : M A) (k : A -> M B) w r w' :
  bind c k w = (r, w') ->
  (exists a w1, c w = (Ok a, w1) /\ k a w1 = (r, w'))
  \/ (exists e, c w = (Throw e, w') /\ r = Throw e)
  \/ (c w = (Timeout, w') /\ r = Timeout).
Proof.
  unfold bind. destruct (c w) as [[a|e|] w1]; intros H.
  - left. eauto.
  - right. left. inversion H. eauto.
  - right. right. inversion H. eauto.
Qed.

Lemma bind_eq_Ok {A B} (c : M A) (k : A -> M B) w a w1 :
  c w = (Ok a, w1) -> bind c k w = k a w1.
Proof. unfold bind. intros ->. reflexivity. Qed.

Lemma bind_eq_Throw {A B} (c : M A) (k : A -> M B) w e w1 :
  c w = (Throw e, w1) -> bind c k w = (Throw e, w1).
Proof. unfold bind. intros ->. reflexivity. Qed.

Lemma bind_eq_Timeout {A B} (c : M A) (k : A -> M B) w w1 :
  c w = (Timeout, w1) -> bind c k w = (Timeout, w1).
Proof. unfold bind. intros ->. reflexivity. Qed.

Lemma foldM_app {A S} (f : S -> A -> M S) (s : S) (l1 l2 : list A) w :
  foldM f s (l1 ++ l2) w = (let! s' := foldM f s l1 in foldM f s' l2) w.
Proof.
  revert s w. induction l1 as [|x l1 IH]; intros s w; simpl.
  - reflexivity.
  - unfold bind. destruct (f s x w) as [[s1|e|] w1]; simpl.
    + rewrite IH. reflexivity.
    + reflexivity.
    + reflexivity.
Qed.

Section Keeps.
Context (R : relation World) `{!PreOrder R}.

Lemma keeps_ret {A} (a : A) : keeps R (ret a).
Proof. intros w r w' H. inversion H. reflexivity. Qed.

Lemma keeps_throw {A} e : keeps R (@throw A e).
Proof. intros w r w' H. inversion H. reflexivity. Qed.

Lemma keeps_timeout {A} : keeps R (@timeout A).
Proof. intros w r w' H. inversion H. reflexivity. Qed.

Lemma keeps_bind {A B} (c : M A) (k : A -> M B) :
  keeps R c -> (forall a, keeps R (k a)) -> keeps R (bind c k).
Proof.
  intros Hc Hk w r w' H.
  destruct (bind_inv _ _ _ _ _ H) as [(a & w1 & H1 & H2)|[(e & H1 & _)|[H1 _]]].
  - transitivity w1; [eapply Hc, H1|eapply Hk, H2].
  - eapply Hc, H1.
  - eapply Hc, H1.
Qed.

Lemma keeps_try_catch {A} (c : M A) (h : exn -> M A) :
  keeps R c -> (forall e, keeps R (h e)) -> keeps R (try_catch c h).
Proof.
  intros Hc Hh w r w' H. unfold try_catch in H.
  destruct (c w) as [[a|e|] w1] eqn:E.
  - inversion H; subst. eapply Hc, E.
  - transitivity w1; [eapply Hc, E|eapply Hh, H].
  - inversion H; subst. eapply Hc, E.
Qed.

Lemma keeps_foldM {A S} (f : S -> A -> M S) (l : list A) :
  (forall s x, keeps R (f s x)) -> forall s, keeps R (foldM f s l).
Proof.
  intros Hf. induction l as [|x l IH]; intros s; simpl.
  - apply keeps_ret.
  - apply keeps_bind; [apply Hf|apply IH].
Qed.

Lemma keeps_pure {A} (c : M A) :
  (forall w, snd (c w) = w) -> keeps R c.
Proof. intros Hc w r w' H. specialize (Hc w). rewrite H in Hc. simpl in Hc. subst. reflexivity. Qed.
End Keeps.

Lemma keeps_if {A} R (b : bool) (c1 c2 : M A) :
  keeps R c1 -> keeps R c2 -> keeps R (if b then c1 else c2).
Proof. destruct b; auto. Qed.

Lemma keeps_weaken {A} (R1 R2 : World -> World -> Prop) (c : M A) :
  (forall w w', R1 w w' -> R2 w w') -> keeps R1 c -> keeps R2 c.
Proof. intros HR Hc w r w' H. eapply HR, Hc, H. Qed.

(** * What the primitive operations do *)

Lemma fs_lstat_eq p w :
  fs_lstat p w =
  match fs w !! p with
  | Some n => (Ok n, w)
  | None => (Throw (ErrnoException "ENOENT"), w)
  end.
Proof. unfold fs_lstat, bind, get_fs. destruct (fs w !! p); reflexivity. Qed.

Lemma fileExists_eq p w :
  fileExists p w = (Ok (bool_decide (is_Some (fs w !! p))), w).
Proof.
  unfold fileExists, try_catch, bind. rewrite fs_lstat_eq.
  destruct (fs w !! p) as [n|] eqn:E; reflexivity.
Qed.

Lemma fileExists_missing p w :
  fs w !! p = None -> fileExists p w = (Ok false, w).
Proof.
  intros H. rewrite fileExists_eq, H. rewrite bool_decide_eq_false_2; [reflexivity|].
  intros [? ?]; discriminate.
Qed.

Lemma fileExists_present p w n :
  fs w !! p = Some n -> fileExists p w = (Ok true, w).
Proof.
  intros H. rewrite fileExists_eq, H. rewrite bool_decide_eq_true_2; eauto.
Qed.

Lemma getTargetInfo_eq p w : getTargetInfo p w = (Ok (info_of (fs w !! p)), w).
Proof.
  unfold getTargetInfo, try_catch, bind. rewrite fs_lstat_eq.
  destruct (fs w !! p) as [[c| |text]|] eqn:E; simpl; try reflexivity.
  unfold readLinkTarget, try_catch, bind, fs_readlink, bind, get_fs.
  rewrite E. reflexivity.
Qed.

Lemma readLinkTarget_eq p w text :
  fs w !! p = Some (Symlink text) -> readLinkTarget p w = (Ok (Some text), w).
Proof.
  intros E. unfold readLinkTarget, try_catch, bind, fs_readlink, bind, get_fs.
  rewrite E. reflexivity.
Qed.

#[global] Instance same_fs_preorder : PreOrder same_fs.
Proof. split; unfold same_fs; [intros w; reflexivity|intros w1 w2 w3; congruence]. Qed.

#[global] Instance same_world_preorder : PreOrder same_world.
Proof. split; unfold same_world; [intros w; reflexivity|intros w1 w2 w3; congruence]. Qed.

#[global] Instance same_host_preorder : PreOrder same_host.
Proof.
  split; unfold same_host.
  - intros w. repeat split.
  - intros w1 w2 w3 (?&?&?&?) (?&?&?&?). repeat split; congruence.
Qed.

Lemma question_same_fs : keeps same_fs question.
Proof. intros w r w' H. inversion H. reflexivity. Qed.

Lemma promptConflictAction_same_fs target : keeps same_fs (promptConflictAction target).
Proof.
  unfold promptConflictAction.
  apply keeps_bind; [apply _|apply question_same_fs|]. intros choice.
  apply keeps_bind; [apply _|apply question_same_fs|]. intros answer.
  destruct (parseInt (trim choice)) as [z|]; [|apply keeps_ret, _].
  repeat match goal with
         | |- context [match ?x with _ => _ end] => is_var x; destruct x
         end; apply keeps_ret, _.
Qed.

Lemma resolveConflictPolicy_same_fs target cs :
  keeps same_fs (resolveConflictPolicy target cs).
Proof.
  unfold resolveConflictPolicy. destruct (policy cs).
  - apply keeps_ret, _.
  - apply keeps_bind; [apply _| |].
    + apply keeps_pure; [apply _|reflexivity].
    + intros tty. apply keeps_if.
      * apply keeps_ret, _.
      * apply keeps_bind; [apply _|apply promptConflictAction_same_fs|].
        intros [act all]. apply keeps_ret, _.
Qed.

(** What [resolveConflictPolicy] answers, case by case. *)
Lemma resolveConflictPolicy_fixed target cs p w :
  policy cs = Some p ->
  resolveConflictPolicy target cs w = (Ok {| action := p; state := cs |}, w).
Proof. intros H. unfold resolveConflictPolicy. rewrite H. reflexivity. Qed.

Lemma resolveConflictPolicy_cannot_ask target cs w :
  policy cs = None ->
  canAsk cs = false \/ isTTY w = false ->
  resolveConflictPolicy target cs w =
  (Ok {| action := skip;
         state := {| policy := Some skip; canAsk := canAsk cs |} |}, w).
Proof.
  intros H Hno. unfold resolveConflictPolicy, bind, get_isTTY. rewrite H.
  destruct Hno as [-> | ->]; simpl; [reflexivity|].
  rewrite orb_true_r. reflexivity.
Qed.

Lemma resolveConflictPolicy_asks target cs w d w' :
  policy cs = None -> canAsk cs = true -> isTTY w = true ->
  resolveConflictPolicy target cs w = (Ok d, w') ->
  (policy (state d) = Some (action d) /\ canAsk (state d) = false)
  \/ (policy (state d) = None /\ canAsk (state d) = true).
Proof.
  intros H Hask Htty. unfold resolveConflictPolicy, bind at 1, get_isTTY.
  rewrite H, Hask, Htty. simpl. intros Hd.
  apply bind_Ok in Hd as ([act all] & w1 & _ & Hd). inversion Hd; subst; simpl.
  destruct all; simpl; auto.
Qed.

Lemma resolveConflictPolicy_total target cs w :
  exists d w', resolveConflictPolicy target cs w = (Ok d, w').
Proof.
  unfold resolveConflictPolicy. destruct (policy cs); [eexists _, _; reflexivity|].
  unfold bind, get_isTTY. destruct (negb (canAsk cs) || negb (isTTY w));
    [eexists _, _; reflexivity|].
  unfold promptConflictAction, bind, question; simpl.
  destruct (parseInt _) as [z|]; [|eexists _, _; reflexivity].
  repeat match goal with
         | |- context [match ?x with _ => _ end] => is_var x; destruct x
         end; eexists _, _; reflexivity.
Qed.

Lemma returns_ret {A} (a : A) (Q : A -> Prop) : Q a -> returns (ret a) Q.
Proof. intros HQ w a' w' H. inversion H; subst. exact HQ. Qed.

Lemma returns_throw {A} e (Q : A -> Prop) : returns (throw e) Q.
Proof. intros w a' w' H. inversion H. Qed.

Lemma returns_bind {A B} (c : M A) (k : A -> M B) (P : A -> Prop) (Q : B -> Prop) :
  returns c P -> (forall a, P a -> returns (k a) Q) -> returns (bind c k) Q.
Proof.
  intros Hc Hk w b w' H. apply bind_Ok in H as (a & w1 & H1 & H2).
  eapply Hk; [eapply Hc, H1|exact H2].
Qed.

Lemma returns_try_catch {A} (c : M A) (h : exn -> M A) (Q : A -> Prop) :
  returns c Q -> (forall e, returns (h e) Q) -> returns (try_catch c h) Q.
Proof.
  intros Hc Hh w a w' H. unfold try_catch in H.
  destruct (c w) as [[a1|e|] w1] eqn:E.
  - inversion H; subst. eapply Hc, E.
  - eapply Hh, H.
  - discriminate.
Qed.

Lemma returns_any {A} (c : M A) : returns c (fun _ => True).
Proof. intros w a w' _. exact I. Qed.

Section SyncLemmas.

Variable fuel : nat.
Variable hashPath : gmap path node -> path -> string.

Lemma syncConfigs_eq options w :
  syncConfigs fuel hashPath options w =
  (let! (ms, es) := plan options in
   let! l := syncLoop fuel options es (initialLoop options) ms in
   persist hashPath options ms es l) w.
Proof.
  unfold syncConfigs, plan, persist, bind.
  destruct (resolveSyncMode _ w) as [[md|e|] w1]; try reflexivity.
  destruct (resolveMappings _ _ _ _ _ _ w1) as [[ms|e|] w2]; try reflexivity.
  destruct (readState _ w2) as [[es|e|] w3]; reflexivity.
Qed.

Lemma resolveMappings_pure cfg sr md pr lm af :
  forall w, snd (resolveMappings cfg sr md pr lm af w) = w.
Proof.
  unfold resolveMappings. generalize (@nil ResolvedMapping).
  induction (agents cfg) as [|[ag agc] l IH]; intros acc w; simpl; [reflexivity|].
  unfold bind at 1.
  match goal with |- context [if ?b then _ else _] => destruct b end.
  { simpl. apply IH. }
  destruct (match md with global => _ | project => _ end) as [sc|]; [|simpl; apply IH].
  unfold bind at 1.
  destruct md.
  - simpl. apply IH.
  - destruct (negb (truthy pr)); simpl; [reflexivity|apply IH].
Qed.

Lemma readState_pure root : forall w, snd (readState root w) = w.
Proof.
  intros w. unfold readState, try_catch, bind, fs_readFile.
  destruct (read_through 40 (fs w) (getStatePath root)) as [e|[b|doc]]; simpl.
  - destruct (isErrnoException e && has_code e "ENOENT"); [reflexivity|].
    destruct e; reflexivity.
  - reflexivity.
  - reflexivity.
Qed.

Lemma plan_pure options w r w' : plan options w = (r, w') -> w' = w.
Proof.
  assert (H : keeps same_world (plan options)); [|intros Hp; exact (H _ _ _ Hp)].
  unfold plan.
  apply keeps_bind; [apply _| |intros md].
  { unfold resolveSyncMode. destruct (linkMode options);
      apply keeps_pure; try apply _; reflexivity. }
  apply keeps_bind; [apply _| |intros ms].
  { apply keeps_pure; [apply _|apply resolveMappings_pure]. }
  apply keeps_bind; [apply _| |intros es].
  { apply keeps_pure; [apply _|apply readState_pure]. }
  apply keeps_ret, _.
Qed.

(** The three ways through the loop body. *)
Lemma syncMapping_missing_source opts es l m w :
  fs w !! source m = None ->
  syncMapping fuel opts es l m w =
  if default false (strict opts)
  then (Throw (AgentConfigError ("Missing source: " +:+ render (source m))
                                ExitCodes.Validation), w)
  else (Ok (skip_with ("Skipping missing source: " +:+ render (source m))
                      m (conflictState l) l), w).
Proof.
  intros H. unfold syncMapping.
  rewrite (bind_eq_Ok _ _ _ _ _ (fileExists_missing _ _ H)). simpl.
  destruct (default false (strict opts)); reflexivity.
Qed.

Lemma syncMapping_conflict opts es l m w ns nt :
  fs w !! source m = Some ns -> fs w !! target m = Some nt ->
  force opts = false -> isManaged (target m) es = false ->
  syncMapping fuel opts es l m w =
  (let! decision := resolveConflictPolicy (target m) (conflictState l) in
   match action decision with
   | cancel => throw (AgentConfigError "Sync cancelled" ExitCodes.Conflict)
   | skip =>
       ret (skip_with ("Skipping unmanaged target: " +:+ render (target m))
                      m (state decision) l)
   | backup =>
       (if negb (dryRun opts) then backupTarget fuel (target m) (sourceRoot opts)
        else ret tt) ;;;
       syncApply fuel opts m (state decision) true l
   | overwrite => syncApply fuel opts m (state decision) true l
   end) w.
Proof.
  intros Hs Ht Hf Hm. unfold syncMapping.
  rewrite (bind_eq_Ok _ _ _ _ _ (fileExists_present _ _ _ Hs)). simpl.
  rewrite (bind_eq_Ok _ _ _ _ _ (fileExists_present _ _ _ Ht)).
  rewrite Hf, Hm. reflexivity.
Qed.

Lemma syncMapping_no_conflict opts es l m w ns :
  fs w !! source m = Some ns ->
  fs w !! target m = None \/ force opts = true \/ isManaged (target m) es = true ->
  syncMapping fuel opts es l m w =
  syncApply fuel opts m (conflictState l)
    (force opts
     || (bool_decide (policy (conflictState l) = Some overwrite)
         || bool_decide (policy (conflictState l) = Some backup))
     || isManaged (target m) es) l w.
Proof.
  intros Hs Hno. unfold syncMapping.
  rewrite (bind_eq_Ok _ _ _ _ _ (fileExists_present _ _ _ Hs)). simpl.
  rewrite (bind_eq_Ok _ _ _ _ _ (fileExists_eq _ _)).
  assert (Hb : bool_decide (is_Some (fs w !! target m)) && negb (force opts)
               && negb (isManaged (target m) es) = false).
  { destruct Hno as [H|[H|H]]; rewrite H.
    - reflexivity.
    - simpl. rewrite andb_false_r. reflexivity.
    - simpl. rewrite andb_false_r. reflexivity. }
  rewrite Hb. reflexivity.
Qed.

End SyncLemmas.

(** * The file tree *)

Lemma set_fs_same w : set_fs (fs w) w = w.
Proof. destruct w. reflexivity. Qed.

Lemma dirname_prefix p : dirname p `prefix_of` p.
Proof.
  unfold dirname. destruct (decide (p = [])) as [->|Hne]; [reflexivity|].
  exists [List.last p ""]. apply app_removelast_last. exact Hne.
Qed.

Lemma dirname_length p : p <> [] -> length p = S (length (dirname p)).
Proof.
  intros Hne. unfold dirname.
  rewrite (app_removelast_last "" Hne) at 1. rewrite length_app. simpl. lia.
Qed.

Lemma dirname_snoc p x : dirname (p ++ [x]) = p.
Proof. apply removelast_last. Qed.

Lemma not_below_dirname p : p <> [] -> ¬ p `prefix_of` dirname p.
Proof.
  intros Hne Hpre. apply prefix_length in Hpre.
  rewrite (dirname_length p Hne) in Hpre. lia.
Qed.

Lemma prefix_of_snoc (k p : path) x :
  k `prefix_of` p ++ [x] -> k `prefix_of` p \/ k = p ++ [x].
Proof.
  intros [q Hq]. destruct (decide (q = [])) as [->|Hne].
  - right. rewrite app_nil_r in Hq. congruence.
  - left. rewrite (app_removelast_last "" Hne) in Hq. rewrite app_assoc in Hq.
    apply app_inj_tail in Hq as [-> _]. apply prefix_app_r. reflexivity.
Qed.

#[global] Instance grown_preorder p : PreOrder (grown p).
Proof.
  split.
  - intros w k. left. reflexivity.
  - intros w1 w2 w3 H12 H23 k.
    destruct (H12 k) as [E1|(N1 & D1 & P1)], (H23 k) as [E2|(N2 & D2 & P2)].
    + left. congruence.
    + right. repeat split; congruence.
    + right. repeat split; congruence.
    + congruence.
Qed.

#[global] Instance within_preorder t : PreOrder (within t).
Proof.
  split.
  - intros w k _. left. reflexivity.
  - intros w1 w2 w3 H12 H23 k Hk.
    destruct (H12 k Hk) as [E1|(N1 & D1 & P1)], (H23 k Hk) as [E2|(N2 & D2 & P2)].
    + left. congruence.
    + right. repeat split; congruence.
    + right. repeat split; congruence.
    + congruence.
Qed.

Lemma grown_within p t w w' : p `prefix_of` t -> grown p w w' -> within t w w'.
Proof.
  intros Hpt Hg k _. destruct (Hg k) as [E|(N & D & P)]; [left; exact E|].
  right. repeat split; try assumption. etransitivity; eassumption.
Qed.

Lemma within_below t e w w' : within (t ++ [e]) w w' -> within t w w'.
Proof.
  intros H k Hk.
  assert (Hk' : ¬ t ++ [e] `prefix_of` k).
  { intros Hpre. apply Hk. eapply prefix_app_l, Hpre. }
  destruct (H k Hk') as [E|(N & D & P)]; [left; exact E|].
  right. repeat split; try assumption.
  apply prefix_of_snoc in P as [P| ->]; [exact P|].
  exfalso. apply Hk'. reflexivity.
Qed.

Lemma same_fs_within t w w' : same_fs w w' -> within t w w'.
Proof. intros H k _. left. rewrite H. reflexivity. Qed.

Lemma same_fs_grown p w w' : same_fs w w' -> grown p w w'.
Proof. intros H k. left. rewrite H. reflexivity. Qed.

(** A key kept by [within]: one neither below [t] nor on the way to it. *)
Lemma within_apart t k w w' :
  within t w w' -> apart t k -> fs w' !! k = fs w !! k.
Proof.
  intros H [H1 H2]. destruct (H k H1) as [E|(_ & _ & P)]; [exact E|].
  exfalso. exact (H2 P).
Qed.

(** A node that exists outside the subtree of [t] stays as it is. *)
Lemma within_present t k n w w' :
  within t w w' -> ¬ t `prefix_of` k -> fs w !! k = Some n -> fs w' !! k = Some n.
Proof.
  intros H H1 Hn. destruct (H k H1) as [E|(N & _ & _)]; congruence.
Qed.

Lemma grown_present p k n w w' :
  grown p w w' -> fs w !! k = Some n -> fs w' !! k = Some n.
Proof. intros H Hn. destruct (H k) as [E|(N & _ & _)]; congruence. Qed.

Lemma grown_other p k w w' :
  grown p w w' -> ¬ k `prefix_of` p -> fs w' !! k = fs w !! k.
Proof. intros H Hk. destruct (H k) as [E|(_ & _ & P)]; [exact E|]. exfalso. exact (Hk P). Qed.

(** ** mkdir -p *)

Lemma mkdirs_grown rest : forall base m r m',
  mkdirs base rest m = (r, m') -> grown_map (base ++ rest) m m'.
Proof.
  induction rest as [|x rest IH]; intros base m r m' H k; simpl in H.
  - rewrite app_nil_r.
    destruct (m !! base) as [[c| |text]|] eqn:E; inversion H; subst; try (left; reflexivity).
    destruct (decide (k = base)) as [->|Hne].
    + right. rewrite lookup_insert_eq. repeat split; [exact E|reflexivity].
    + left. apply lookup_insert_ne. congruence.
  - assert (Hrec : forall m1, mkdirs (base ++ [x]) rest m1 = (r, m') ->
                              grown_map (base ++ x :: rest) m1 m').
    { intros m1 H1. replace (base ++ x :: rest) with ((base ++ [x]) ++ rest)
        by (rewrite <- app_assoc; reflexivity). eapply IH, H1. }
    destruct (m !! base) as [[c| |text]|] eqn:E.
    + inversion H; subst. left. reflexivity.
    + exact (Hrec _ H k).
    + inversion H; subst. left. reflexivity.
    + destruct (Hrec _ H k) as [E1|(N1 & D1 & P1)].
      * destruct (decide (k = base)) as [->|Hne].
        -- right. rewrite lookup_insert_eq in E1. repeat split; [exact E|exact E1|].
           apply prefix_app_r. reflexivity.
        -- left. rewrite E1. apply lookup_insert_ne. congruence.
      * destruct (decide (k = base)) as [->|Hne].
        -- rewrite lookup_insert_eq in N1. discriminate.
        -- rewrite lookup_insert_ne in N1 by congruence. right. repeat split; assumption.
Qed.

Lemma mkdirs_made rest : forall base m m',
  mkdirs base rest m = (None, m') ->
  forall k, base `prefix_of` k -> k `prefix_of` base ++ rest -> m' !! k = Some Dir.
Proof.
  induction rest as [|x rest IH]; intros base m m' H k Hb Hk; simpl in H.
  - rewrite app_nil_r in Hk. assert (k = base) as -> by (apply (anti_symm prefix); assumption).
    destruct (m !! base) as [[c| |text]|] eqn:E; inversion H; subst;
      [exact E|apply lookup_insert_eq].
  - assert (Hrec : forall m1, m1 !! base = Some Dir ->
                              mkdirs (base ++ [x]) rest m1 = (None, m') ->
                              m' !! k = Some Dir).
    { intros m1 Hd H1.
      destruct (decide (k = base)) as [->|Hne].
      - pose proof (mkdirs_grown _ _ _ _ _ H1 base) as [E1|(N1 & _ & _)]; congruence.
      - eapply IH; [exact H1| |rewrite <- app_assoc; exact Hk].
        destruct Hb as [q ->]. destruct q as [|y q]; [rewrite app_nil_r in Hne; congruence|].
        destruct Hk as [q' Hk]. rewrite <- !app_assoc in Hk. apply app_inv_head in Hk.
        simpl in Hk. inversion Hk; subst.
        apply prefix_app, prefix_cons, prefix_nil. }
    destruct (m !! base) as [[c| |text]|] eqn:E; try discriminate.
    + exact (Hrec _ E H).
    + refine (Hrec _ _ H). apply lookup_insert_eq.
Qed.

Lemma mkdirs_noop rest : forall base m,
  (forall k, base `prefix_of` k -> k `prefix_of` base ++ rest -> m !! k = Some Dir) ->
  mkdirs base rest m = (None, m).
Proof.
  induction rest as [|x rest IH]; intros base m H; simpl.
  - rewrite (H base); [reflexivity|reflexivity|rewrite app_nil_r; reflexivity].
  - rewrite (H base); [|reflexivity|apply prefix_app_r; reflexivity].
    apply IH. intros k Hb Hk. apply H.
    + etransitivity; [|exact Hb]. apply prefix_app_r. reflexivity.
    + rewrite <- app_assoc in Hk. exact Hk.
Qed.

Lemma fs_mkdir_p_grown p : keeps (grown p) (fs_mkdir_p p).
Proof.
  intros w r w' H. unfold fs_mkdir_p in H.
  destruct (mkdirs [] p (fs w)) as [[e|] m'] eqn:E; inversion H; subst;
    exact (mkdirs_grown _ _ _ _ _ E).
Qed.

Lemma fs_mkdir_p_made p w w' :
  fs_mkdir_p p w = (Ok tt, w') ->
  forall k, k `prefix_of` p -> fs w' !! k = Some Dir.
Proof.
  unfold fs_mkdir_p. destruct (mkdirs [] p (fs w)) as [[e|] m'] eqn:E;
    intros H; inversion H; subst.
  intros k Hk. simpl. eapply mkdirs_made; [exact E|apply prefix_nil|exact Hk].
Qed.

Lemma fs_mkdir_p_noop p w :
  (forall k, k `prefix_of` p -> fs w !! k = Some Dir) ->
  fs_mkdir_p p w = (Ok tt, w).
Proof.
  intros H. unfold fs_mkdir_p. rewrite mkdirs_noop; [rewrite set_fs_same; reflexivity|].
  intros k _ Hk. apply H. exact Hk.
Qed.

Lemma fs_mkdir_p_host p : keeps same_host (fs_mkdir_p p).
Proof.
  intros w r w' H. unfold fs_mkdir_p in H.
  destruct (mkdirs [] p (fs w)) as [[e|] m']; inversion H; subst; repeat split.
Qed.

(** * The primitive operations on the tree *)

Lemma within_below_only t w w' :
  (forall k, ¬ t `prefix_of` k -> fs w' !! k = fs w !! k) -> within t w w'.
Proof. intros H k Hk. left. apply H, Hk. Qed.

Lemma strip_prefix_Some p : forall k q, strip_prefix p k = Some q <-> k = p ++ q.
Proof.
  induction p as [|x p IH]; intros k q; simpl.
  - split; [intros H; inversion H; reflexivity|intros ->; reflexivity].
  - destruct k as [|y k]; [split; [discriminate|intros H; inversion H]|].
    destruct (decide (x = y)) as [->|Hne].
    + rewrite IH. split; [intros ->; reflexivity|intros H; inversion H; reflexivity].
    + split; [discriminate|intros H; inversion H; congruence].
Qed.

Lemma child_of_Some p k x : child_of p k = Some x <-> k = p ++ [x].
Proof.
  unfold child_of. destruct (strip_prefix p k) as [q|] eqn:E.
  - apply strip_prefix_Some in E as ->.
    destruct q as [|y [|z q]].
    + split; [discriminate|]. intros H. apply (f_equal length) in H.
      rewrite !length_app in H. simpl in H. lia.
    + split; [intros H; inversion H; reflexivity|].
      intros H. apply app_inv_head in H. inversion H. reflexivity.
    + split; [discriminate|]. intros H. apply app_inv_head in H. inversion H.
  - split; [discriminate|]. intros ->.
    assert (Hs : strip_prefix p (p ++ [x]) = Some [x]) by (apply strip_prefix_Some; reflexivity).
    congruence.
Qed.

Lemma elem_of_entries m p x : x ∈ entries m p <-> is_Some (m !! (p ++ [x])).
Proof.
  unfold entries. rewrite list_elem_of_omap. split.
  - intros ([k n] & Hin & Hc). simpl in Hc. apply child_of_Some in Hc as ->.
    apply elem_of_map_to_list in Hin. eauto.
  - intros [n Hn]. exists (p ++ [x], n). split.
    + apply elem_of_map_to_list. exact Hn.
    + simpl. apply child_of_Some. reflexivity.
Qed.

Lemma NoDup_entries m p : NoDup (entries m p).
Proof.
  unfold entries. pose proof (NoDup_fst_map_to_list m) as Hnd.
  induction (map_to_list m) as [|[k n] l IH]; simpl; [constructor|].
  simpl in Hnd. apply NoDup_cons in Hnd as [Hk Hnd].
  destruct (child_of p k) as [x|] eqn:E; [|apply IH, Hnd].
  constructor; [|apply IH, Hnd].
  intros Hin. apply list_elem_of_omap in Hin as ([k' n'] & Hin' & Hc').
  apply child_of_Some in E. apply child_of_Some in Hc'. simpl in Hc'.
  apply Hk. rewrite E, <- Hc'. apply list_elem_of_fmap. exists (k', n'). split; [reflexivity|exact Hin'].
Qed.

Lemma entries_same_below m m' p :
  (forall k, p `prefix_of` k -> m' !! k = m !! k) ->
  forall x, x ∈ entries m' p <-> x ∈ entries m p.
Proof.
  intros H x. rewrite !elem_of_entries. rewrite H; [reflexivity|].
  apply prefix_app_r. reflexivity.
Qed.

Lemma fs_readdir_eq p w :
  fs_readdir p w =
  match fs w !! p with
  | Some Dir => (Ok (entries (fs w) p), w)
  | Some _ => (Throw (ErrnoException "ENOTDIR"), w)
  | None => (Throw (ErrnoException "ENOENT"), w)
  end.
Proof.
  unfold fs_readdir, bind, get_fs. destruct (fs w !! p) as [[| |]|]; reflexivity.
Qed.

Lemma fs_unlink_eq p w :
  fs_unlink p w =
  match fs w !! p with
  | Some Dir => (Throw (ErrnoException "EISDIR"), w)
  | Some _ => (Ok tt, set_fs (delete p (fs w)) w)
  | None => (Throw (ErrnoException "ENOENT"), w)
  end.
Proof.
  unfold fs_unlink, bind, get_fs. destruct (fs w !! p) as [[| |]|]; reflexivity.
Qed.

Lemma fs_rmdir_eq p w :
  fs_rmdir p w =
  match fs w !! p with
  | Some Dir =>
      if decide (p = []) then (Throw (ErrnoException "EBUSY"), w)
      else match entries (fs w) p with
           | [] => (Ok tt, set_fs (delete p (fs w)) w)
           | _ :: _ => (Throw (ErrnoException "ENOTEMPTY"), w)
           end
  | Some _ => (Throw (ErrnoException "ENOTDIR"), w)
  | None => (Throw (ErrnoException "ENOENT"), w)
  end.
Proof.
  unfold fs_rmdir, bind, get_fs. destruct (fs w !! p) as [[| |]|]; try reflexivity.
  destruct (decide (p = [])); [reflexivity|]. destruct (entries _ _); reflexivity.
Qed.

Lemma fs_rm_rf_eq p w :
  fs_rm_rf p w =
  if decide (p = []) then (Throw (ErrnoException "EBUSY"), w)
  else (Ok tt, set_fs (filter (fun kv => ¬ p `prefix_of` kv.1) (fs w)) w).
Proof. unfold fs_rm_rf. destruct (decide (p = [])); reflexivity. Qed.

Lemma rm_rf_lookup (p : path) (m : gmap path node) k :
  filter (fun kv => ¬ p `prefix_of` kv.1) m !! k
  = if decide (p `prefix_of` k) then None else m !! k.
Proof.
  destruct (decide (p `prefix_of` k)) as [Hp|Hp].
  - apply map_lookup_filter_None. right. intros n _ Hn. exact (Hn Hp).
  - destruct (m !! k) as [n|] eqn:E.
    + apply map_lookup_filter_Some. split; [exact E|exact Hp].
    + apply map_lookup_filter_None. left. exact E.
Qed.

Lemma fs_symlink_Ok text p w w' :
  fs_symlink text p w = (Ok tt, w') ->
  fs w' = <[p := Symlink text]> (fs w) /\ fs w !! p = None.
Proof.
  unfold fs_symlink. destruct (negb (symlinkAllowed w p)); [discriminate|].
  destruct (decide (p = [])) as [Hnil|Hnil]; [discriminate|].
  destruct (fs w !! p) as [n|]; [discriminate|].
  destruct (fs w !! dirname p) as [[| |]|]; intros H; inversion H.
  split; reflexivity.
Qed.

Lemma fs_symlink_succeeds text p w :
  symlinkAllowed w p = true -> p <> [] ->
  fs w !! p = None -> fs w !! dirname p = Some Dir ->
  fs_symlink text p w = (Ok tt, set_fs (<[p := Symlink text]> (fs w)) w).
Proof.
  intros Ha Hne Hp Hd. unfold fs_symlink. rewrite Ha, Hp, Hd. simpl.
  destruct (decide (p = [])); [contradiction|reflexivity].
Qed.

(** Each primitive changes the tree at its path or below it only, and
    nothing else of the world. *)
Lemma fs_unlink_within p : keeps (within p) (fs_unlink p).
Proof.
  intros w r w' H. rewrite fs_unlink_eq in H. apply within_below_only. intros k Hk.
  destruct (fs w !! p) as [[| |]|]; inversion H; subst; try reflexivity;
    simpl; apply lookup_delete_ne; intros ->; apply Hk; reflexivity.
Qed.

Lemma fs_rmdir_within p : keeps (within p) (fs_rmdir p).
Proof.
  intros w r w' H. rewrite fs_rmdir_eq in H. apply within_below_only. intros k Hk.
  destruct (fs w !! p) as [[| |]|]; try (inversion H; subst; reflexivity).
  destruct (decide (p = [])) as [Hnil|Hnil]; [inversion H; subst; reflexivity|].
  destruct (entries _ _); inversion H; subst; try reflexivity.
  simpl. apply lookup_delete_ne. intros ->. apply Hk. reflexivity.
Qed.

Lemma fs_rm_rf_within p : keeps (within p) (fs_rm_rf p).
Proof.
  intros w r w' H. rewrite fs_rm_rf_eq in H. apply within_below_only. intros k Hk.
  destruct (decide (p = [])); inversion H; subst; [reflexivity|].
  simpl. rewrite rm_rf_lookup. destruct (decide _); [contradiction|reflexivity].
Qed.

Lemma fs_symlink_within text p : keeps (within p) (fs_symlink text p).
Proof.
  intros w r w' H. apply within_below_only. intros k Hk. unfold fs_symlink in H.
  destruct (negb (symlinkAllowed w p)); [inversion H; reflexivity|].
  destruct (decide (p = [])) as [Hnil|Hnil]; [inversion H; reflexivity|].
  destruct (fs w !! p) as [n|]; [inversion H; reflexivity|].
  destruct (fs w !! dirname p) as [[| |]|]; inversion H; subst; try reflexivity.
  simpl. apply lookup_insert_ne. intros ->. apply Hk. reflexivity.
Qed.

Lemma fs_writeFile_within p c : keeps (within p) (fs_writeFile p c).
Proof.
  intros w r w' H. apply within_below_only. intros k Hk. unfold fs_writeFile in H.
  destruct (fs w !! p) as [[| |]|]; destruct (fs w !! dirname p) as [[| |]|];
    inversion H; subst; try reflexivity;
    simpl; apply lookup_insert_ne; intros ->; apply Hk; reflexivity.
Qed.

Lemma fs_readFile_same_world p : keeps same_world (fs_readFile p).
Proof.
  intros w r w' H. unfold fs_readFile in H.
  destruct (read_through 40 (fs w) p); inversion H; reflexivity.
Qed.

Lemma fs_lstat_same_world p : keeps same_world (fs_lstat p).
Proof.
  intros w r w' H. rewrite fs_lstat_eq in H.
  destruct (fs w !! p); inversion H; reflexivity.
Qed.

Lemma fs_readdir_same_world p : keeps same_world (fs_readdir p).
Proof.
  intros w r w' H. rewrite fs_readdir_eq in H.
  destruct (fs w !! p) as [[| |]|]; inversion H; reflexivity.
Qed.

Lemma same_world_within t w w' : same_world w w' -> within t w w'.
Proof. intros ->. reflexivity. Qed.

Lemma same_world_host w w' : same_world w w' -> same_host w w'.
Proof. intros ->. reflexivity. Qed.

Lemma fs_copyFile_within src dst : keeps (within dst) (fs_copyFile src dst).
Proof.
  unfold fs_copyFile. apply keeps_bind; [apply _| |intros c; apply fs_writeFile_within].
  eapply keeps_weaken; [apply same_world_within|apply fs_readFile_same_world].
Qed.

(** Operations on the tree leave the rest of the world alone. *)
Lemma set_fs_host m w : same_host w (set_fs m w).
Proof. repeat split. Qed.

Lemma fs_unlink_host p : keeps same_host (fs_unlink p).
Proof.
  intros w r w' H. rewrite fs_unlink_eq in H.
  destruct (fs w !! p) as [[| |]|]; inversion H; subst; repeat split.
Qed.

Lemma fs_rmdir_host p : keeps same_host (fs_rmdir p).
Proof.
  intros w r w' H. rewrite fs_rmdir_eq in H.
  destruct (fs w !! p) as [[| |]|]; try (inversion H; subst; repeat split; fail).
  destruct (decide (p = [])); [inversion H; subst; repeat split|].
  destruct (entries _ _); inversion H; subst; repeat split.
Qed.

Lemma fs_rm_rf_host p : keeps same_host (fs_rm_rf p).
Proof.
  intros w r w' H. rewrite fs_rm_rf_eq in H.
  destruct (decide (p = [])); inversion H; subst; repeat split.
Qed.

Lemma fs_writeFile_Ok p c w w' :
  fs_writeFile p c w = (Ok tt, w') -> fs w' = <[p := File c]> (fs w).
Proof.
  unfold fs_writeFile.
  destruct (fs w !! p) as [[| |]|]; destruct (fs w !! dirname p) as [[| |]|];
    intros H; inversion H; reflexivity.
Qed.


(** * The apply engine *)

Lemma ensureDir_within t p : p `prefix_of` t -> keeps (within t) (ensureDir p).
Proof.
  intros Hp. eapply keeps_weaken; [|apply fs_mkdir_p_grown].
  intros w1 w2. apply grown_within, Hp.
Qed.

Lemma fileExists_same_world p : keeps same_world (fileExists p).
Proof. intros w r w' H. rewrite fileExists_eq in H. inversion H. reflexivity. Qed.

Lemma getTargetInfo_same_world p : keeps same_world (getTargetInfo p).
Proof. intros w r w' H. rewrite getTargetInfo_eq in H. inversion H. reflexivity. Qed.

Lemma copyFileOrDir_within fuel : forall src dst,
  keeps (within dst) (copyFileOrDir fuel src dst).
Proof.
  induction fuel as [|fuel IH]; intros src dst; simpl.
  - apply keeps_timeout, _.
  - apply keeps_bind; [apply _| |intros stat].
    { eapply keeps_weaken; [apply same_world_within|apply fs_lstat_same_world]. }
    destruct (isDirectory stat).
    + apply keeps_bind; [apply _|apply ensureDir_within; reflexivity|intros _].
      apply keeps_bind; [apply _| |intros es].
      { eapply keeps_weaken; [apply same_world_within|apply fs_readdir_same_world]. }
      unfold forM_. apply keeps_foldM; [apply _|]. intros _ e.
      eapply keeps_weaken; [apply within_below|apply IH].
    + apply keeps_bind; [apply _|apply ensureDir_within, dirname_prefix|intros _].
      apply fs_copyFile_within.
Qed.

Lemma fs_writeFile_host p c : keeps same_host (fs_writeFile p c).
Proof.
  intros w r w' H. unfold fs_writeFile in H.
  destruct (fs w !! p) as [[| |]|]; destruct (fs w !! dirname p) as [[| |]|];
    inversion H; subst; repeat split.
Qed.

Lemma fs_copyFile_host src dst : keeps same_host (fs_copyFile src dst).
Proof.
  unfold fs_copyFile. apply keeps_bind; [apply _| |intros c; apply fs_writeFile_host].
  eapply keeps_weaken; [apply same_world_host|apply fs_readFile_same_world].
Qed.

Lemma copyFileOrDir_host fuel : forall src dst,
  keeps same_host (copyFileOrDir fuel src dst).
Proof.
  induction fuel as [|fuel IH]; intros src dst; simpl.
  - apply keeps_timeout, _.
  - apply keeps_bind; [apply _| |intros stat].
    { eapply keeps_weaken; [apply same_world_host|apply fs_lstat_same_world]. }
    destruct (isDirectory stat).
    + apply keeps_bind; [apply _|apply fs_mkdir_p_host|intros _].
      apply keeps_bind; [apply _| |intros es].
      { eapply keeps_weaken; [apply same_world_host|apply fs_readdir_same_world]. }
      unfold forM_. apply keeps_foldM; [apply _|]. intros _ e. apply IH.
    + apply keeps_bind; [apply _|apply fs_mkdir_p_host|intros _].
      apply fs_copyFile_host.
Qed.

(** ** [ensureTargetParent] *)

Lemma ensureTargetParent_grown p t ws : keeps (grown p) (ensureTargetParent p t ws).
Proof.
  unfold ensureTargetParent.
  apply keeps_bind; [apply _| |intros b].
  { eapply keeps_weaken; [|apply fileExists_same_world]. intros w w' ->. reflexivity. }
  destruct (negb b).
  - apply keeps_bind; [apply _|apply fs_mkdir_p_grown|intros _]. apply keeps_ret, _.
  - apply keeps_bind; [apply _|apply fs_mkdir_p_grown|intros _]. apply keeps_ret, _.
Qed.

Lemma ensureTargetParent_host p t ws : keeps same_host (ensureTargetParent p t ws).
Proof.
  unfold ensureTargetParent.
  apply keeps_bind; [apply _| |intros b].
  { eapply keeps_weaken; [apply same_world_host|apply fileExists_same_world]. }
  destruct (negb b).
  - apply keeps_bind; [apply _|apply fs_mkdir_p_host|intros _]. apply keeps_ret, _.
  - apply keeps_bind; [apply _|apply fs_mkdir_p_host|intros _]. apply keeps_ret, _.
Qed.

Lemma ensureTargetParent_made p t ws r w w' :
  ensureTargetParent p t ws w = (Ok r, w') ->
  forall k, k `prefix_of` p -> fs w' !! k = Some Dir.
Proof.
  unfold ensureTargetParent. intros H.
  apply bind_Ok in H as (b & w1 & Hb & H).
  rewrite fileExists_eq in Hb. inversion Hb; subst w1; clear Hb.
  destruct (negb b); apply bind_Ok in H as ([] & w2 & Hm & H);
    inversion H; subst; eapply fs_mkdir_p_made, Hm.
Qed.

Lemma ensureTargetParent_noop p t ws w :
  (forall k, k `prefix_of` p -> fs w !! k = Some Dir) ->
  ensureTargetParent p t ws w = (Ok ws, w).
Proof.
  intros H. unfold ensureTargetParent.
  rewrite (bind_eq_Ok _ _ _ _ _ (fileExists_present p w Dir (H p (reflexivity _)))).
  simpl. rewrite (bind_eq_Ok _ _ _ _ _ (fs_mkdir_p_noop p w H)). reflexivity.
Qed.

Lemma ensureTargetParent_no_timeout p t ws w w' :
  ensureTargetParent p t ws w <> (Timeout, w').
Proof.
  unfold ensureTargetParent. rewrite (bind_eq_Ok _ _ _ _ _ (fileExists_eq _ _)).
  destruct (negb _); unfold bind, ensureDir, fs_mkdir_p;
    destruct (mkdirs [] p (fs w)) as [[e|] m']; simpl; discriminate.
Qed.

(** ** [removeDirectory] *)

Lemma removeDirectory_within t allow : keeps (within t) (removeDirectory t allow).
Proof.
  unfold removeDirectory, removeEmptyDirectory. destruct (negb allow).
  - apply keeps_bind; [apply _| |intros es].
    { eapply keeps_weaken; [apply same_world_within|apply fs_readdir_same_world]. }
    destruct (Nat.ltb 0 (length es)); [apply keeps_ret, _|].
    apply keeps_bind; [apply _|apply fs_rmdir_within|intros _]. apply keeps_ret, _.
  - apply keeps_bind; [apply _|apply fs_rm_rf_within|intros _]. apply keeps_ret, _.
Qed.

Lemma removeDirectory_host t allow : keeps same_host (removeDirectory t allow).
Proof.
  unfold removeDirectory, removeEmptyDirectory. destruct (negb allow).
  - apply keeps_bind; [apply _| |intros es].
    { eapply keeps_weaken; [apply same_world_host|apply fs_readdir_same_world]. }
    destruct (Nat.ltb 0 (length es)); [apply keeps_ret, _|].
    apply keeps_bind; [apply _|apply fs_rmdir_host|intros _]. apply keeps_ret, _.
  - apply keeps_bind; [apply _|apply fs_rm_rf_host|intros _]. apply keeps_ret, _.
Qed.

(** What [removeDirectory] does to a directory, case by case. *)
Lemma removeDirectory_dir t allow w :
  fs w !! t = Some Dir ->
  removeDirectory t allow w =
  if decide (t = []) then
    if negb allow && bool_decide (entries (fs w) t <> [])
    then (Ok false, w) else (Throw (ErrnoException "EBUSY"), w)
  else if allow then
    (Ok true, set_fs (filter (fun kv => ¬ t `prefix_of` kv.1) (fs w)) w)
  else match entries (fs w) t with
       | [] => (Ok true, set_fs (delete t (fs w)) w)
       | _ :: _ => (Ok false, w)
       end.
Proof.
  intros Hd. unfold removeDirectory, removeEmptyDirectory.
  destruct allow; simpl.
  - unfold bind. rewrite fs_rm_rf_eq. destruct (decide (t = [])); reflexivity.
  - unfold bind. rewrite fs_readdir_eq, Hd.
    destruct (entries (fs w) t) as [|e es] eqn:E; simpl.
    + rewrite fs_rmdir_eq, Hd, E. destruct (decide (t = [])); reflexivity.
    + destruct (decide (t = [])); reflexivity.
Qed.

Lemma removeDirectory_removed t allow w w' :
  fs w !! t = Some Dir ->
  removeDirectory t allow w = (Ok true, w') ->
  t <> [] /\ fs w' !! t = None /\ fs w' !! dirname t = fs w !! dirname t.
Proof.
  intros Hd H. rewrite (removeDirectory_dir _ _ _ Hd) in H.
  destruct (decide (t = [])) as [->|Hne].
  { destruct (negb allow && _); discriminate. }
  split; [exact Hne|].
  destruct allow.
  - inversion H; subst; simpl. rewrite !rm_rf_lookup.
    rewrite decide_True by reflexivity.
    rewrite decide_False by (apply not_below_dirname, Hne). split; reflexivity.
  - destruct (entries (fs w) t); inversion H; subst; simpl.
    rewrite lookup_delete_eq. split; [reflexivity|].
    apply lookup_delete_ne. intros Heq.
    apply (not_below_dirname t Hne). rewrite <- Heq. reflexivity.
Qed.

Lemma removeDirectory_refused t w :
  fs w !! t = Some Dir -> entries (fs w) t <> [] ->
  removeDirectory t false w = (Ok false, w).
Proof.
  intros Hd He. rewrite (removeDirectory_dir _ _ _ Hd).
  destruct (decide (t = [])).
  - simpl. rewrite bool_decide_eq_true_2 by exact He. reflexivity.
  - destruct (entries (fs w) t); [contradiction|reflexivity].
Qed.

Lemma removeDirectory_throws t allow w e w' :
  fs w !! t = Some Dir ->
  removeDirectory t allow w = (Throw e, w') ->
  t = [] /\ w' = w.
Proof.
  intros Hd H. rewrite (removeDirectory_dir _ _ _ Hd) in H.
  destruct (decide (t = [])) as [->|Hne].
  - destruct (negb allow && _); inversion H. split; reflexivity.
  - destruct allow; [discriminate|]. destruct (entries (fs w) t); discriminate.
Qed.

Section ApplyLemmas.

Variable fuel : nat.

Lemma applyCopyMapping_within m o :
  keeps (within (target m)) (applyCopyMapping fuel m o).
Proof.
  unfold applyCopyMapping.
  apply keeps_bind; [apply _| |intros stat].
  { eapply keeps_weaken; [apply same_world_within|apply fs_lstat_same_world]. }
  apply keeps_bind; [apply _| |intros existing].
  { eapply keeps_weaken; [apply same_world_within|apply getTargetInfo_same_world]. }
  assert (Hrm : keeps (within (target m))
                  (let! removed := removeDirectory (target m) (default false o) in
                   if negb removed then throw (refuse (target m)) else ret tt)).
  { apply keeps_bind; [apply _|apply removeDirectory_within|intros removed].
    destruct (negb removed); [apply keeps_throw, _|apply keeps_ret, _]. }
  assert (Htail : keeps (within (target m))
                    (ensureTargetParent (dirname (target m)) (target m) None ;;;
                     copyFileOrDir fuel (source m) (target m))).
  { apply keeps_bind; [apply _| |intros _; apply copyFileOrDir_within].
    eapply keeps_weaken; [|apply ensureTargetParent_grown].
    intros w1 w2. apply grown_within, dirname_prefix. }
  destruct (isDirectory stat).
  - apply keeps_bind; [apply _| |intros _].
    { destruct existing as [info|]; [|apply keeps_ret, _].
      destruct (negb (info_isDirectory info)); [apply fs_unlink_within|apply keeps_ret, _]. }
    apply keeps_bind; [apply _| |intros _; exact Htail].
    destruct existing as [info|]; [|apply keeps_ret, _].
    destruct (info_isDirectory info); [exact Hrm|apply keeps_ret, _].
  - apply keeps_bind; [apply _| |intros _; exact Htail].
    destruct existing as [info|]; [|apply keeps_ret, _].
    destruct (info_isDirectory info); [exact Hrm|apply fs_unlink_within].
Qed.

Lemma applyCopyMapping_source_missing m o w :
  fs w !! source m = None ->
  applyCopyMapping fuel m o w = (Throw (ErrnoException "ENOENT"), w).
Proof.
  intros H. unfold applyCopyMapping. apply bind_eq_Throw.
  rewrite fs_lstat_eq, H. reflexivity.
Qed.

Lemma applyCopyMapping_root m o w a w' :
  target m = [] -> fs w !! [] = Some Dir ->
  applyCopyMapping fuel m o w <> (Ok a, w').
Proof.
  intros Ht Hd H. unfold applyCopyMapping in H.
  apply bind_Ok in H as (stat & w1 & Hl & H).
  apply fs_lstat_same_world in Hl as ->.
  rewrite (bind_eq_Ok _ _ _ _ _ (getTargetInfo_eq _ _)) in H.
  rewrite Ht, Hd in H. simpl in H.
  assert (Hrm : forall (k : M unit) b w2,
             (let! removed := removeDirectory [] (default false o) in
              if negb removed then throw (refuse []) else ret tt) w <> (Ok b, w2)).
  { intros k b w2 Hk. apply bind_Ok in Hk as (removed & w3 & Hr & Hk).
    rewrite (removeDirectory_dir _ _ _ Hd) in Hr. simpl in Hr.
    destruct (negb (default false o) && _); inversion Hr; subst. discriminate. }
  destruct (isDirectory stat).
  - apply bind_Ok in H as (u1 & w2 & H1 & H). inversion H1; subst.
    apply bind_Ok in H as (u2 & w3 & H2 & H). exact (Hrm (ret tt) _ _ H2).
  - apply bind_Ok in H as (u2 & w3 & H2 & H). exact (Hrm (ret tt) _ _ H2).
Qed.


Lemma fs_unlink_Ok p w u w' :
  fs_unlink p w = (Ok u, w') -> w' = set_fs (delete p (fs w)) w.
Proof.
  rewrite fs_unlink_eq. destruct (fs w !! p) as [[| |]|]; intros H; inversion H; reflexivity.
Qed.

(** Copy mode has no check for a target that is already right: it clears
    the target and copies the source again. *)
Lemma applyCopyMapping_recopies m o w w' :
  target m <> [] ->
  applyCopyMapping fuel m o w = (Ok tt, w') ->
  exists w1, fs w1 !! target m = None
             /\ copyFileOrDir fuel (source m) (target m) w1 = (Ok tt, w').
Proof.
  intros Hne H. unfold applyCopyMapping in H.
  apply bind_Ok in H as (stat & w0 & Hl & H).
  apply fs_lstat_same_world in Hl as ->.
  rewrite (bind_eq_Ok _ _ _ _ _ (getTargetInfo_eq _ _)) in H.
  assert (Htail : forall w2,
             fs w2 !! target m = None ->
             (ensureTargetParent (dirname (target m)) (target m) None ;;;
              copyFileOrDir fuel (source m) (target m)) w2 = (Ok tt, w') ->
             exists w1, fs w1 !! target m = None
                        /\ copyFileOrDir fuel (source m) (target m) w1 = (Ok tt, w')).
  { intros w2 Habs Ht. apply bind_Ok in Ht as (r & w3 & He & Hc).
    exists w3. split; [|exact Hc].
    apply ensureTargetParent_grown in He.
    rewrite (grown_other _ _ _ _ He); [exact Habs|]. apply not_below_dirname, Hne. }
  assert (Hrm : forall w2 u w3,
             fs w2 !! target m = Some Dir ->
             (let! removed := removeDirectory (target m) (default false o) in
              if negb removed then throw (refuse (target m)) else ret tt) w2 = (Ok u, w3) ->
             fs w3 !! target m = None).
  { intros w2 u w3 Hd Hk. apply bind_Ok in Hk as (removed & w4 & Hr & Hk).
    destruct removed; simpl in Hk; [|discriminate]. inversion Hk; subst.
    apply (removeDirectory_removed _ _ _ _ Hd Hr). }
  destruct (fs w !! target m) as [[c| |text]|] eqn:Et; simpl in H;
    destruct (isDirectory stat); simpl in H.
  - apply bind_Ok in H as (u1 & w2 & H1 & H). apply fs_unlink_Ok in H1 as ->.
    apply bind_Ok in H as (u2 & w3 & H2 & H). inversion H2; subst.
    eapply Htail; [|exact H]. simpl. apply lookup_delete_eq.
  - apply bind_Ok in H as (u1 & w2 & H1 & H). apply fs_unlink_Ok in H1 as ->.
    eapply Htail; [|exact H]. simpl. apply lookup_delete_eq.
  - apply bind_Ok in H as (u1 & w2 & H1 & H). inversion H1; subst.
    apply bind_Ok in H as (u2 & w3 & H2 & H).
    eapply Htail; [|exact H]. eapply Hrm; [exact Et|exact H2].
  - apply bind_Ok in H as (u2 & w3 & H2 & H).
    eapply Htail; [|exact H]. eapply Hrm; [exact Et|exact H2].
  - apply bind_Ok in H as (u1 & w2 & H1 & H). apply fs_unlink_Ok in H1 as ->.
    apply bind_Ok in H as (u2 & w3 & H2 & H). inversion H2; subst.
    eapply Htail; [|exact H]. simpl. apply lookup_delete_eq.
  - apply bind_Ok in H as (u1 & w2 & H1 & H). apply fs_unlink_Ok in H1 as ->.
    eapply Htail; [|exact H]. simpl. apply lookup_delete_eq.
  - apply bind_Ok in H as (u1 & w2 & H1 & H). inversion H1; subst.
    apply bind_Ok in H as (u2 & w3 & H2 & H). inversion H2; subst.
    eapply Htail; [exact Et|exact H].
  - apply bind_Ok in H as (u1 & w2 & H1 & H). inversion H1; subst.
    eapply Htail; [exact Et|exact H].
Qed.

(** Without permission a non-empty directory stops the copy before
    anything is touched. *)
Lemma applyCopyMapping_refuses m w ns :
  fs w !! source m = Some ns ->
  fs w !! target m = Some Dir -> entries (fs w) (target m) <> [] ->
  applyCopyMapping fuel m (Some false) w = (Throw (refuse (target m)), w).
Proof.
  intros Hs Hd He. unfold applyCopyMapping.
  assert (Hl : fs_lstat (source m) w = (Ok ns, w)) by (rewrite fs_lstat_eq, Hs; reflexivity).
  rewrite (bind_eq_Ok _ _ _ _ _ Hl).
  rewrite (bind_eq_Ok _ _ _ _ _ (getTargetInfo_eq _ _)). rewrite Hd. simpl.
  assert (Hrm : (let! removed := removeDirectory (target m) false in
                 if negb removed then throw (refuse (target m)) else ret tt) w
                = (Throw (refuse (target m)), w)).
  { rewrite (bind_eq_Ok _ _ _ _ _ (removeDirectory_refused _ _ Hd He)). reflexivity. }
  destruct (isDirectory ns).
  - unfold bind at 1. simpl. apply bind_eq_Throw. exact Hrm.
  - apply bind_eq_Throw. exact Hrm.
Qed.


Lemma applyCopyMapping_host m o : keeps same_host (applyCopyMapping fuel m o).
Proof.
  unfold applyCopyMapping.
  apply keeps_bind; [apply _| |intros stat].
  { eapply keeps_weaken; [apply same_world_host|apply fs_lstat_same_world]. }
  apply keeps_bind; [apply _| |intros existing].
  { eapply keeps_weaken; [apply same_world_host|apply getTargetInfo_same_world]. }
  assert (Hrm : keeps same_host
                  (let! removed := removeDirectory (target m) (default false o) in
                   if negb removed then throw (refuse (target m)) else ret tt)).
  { apply keeps_bind; [apply _|apply removeDirectory_host|intros removed].
    destruct (negb removed); [apply keeps_throw, _|apply keeps_ret, _]. }
  assert (Htail : keeps same_host
                    (ensureTargetParent (dirname (target m)) (target m) None ;;;
                     copyFileOrDir fuel (source m) (target m))).
  { apply keeps_bind; [apply _|apply ensureTargetParent_host|intros _].
    apply copyFileOrDir_host. }
  destruct (isDirectory stat).
  - apply keeps_bind; [apply _| |intros _].
    { destruct existing as [info|]; [|apply keeps_ret, _].
      destruct (negb (info_isDirectory info)); [apply fs_unlink_host|apply keeps_ret, _]. }
    apply keeps_bind; [apply _| |intros _; exact Htail].
    destruct existing as [info|]; [|apply keeps_ret, _].
    destruct (info_isDirectory info); [exact Hrm|apply keeps_ret, _].
  - apply keeps_bind; [apply _| |intros _; exact Htail].
    destruct existing as [info|]; [|apply keeps_ret, _].
    destruct (info_isDirectory info); [exact Hrm|apply fs_unlink_host].
Qed.

Lemma applyMapping_within m ws o :
  keeps (within (target m)) (applyMapping fuel m ws o).
Proof.
  unfold applyMapping. destruct (decide (mode m = copy)).
  - apply keeps_bind; [apply _|apply applyCopyMapping_within|intros _]. apply keeps_ret, _.
  - apply keeps_bind; [apply _| |intros pushed].
    { eapply keeps_weaken; [|apply ensureTargetParent_grown].
      intros w1 w2. apply grown_within, dirname_prefix. }
    apply keeps_try_catch; [apply _| |].
    + apply keeps_bind; [apply _| |intros stat].
      { eapply keeps_weaken; [apply same_world_within|apply fs_lstat_same_world]. }
      apply keeps_bind; [apply _| |intros existing].
      { eapply keeps_weaken; [apply same_world_within|apply getTargetInfo_same_world]. }
      assert (Hc : keeps (within (target m))
                     (fs_symlink (render (source m)) (target m) ;;;
                      ret (default ws pushed))).
      { apply keeps_bind; [apply _|apply fs_symlink_within|intros _]. apply keeps_ret, _. }
      destruct existing as [info|]; [|exact Hc].
      destruct (info_isSymlink info).
      * destruct (decide _); [apply keeps_ret, _|].
        apply keeps_bind; [apply _|apply fs_unlink_within|intros _; exact Hc].
      * destruct (info_isDirectory info).
        -- apply keeps_bind; [apply _|apply removeDirectory_within|intros removed].
           destruct (negb removed); [apply keeps_throw, _|exact Hc].
        -- apply keeps_bind; [apply _|apply fs_unlink_within|intros _; exact Hc].
    + intros e. destruct (instanceof_AgentConfigError e); [apply keeps_throw, _|].
      apply keeps_bind; [apply _|apply applyCopyMapping_within|intros _]. apply keeps_ret, _.
Qed.

(** The fast path: a target that already points at the source is left as
    it is. *)
Lemma applyMapping_link_fast m ws o w ns :
  mode m <> copy ->
  fs w !! source m = Some ns ->
  fs w !! target m = Some (Symlink (render (source m))) ->
  (forall k, k `prefix_of` dirname (target m) -> fs w !! k = Some Dir) ->
  applyMapping fuel m ws o w = (Ok ws, w).
Proof.
  intros Hm Hs Ht Hp. unfold applyMapping.
  destruct (decide (mode m = copy)) as [?|_]; [contradiction|].
  rewrite (bind_eq_Ok _ _ _ _ _ (ensureTargetParent_noop _ _ _ _ Hp)). simpl.
  unfold try_catch.
  assert (Hl : fs_lstat (source m) w = (Ok ns, w)) by (rewrite fs_lstat_eq, Hs; reflexivity).
  rewrite (bind_eq_Ok _ _ _ _ _ Hl).
  rewrite (bind_eq_Ok _ _ _ _ _ (getTargetInfo_eq _ _)). rewrite Ht. simpl.
  destruct (decide _); [reflexivity|congruence].
Qed.

Lemma link_create text p (ws : list string) w :
  symlinkAllowed w p = true -> p <> [] ->
  fs w !! p = None -> fs w !! dirname p = Some Dir ->
  (fs_symlink text p ;;; ret ws) w = (Ok ws, set_fs (<[p := Symlink text]> (fs w)) w).
Proof.
  intros. rewrite (bind_eq_Ok _ _ _ _ _ (fs_symlink_succeeds text p w H H0 H1 H2)).
  reflexivity.
Qed.

Lemma link_created text p (ws ws' : list string) w w' :
  (fs_symlink text p ;;; ret ws) w = (Ok ws', w') ->
  fs w' !! p = Some (Symlink text).
Proof.
  intros H. apply bind_Ok in H as ([] & w1 & Hs & H). inversion H; subst.
  apply fs_symlink_Ok in Hs as [-> _]. apply lookup_insert_eq.
Qed.

(** In link mode, where symbolic links can be created, a successful apply
    leaves a link to the source at the target. *)
Lemma applyMapping_link_result m ws o w ws' w' :
  mode m <> copy ->
  symlinkAllowed w (target m) = true ->
  applyMapping fuel m ws o w = (Ok ws', w') ->
  fs w' !! target m = Some (Symlink (render (source m))).
Proof.
  intros Hm Hallow H. unfold applyMapping in H.
  destruct (decide (mode m = copy)) as [?|_]; [contradiction|].
  apply bind_Ok in H as (pushed & w1 & Hetp & H).
  assert (Hpar : fs w1 !! dirname (target m) = Some Dir).
  { eapply ensureTargetParent_made; [exact Hetp|reflexivity]. }
  assert (Hallow1 : symlinkAllowed w1 (target m) = true).
  { apply ensureTargetParent_host in Hetp as (-> & _). exact Hallow. }
  clear Hetp Hallow w. simpl in H. set (ws1 := default ws pushed) in *.
  unfold try_catch in H.
  destruct (fs w1 !! source m) as [ns|] eqn:Hs.
  2:{ assert (Hl : fs_lstat (source m) w1 = (Throw (ErrnoException "ENOENT"), w1))
        by (rewrite fs_lstat_eq, Hs; reflexivity).
      rewrite (bind_eq_Throw _ _ _ _ _ Hl) in H. simpl in H.
      rewrite (bind_eq_Throw _ _ _ _ _ (applyCopyMapping_source_missing _ _ _ Hs)) in H.
      discriminate. }
  assert (Hl : fs_lstat (source m) w1 = (Ok ns, w1))
    by (rewrite fs_lstat_eq, Hs; reflexivity).
  rewrite (bind_eq_Ok _ _ _ _ _ Hl) in H.
  rewrite (bind_eq_Ok _ _ _ _ _ (getTargetInfo_eq _ _)) in H.
  assert (Hdel : forall n, fs w1 !! target m = Some n -> n <> Dir ->
            (fs_unlink (target m) ;;;
             fs_symlink (render (source m)) (target m) ;;; ret ws1) w1
            = (Ok ws1, set_fs (<[target m := Symlink (render (source m))]>
                                 (delete (target m) (fs w1))) w1)).
  { intros n Hn Hnd.
    assert (Hne : target m <> []).
    { intros Heq. rewrite Heq in *. simpl in Hpar. congruence. }
    assert (Hu : fs_unlink (target m) w1 = (Ok tt, set_fs (delete (target m) (fs w1)) w1)).
    { rewrite fs_unlink_eq, Hn. destruct n; [reflexivity|congruence|reflexivity]. }
    rewrite (bind_eq_Ok _ _ _ _ _ Hu).
    rewrite link_create; [reflexivity|exact Hallow1|exact Hne|apply lookup_delete_eq|].
    simpl. rewrite lookup_delete_ne; [exact Hpar|].
    intros Heq. apply (not_below_dirname _ Hne). rewrite <- Heq. reflexivity. }
  destruct (fs w1 !! target m) as [[c| |text]|] eqn:Et; simpl in H.
  - rewrite (Hdel _ eq_refl) in H by discriminate. inversion H; subst.
    simpl. apply lookup_insert_eq.
  - destruct (removeDirectory (target m) (default false o) w1) as [[removed|e|] w2] eqn:Hr.
    + rewrite (bind_eq_Ok _ _ _ _ _ Hr) in H. destruct removed; simpl in H.
      * destruct (removeDirectory_removed _ _ _ _ Et Hr) as (Hne & Habs & Hdir).
        rewrite link_create in H.
        -- inversion H; subst. simpl. apply lookup_insert_eq.
        -- apply removeDirectory_host in Hr as (-> & _). exact Hallow1.
        -- exact Hne.
        -- exact Habs.
        -- rewrite Hdir. exact Hpar.
      * discriminate.
    + rewrite (bind_eq_Throw _ _ _ _ _ Hr) in H.
      destruct (removeDirectory_throws _ _ _ _ _ Et Hr) as (Hroot & ->).
      destruct (instanceof_AgentConfigError e); [discriminate|].
      apply bind_Ok in H as (u & w3 & Hc & _).
      exfalso. eapply applyCopyMapping_root; [exact Hroot| |exact Hc].
      rewrite <- Hroot. exact Et.
    + rewrite (bind_eq_Timeout _ _ _ _ Hr) in H. discriminate.
  - destruct (decide (Some text = Some (render (source m)))) as [Heq|Hneq].
    + inversion H; subst. inversion Heq; subst. exact Et.
    + rewrite (Hdel _ eq_refl) in H by discriminate. inversion H; subst.
      simpl. apply lookup_insert_eq.
  - rewrite link_create in H.
    + inversion H; subst. simpl. apply lookup_insert_eq.
    + exact Hallow1.
    + intros Heq. rewrite Heq in *. simpl in Hpar. congruence.
    + exact Et.
    + exact Hpar.
Qed.

End ApplyLemmas.

(** * Refusing to replace a non-empty directory *)

#[global] Instance same_at_preorder k : PreOrder (same_at k).
Proof. split; unfold same_at; [intros w; reflexivity|intros w1 w2 w3; congruence]. Qed.

#[global] Instance same_below_preorder t : PreOrder (same_below t).
Proof.
  split; unfold same_below.
  - intros w k _. reflexivity.
  - intros w1 w2 w3 H12 H23 k Hk. rewrite H23, H12 by exact Hk. reflexivity.
Qed.

Lemma within_same_at t k w w' : apart t k -> within t w w' -> same_at k w w'.
Proof. intros Ha Hw. eapply within_apart; eassumption. Qed.

Lemma same_fs_same_at k w w' : same_fs w w' -> same_at k w w'.
Proof. unfold same_fs, same_at. intros ->. reflexivity. Qed.

Lemma same_world_same_fs w w' : same_world w w' -> same_fs w w'.
Proof. intros ->. reflexivity. Qed.

(** Creating the directories on the way to the parent of [t] does not
    touch what exists at [t] or below. *)
Lemma grown_dirname_below t n w w' :
  fs w !! t = Some n -> grown (dirname t) w w' -> same_below t w w'.
Proof.
  intros Hn Hg k Hk. destruct (Hg k) as [E|(N & _ & P)]; [exact E|].
  exfalso. destruct (decide (t = [])) as [->|Hne].
  - simpl in P. apply prefix_nil_inv in P as ->. congruence.
  - apply (not_below_dirname t Hne). etransitivity; eassumption.
Qed.

Lemma entries_nonempty_kept m m' t :
  entries m t <> [] -> (forall k, t `prefix_of` k -> m' !! k = m !! k) ->
  entries m' t <> [].
Proof.
  intros He Hsame Hnil.
  destruct (entries m t) as [|x es] eqn:E; [congruence|].
  assert (Hx : x ∈ entries m t) by (rewrite E; left).
  apply elem_of_entries in Hx. rewrite <- Hsame in Hx by (apply prefix_app_r; reflexivity).
  apply elem_of_entries in Hx. rewrite Hnil in Hx. inversion Hx.
Qed.

Lemma mkdirs_exn rest : forall base m e m',
  mkdirs base rest m = (Some e, m') -> instanceof_AgentConfigError e = false.
Proof.
  induction rest as [|x rest IH]; intros base m e m' H; simpl in H.
  - destruct (m !! base) as [[c| |text]|]; inversion H; reflexivity.
  - destruct (m !! base) as [[c| |text]|]; try (inversion H; reflexivity);
      eapply IH, H.
Qed.

Lemma ensureTargetParent_exn p t ws w e w' :
  ensureTargetParent p t ws w = (Throw e, w') -> instanceof_AgentConfigError e = false.
Proof.
  unfold ensureTargetParent. rewrite (bind_eq_Ok _ _ _ _ _ (fileExists_eq _ _)).
  destruct (negb _); unfold bind, ensureDir, fs_mkdir_p;
    destruct (mkdirs [] p (fs w)) as [[e0|] m'] eqn:E; simpl; intros H; inversion H; subst;
    eapply mkdirs_exn, E.
Qed.

Section RefusalLemmas.

Variable fuel : nat.

(** Reached without permission, the apply step throws and leaves a
    non-empty directory at the target as it is. *)
Lemma applyMapping_refuses m ws w r w' :
  fs w !! target m = Some Dir -> entries (fs w) (target m) <> [] ->
  applyMapping fuel m ws (Some false) w = (r, w') ->
  (exists e, r = Throw e
             /\ (e = refuse (target m) \/ instanceof_AgentConfigError e = false))
  /\ same_below (target m) w w'.
Proof.
  intros Hd He H. unfold applyMapping in H. simpl in H.
  destruct (decide (mode m = copy)) as [_|_].
  - destruct (fs w !! source m) as [ns|] eqn:Hs.
    + rewrite (bind_eq_Throw _ _ _ _ _ (applyCopyMapping_refuses fuel m w ns Hs Hd He)) in H.
      inversion H; subst. split; [eauto|reflexivity].
    + rewrite (bind_eq_Throw _ _ _ _ _ (applyCopyMapping_source_missing fuel m _ w Hs)) in H.
      inversion H; subst. split; [eauto|reflexivity].
  - destruct (ensureTargetParent (dirname (target m)) (target m) (Some ws) w)
      as [[pushed|e|] w1] eqn:Hetp.
    + rewrite (bind_eq_Ok _ _ _ _ _ Hetp) in H.
      pose proof (grown_dirname_below _ _ _ _ Hd (ensureTargetParent_grown _ _ _ _ _ _ Hetp))
        as Hsame.
      assert (Hd1 : fs w1 !! target m = Some Dir) by (rewrite Hsame; [exact Hd|reflexivity]).
      assert (He1 : entries (fs w1) (target m) <> [])
        by (eapply entries_nonempty_kept; [exact He|exact Hsame]).
      unfold try_catch in H.
      destruct (fs w1 !! source m) as [ns|] eqn:Hs.
      * assert (Hl : fs_lstat (source m) w1 = (Ok ns, w1))
          by (rewrite fs_lstat_eq, Hs; reflexivity).
        rewrite (bind_eq_Ok _ _ _ _ _ Hl) in H.
        rewrite (bind_eq_Ok _ _ _ _ _ (getTargetInfo_eq _ _)) in H.
        rewrite Hd1 in H. simpl in H.
        rewrite (bind_eq_Ok _ _ _ _ _ (removeDirectory_refused _ _ Hd1 He1)) in H.
        simpl in H. inversion H; subst. split; [eauto|exact Hsame].
      * assert (Hl : fs_lstat (source m) w1 = (Throw (ErrnoException "ENOENT"), w1))
          by (rewrite fs_lstat_eq, Hs; reflexivity).
        rewrite (bind_eq_Throw _ _ _ _ _ Hl) in H. simpl in H.
        rewrite (bind_eq_Throw _ _ _ _ _ (applyCopyMapping_source_missing fuel m _ w1 Hs)) in H.
        inversion H; subst. split; [eauto|exact Hsame].
    + rewrite (bind_eq_Throw _ _ _ _ _ Hetp) in H. inversion H; subst.
      split; [eexists; split; [reflexivity|right; eapply ensureTargetParent_exn, Hetp]|].
      eapply grown_dirname_below; [exact Hd|eapply ensureTargetParent_grown, Hetp].
    + exfalso. eapply ensureTargetParent_no_timeout, Hetp.
Qed.

Lemma syncApply_refuses opts m cs l w r w' :
  dryRun opts = false ->
  fs w !! target m = Some Dir -> entries (fs w) (target m) <> [] ->
  syncApply fuel opts m cs false l w = (r, w') ->
  (exists msg, r = Throw (AgentConfigError msg ExitCodes.Filesystem))
  /\ same_below (target m) w w'.
Proof.
  intros Hdry Hd He H. unfold syncApply in H. rewrite Hdry in H.
  destruct (applyMapping fuel m (loop_warnings l) (Some false) w) as [r0 w0] eqn:Ha.
  destruct (applyMapping_refuses _ _ _ _ _ Hd He Ha) as ((e & -> & Hkind) & Hsame).
  unfold bind, try_catch in H. rewrite Ha in H.
  destruct Hkind as [-> | Hne].
  - simpl in H. inversion H; subst. split; [eauto|exact Hsame].
  - rewrite Hne in H. simpl in H. inversion H; subst. split; [eauto|exact Hsame].
Qed.

End RefusalLemmas.

(** * What a run can reach *)

Lemma now_ISO_same_fs : keeps same_fs now_ISO.
Proof. intros w r w' H. inversion H. reflexivity. Qed.

Lemma apart_sym p q : apart p q -> apart q p.
Proof. intros [H1 H2]. split; assumption. Qed.

(** The place of a backup is apart from the snapshot file. *)
Lemma backup_apart_state ts t sr :
  apart (backupDestination ts t sr) (getStatePath sr).
Proof.
  unfold backupDestination, getStatePath, join. split.
  - intros H. rewrite <- app_assoc in H. apply prefix_app_inv in H.
    simpl in H. apply prefix_cons_inv_1 in H. discriminate.
  - intros H. rewrite <- app_assoc in H. apply prefix_app_inv in H.
    simpl in H. apply prefix_cons_inv_1 in H. discriminate.
Qed.

Section FrameLemmas.

Variable fuel : nat.
Variable hashPath : gmap path node -> path -> string.

Lemma backupTarget_same_at t sr k :
  (forall ts, apart (backupDestination ts t sr) k) ->
  keeps (same_at k) (backupTarget fuel t sr).
Proof.
  intros Hk. unfold backupTarget.
  apply keeps_bind; [apply _| |intros iso].
  { eapply keeps_weaken; [apply same_fs_same_at|apply now_ISO_same_fs]. }
  eapply keeps_weaken; [intros w1 w2; apply within_same_at, (Hk (dashes iso))|].
  apply keeps_bind; [apply _|apply ensureDir_within, dirname_prefix|intros _].
  apply copyFileOrDir_within.
Qed.

Lemma syncApply_same_at opts m cs allow l k :
  apart (target m) k -> keeps (same_at k) (syncApply fuel opts m cs allow l).
Proof.
  intros Hk. unfold syncApply. destruct (dryRun opts); [apply keeps_ret, _|].
  apply keeps_bind; [apply _| |intros ws; apply keeps_ret, _].
  apply keeps_try_catch; [apply _| |].
  - eapply keeps_weaken; [intros w1 w2; apply within_same_at, Hk|apply applyMapping_within].
  - intros e. destruct (instanceof_AgentConfigError e); apply keeps_throw, _.
Qed.

Lemma syncMapping_same_at opts es l m k :
  apart (target m) k ->
  (forall ts, apart (backupDestination ts (target m) (sourceRoot opts)) k) ->
  keeps (same_at k) (syncMapping fuel opts es l m).
Proof.
  intros Hk Hb. unfold syncMapping.
  apply keeps_bind; [apply _| |intros srcE].
  { eapply keeps_weaken; [|apply fileExists_same_world]. intros w w' ->. reflexivity. }
  destruct (negb srcE).
  { destruct (default false (strict opts)); [apply keeps_throw, _|apply keeps_ret, _]. }
  apply keeps_bind; [apply _| |intros tgtE].
  { eapply keeps_weaken; [|apply fileExists_same_world]. intros w w' ->. reflexivity. }
  destruct (tgtE && negb (force opts) && negb (isManaged (target m) es)).
  - apply keeps_bind; [apply _| |intros d].
    { eapply keeps_weaken; [apply same_fs_same_at|apply resolveConflictPolicy_same_fs]. }
    destruct (action d).
    + apply syncApply_same_at, Hk.
    + apply keeps_bind; [apply _| |intros _; apply syncApply_same_at, Hk].
      destruct (negb (dryRun opts)); [apply backupTarget_same_at, Hb|apply keeps_ret, _].
    + apply keeps_ret, _.
    + apply keeps_throw, _.
  - apply syncApply_same_at, Hk.
Qed.

Lemma syncLoop_same_at opts es ms k :
  Forall (fun m => apart (target m) k) ms ->
  (forall ts t, apart (backupDestination ts t (sourceRoot opts)) k) ->
  forall l, keeps (same_at k) (syncLoop fuel opts es l ms).
Proof.
  intros Hall Hb. unfold syncLoop.
  induction Hall as [|m ms Hm _ IH]; intros l; simpl.
  - apply keeps_ret, _.
  - apply keeps_bind; [apply _| |intros l1; apply IH].
    apply syncMapping_same_at; [exact Hm|intros ts; apply Hb].
Qed.

Lemma readLinkTarget_same_world p : keeps same_world (readLinkTarget p).
Proof.
  intros w r w' H. unfold readLinkTarget, try_catch, bind, fs_readlink, bind, get_fs in H.
  destruct (fs w !! p) as [[| |]|]; simpl in H; inversion H; reflexivity.
Qed.

Lemma buildState_same_fs sr md pr ms es :
  keeps same_fs (buildState hashPath sr md pr ms es).
Proof.
  unfold buildState.
  apply keeps_bind; [apply _| |intros fls].
  - apply keeps_foldM; [apply _|]. intros acc m.
    apply keeps_bind; [apply _| |intros stat].
    { eapply keeps_weaken; [apply same_world_same_fs|apply fs_lstat_same_world]. }
    apply keeps_bind; [apply _| |intros meta].
    { apply keeps_pure; [apply _|reflexivity]. }
    apply keeps_bind; [apply _| |intros hash].
    { destruct (decide _); [|apply keeps_ret, _].
      apply keeps_bind; [apply _| |intros m0; apply keeps_ret, _].
      apply keeps_pure; [apply _|reflexivity]. }
    apply keeps_bind; [apply _| |intros lt; apply keeps_ret, _].
    destruct (decide _); [|apply keeps_ret, _].
    eapply keeps_weaken; [apply same_world_same_fs|apply readLinkTarget_same_world].
  - apply keeps_bind; [apply _|apply now_ISO_same_fs|intros iso]. apply keeps_ret, _.
Qed.

Lemma fs_writeFile_failed p c w r w' :
  fs_writeFile p c w = (r, w') -> (forall u, r <> Ok u) -> w' = w.
Proof.
  unfold fs_writeFile. intros H Hr.
  destruct (fs w !! p) as [[| |]|]; destruct (fs w !! dirname p) as [[| |]|];
    inversion H; subst; try reflexivity; exfalso; eapply Hr; reflexivity.
Qed.

(** Unless it returns, [writeState] leaves the snapshot file alone. *)
Lemma writeState_failed sr st w r w' :
  writeState sr st w = (r, w') -> (forall u, r <> Ok u) ->
  same_at (getStatePath sr) w w'.
Proof.
  unfold writeState. intros H Hr.
  assert (Hmk : forall w1 r1, fs_mkdir_p sr w = (r1, w1) -> same_at (getStatePath sr) w w1).
  { intros w1 r1 H1. apply fs_mkdir_p_grown in H1.
    unfold same_at. eapply grown_other; [exact H1|].
    unfold getStatePath, join. apply prefix_snoc_not. }
  destruct (bind_inv _ _ _ _ _ H) as [(u & w1 & H1 & H2)|[(e & H1 & _)|[H1 _]]].
  - apply fs_writeFile_failed in H2 as ->; [eapply Hmk, H1|exact Hr].
  - eapply Hmk, H1.
  - eapply Hmk, H1.
Qed.

Lemma persist_failed opts ms es l w r w' :
  persist hashPath opts ms es l w = (r, w') -> (forall res, r <> Ok res) ->
  same_at (getStatePath (sourceRoot opts)) w w'.
Proof.
  unfold persist. intros H Hr.
  destruct (bind_inv _ _ _ _ _ H) as [(u & w1 & H1 & H2)|[(e & H1 & _)|[H1 _]]].
  - inversion H2; subst. exfalso. eapply Hr. reflexivity.
  - destruct (negb (dryRun opts)); [|inversion H1].
    destruct (bind_inv _ _ _ _ _ H1) as [(st & w1 & Hb & Hw)|[(e' & Hb & _)|[Hb _]]].
    + pose proof (buildState_same_fs _ _ _ _ _ _ _ _ Hb) as Hfs.
      unfold same_at. rewrite <- Hfs. eapply writeState_failed; [exact Hw|discriminate].
    + apply same_fs_same_at. eapply buildState_same_fs, Hb.
    + apply same_fs_same_at. eapply buildState_same_fs, Hb.
  - destruct (negb (dryRun opts)); [|inversion H1].
    destruct (bind_inv _ _ _ _ _ H1) as [(st & w1 & Hb & Hw)|[(e' & Hb & _)|[Hb _]]].
    + pose proof (buildState_same_fs _ _ _ _ _ _ _ _ Hb) as Hfs.
      unfold same_at. rewrite <- Hfs. eapply writeState_failed; [exact Hw|discriminate].
    + apply same_fs_same_at. eapply buildState_same_fs, Hb.
    + apply same_fs_same_at. eapply buildState_same_fs, Hb.
Qed.

End FrameLemmas.

Lemma readState_same_node sr w w' :
  fs w' !! getStatePath sr = fs w !! getStatePath sr ->
  (forall text, fs w !! getStatePath sr <> Some (Symlink text)) ->
  fst (readState sr w') = fst (readState sr w).
Proof.
  intros Hsame Hnl. unfold readState, try_catch, bind, fs_readFile. simpl.
  rewrite Hsame. destruct (fs w !! getStatePath sr) as [[[b|doc]| |text]|]; simpl;
    try reflexivity.
  exfalso. eapply Hnl. reflexivity.
Qed.

(** * The loop of [syncConfigs] *)

Section LoopLemmas.

Variable fuel : nat.
Variable hashPath : gmap path node -> path -> string.

Lemma ensureTargetParent_warnings p t ws :
  returns (ensureTargetParent p t (Some ws))
          (fun r => exists ws', r = Some ws' /\ ws `prefix_of` ws').
Proof.
  unfold ensureTargetParent.
  eapply returns_bind; [apply returns_any|]. intros b _.
  destruct b; simpl.
  - eapply returns_bind; [apply returns_any|]. intros _ _.
    apply returns_ret. eexists; split; [reflexivity|reflexivity].
  - eapply returns_bind; [apply returns_any|]. intros _ _.
    apply returns_ret. eexists; split; [reflexivity|]. apply prefix_app_r. reflexivity.
Qed.

Lemma applyMapping_warnings m ws o :
  returns (applyMapping fuel m ws o) (fun ws' => ws `prefix_of` ws').
Proof.
  unfold applyMapping. destruct (decide (mode m = copy)).
  - eapply returns_bind; [apply returns_any|]. intros _ _. apply returns_ret. reflexivity.
  - eapply returns_bind; [apply ensureTargetParent_warnings|].
    intros pushed (ws1 & -> & Hpre). simpl.
    apply returns_try_catch.
    + eapply returns_bind; [apply returns_any|]. intros st _.
      eapply returns_bind; [apply returns_any|]. intros existing _.
      assert (Hc : returns (fs_symlink (render (source m)) (target m) ;;; ret ws1)
                           (fun ws' => ws `prefix_of` ws')).
      { eapply returns_bind; [apply returns_any|]. intros _ _. apply returns_ret, Hpre. }
      destruct existing as [info|]; [|exact Hc].
      destruct (info_isSymlink info).
      * destruct (decide _); [apply returns_ret, Hpre|].
        eapply returns_bind; [apply returns_any|]. intros _ _. exact Hc.
      * destruct (info_isDirectory info).
        -- eapply returns_bind; [apply returns_any|]. intros removed _.
           destruct removed; simpl; [exact Hc|apply returns_throw].
        -- eapply returns_bind; [apply returns_any|]. intros _ _. exact Hc.
    + intros e. destruct (instanceof_AgentConfigError e); [apply returns_throw|].
      eapply returns_bind; [apply returns_any|]. intros _ _.
      apply returns_ret. etransitivity; [exact Hpre|]. apply prefix_app_r. reflexivity.
Qed.

#[local] Instance grows_preorder : PreOrder grows.
Proof.
  split.
  - intros l. repeat split; reflexivity.
  - intros l1 l2 l3 (?&?&?) (?&?&?). repeat split; etransitivity; eassumption.
Qed.

Lemma skip_with_grows msg m cs l : grows l (skip_with msg m cs l).
Proof.
  repeat split; simpl; [reflexivity|apply prefix_app_r; reflexivity..].
Qed.

Lemma syncApply_grows opts m cs allow l :
  returns (syncApply fuel opts m cs allow l) (grows l).
Proof.
  unfold syncApply. destruct (dryRun opts).
  - apply returns_ret. repeat split; reflexivity.
  - eapply returns_bind.
    + apply returns_try_catch; [apply applyMapping_warnings|].
      intros e. destruct (instanceof_AgentConfigError e); apply returns_throw.
    + intros ws Hws. apply returns_ret. repeat split; simpl;
        [apply prefix_app_r; reflexivity|reflexivity|exact Hws].
Qed.

Lemma syncMapping_grows opts es l m :
  returns (syncMapping fuel opts es l m) (grows l).
Proof.
  unfold syncMapping.
  eapply returns_bind; [apply returns_any|]. intros srcE _.
  destruct srcE; simpl.
  - eapply returns_bind; [apply returns_any|]. intros tgtE _.
    destruct (tgtE && negb (force opts) && negb (isManaged (target m) es)).
    + eapply returns_bind; [apply returns_any|]. intros d _.
      destruct (action d).
      * apply syncApply_grows.
      * eapply returns_bind; [apply returns_any|]. intros _ _. apply syncApply_grows.
      * apply returns_ret, skip_with_grows.
      * apply returns_throw.
    + apply syncApply_grows.
  - destruct (default false (strict opts)); [apply returns_throw|].
    apply returns_ret, skip_with_grows.
Qed.

Lemma syncLoop_grows opts es ms : forall l,
  returns (syncLoop fuel opts es l ms) (grows l).
Proof.
  unfold syncLoop. induction ms as [|m ms IH]; intros l; simpl.
  - apply returns_ret. reflexivity.
  - eapply returns_bind; [apply syncMapping_grows|].
    intros l1 H1 w l2 w' H2. etransitivity; [exact H1|]. eapply IH, H2.
Qed.

(** How [syncConfigs] ends, given how its loop ends. *)
Lemma syncConfigs_loop_throw opts w ms es w0 e w1 :
  plan opts w = (Ok (ms, es), w0) ->
  syncLoop fuel opts es (initialLoop opts) ms w0 = (Throw e, w1) ->
  syncConfigs fuel hashPath opts w = (Throw e, w1).
Proof.
  intros Hp Hl. rewrite syncConfigs_eq.
  rewrite (bind_eq_Ok _ _ _ _ _ Hp). simpl.
  rewrite (bind_eq_Throw _ _ _ _ _ Hl). reflexivity.
Qed.

Lemma syncConfigs_Ok_inv opts w res w' :
  syncConfigs fuel hashPath opts w = (Ok res, w') ->
  exists ms es l w1,
    plan opts w = (Ok (ms, es), w)
    /\ syncLoop fuel opts es (initialLoop opts) ms w = (Ok l, w1)
    /\ persist hashPath opts ms es l w1 = (Ok res, w')
    /\ res = {| planned := ms; updated := updatedMappings l;
                skipped := skippedMappings l; warnings := loop_warnings l |}.
Proof.
  rewrite syncConfigs_eq. intros H.
  apply bind_Ok in H as ([ms es] & w0 & Hp & H).
  pose proof (plan_pure _ _ _ _ Hp) as ->.
  apply bind_Ok in H as (l & w1 & Hl & H).
  exists ms, es, l, w1. repeat split; try assumption.
  unfold persist in H. apply bind_Ok in H as (u & w2 & _ & H).
  inversion H. reflexivity.
Qed.

Lemma syncLoop_split opts es l ms1 m ms2 w l1 w1 :
  syncLoop fuel opts es l ms1 w = (Ok l1, w1) ->
  syncLoop fuel opts es l (ms1 ++ m :: ms2) w =
  (let! l2 := syncMapping fuel opts es l1 m in syncLoop fuel opts es l2 ms2) w1.
Proof.
  intros H. unfold syncLoop in *. rewrite foldM_app.
  rewrite (bind_eq_Ok _ _ _ _ _ H). reflexivity.
Qed.

End LoopLemmas.

(** * Copies and backups *)

#[global] Instance same_clock_preorder : PreOrder same_clock.
Proof.
  split; unfold same_clock.
  - intros w. split; reflexivity.
  - intros w1 w2 w3 [? ?] [? ?]. split; congruence.
Qed.

Lemma resolveConflictPolicy_same_clock target cs :
  keeps same_clock (resolveConflictPolicy target cs).
Proof.
  assert (Hq : keeps same_clock question).
  { intros w r w' H. inversion H. split; reflexivity. }
  unfold resolveConflictPolicy. destruct (policy cs).
  - apply keeps_ret, _.
  - apply keeps_bind; [apply _| |].
    + apply keeps_pure; [apply _|reflexivity].
    + intros tty. apply keeps_if.
      * apply keeps_ret, _.
      * apply keeps_bind; [apply _| |intros [act all]; apply keeps_ret, _].
        unfold promptConflictAction.
        apply keeps_bind; [apply _|exact Hq|]. intros choice.
        apply keeps_bind; [apply _|exact Hq|]. intros answer.
        destruct (parseInt (trim choice)) as [z|]; [|apply keeps_ret, _].
        repeat match goal with
               | |- context [match ?x with _ => _ end] => is_var x; destruct x
               end; apply keeps_ret, _.
Qed.

Lemma well_formed_tree_below m src : well_formed m -> tree_below m src.
Proof. intros H q x Hx. apply (H (src ++ q) x). rewrite <- app_assoc. exact Hx. Qed.

Lemma tree_below_child m src e : tree_below m src -> tree_below m (src ++ [e]).
Proof.
  intros H q x Hx. rewrite <- app_assoc in *. simpl in *.
  apply (H (e :: q) x). exact Hx.
Qed.

Lemma tree_below_same m m' src :
  (forall k, src `prefix_of` k -> m' !! k = m !! k) ->
  tree_below m src -> tree_below m' src.
Proof.
  intros Hsame H q x Hx.
  rewrite Hsame in Hx by (apply prefix_app_r; reflexivity).
  rewrite Hsame by (apply prefix_app_r; reflexivity). exact (H q x Hx).
Qed.

(** Below something that is not a directory there is nothing. *)
Lemma tree_below_leaf m src n q :
  tree_below m src -> m !! src = Some n -> n <> Dir -> q <> [] ->
  m !! (src ++ q) = None.
Proof.
  intros H Hn Hnd. induction q as [|x q IH] using rev_ind; [congruence|]. intros _.
  destruct (m !! (src ++ q ++ [x])) as [n'|] eqn:E; [|reflexivity].
  exfalso. assert (Hd : m !! (src ++ q) = Some Dir) by (apply (H q x); rewrite E; eauto).
  destruct (decide (q = [])) as [->|Hq].
  - rewrite app_nil_r in Hd. congruence.
  - rewrite (IH Hq) in Hd. discriminate.
Qed.

(** Whatever exists below a directory lies in one of its entries. *)
Lemma tree_below_entry m src e q :
  tree_below m src -> is_Some (m !! (src ++ e :: q)) -> is_Some (m !! (src ++ [e])).
Proof.
  intros H. induction q as [|x q IH] using rev_ind; [auto|].
  intros Hx. apply IH.
  replace (src ++ e :: q ++ [x]) with (src ++ (e :: q) ++ [x]) in Hx by reflexivity.
  rewrite (H (e :: q) x Hx). eauto.
Qed.

Lemma apart_child src dst e : apart src dst -> apart (src ++ [e]) (dst ++ [e]).
Proof.
  intros [H1 H2]. split; intros H.
  - apply prefix_app_l in H. apply prefix_of_snoc in H as [H| ->]; [exact (H1 H)|].
    apply H2. apply prefix_app_r. reflexivity.
  - apply prefix_app_l in H. apply prefix_of_snoc in H as [H| ->]; [exact (H2 H)|].
    apply H1. apply prefix_app_r. reflexivity.
Qed.

(** A key below [src] is apart from [dst], and from what lies below [dst]. *)
Lemma apart_below src dst k :
  apart src dst -> src `prefix_of` k -> apart dst k.
Proof.
  intros [H1 H2] Hk. split; intros H.
  - destruct (prefix_weak_total _ _ _ Hk H); contradiction.
  - apply H1. etransitivity; eassumption.
Qed.

Lemma apart_below_child src dst e k :
  apart src dst -> src `prefix_of` k -> apart (dst ++ [e]) k.
Proof.
  intros Ha Hk. destruct (apart_below _ _ _ Ha Hk) as [H3 H4]. split; intros H.
  - apply H3. eapply prefix_app_l, H.
  - apply prefix_of_snoc in H as [H| ->]; [exact (H4 H)|].
    destruct Ha as [H1 H2]. apply prefix_of_snoc in Hk as [Hk| ->]; [exact (H1 Hk)|].
    apply H2. apply prefix_app_r. reflexivity.
Qed.

Lemma within_same_below src dst w w' :
  apart src dst -> within dst w w' -> same_below src w w'.
Proof.
  intros Ha Hw k Hk. eapply within_apart; [exact Hw|]. eapply apart_below; eassumption.
Qed.

Lemma grown_same_below src p dst w w' :
  apart src dst -> p `prefix_of` dst -> grown p w w' -> same_below src w w'.
Proof.
  intros Ha Hp Hg. eapply within_same_below; [exact Ha|]. eapply grown_within; eassumption.
Qed.

Lemma fs_readFile_file p c w : fs w !! p = Some (File c) -> fs_readFile p w = (Ok c, w).
Proof. intros H. unfold fs_readFile. simpl. rewrite H. reflexivity. Qed.

Section CopyLemmas.

Lemma copyFileOrDir_copies fuel : forall src dst w w',
  apart src dst -> tree_below (fs w) src ->
  copyFileOrDir fuel src dst w = (Ok tt, w') ->
  copied (fs w) src (fs w') dst /\ same_below src w w'.
Proof.
  induction fuel as [|fuel IH]; intros src dst w w' Ha Htree H; [discriminate|].
  pose proof (within_same_below _ _ _ _ Ha (copyFileOrDir_within _ _ _ _ _ _ H)) as Hsame.
  simpl in H. apply bind_Ok in H as (stat & w0 & Hl & H).
  pose proof (fs_lstat_same_world _ _ _ _ Hl) as ->.
  rewrite fs_lstat_eq in Hl. destruct (fs w !! src) as [n0|] eqn:Hsrc; inversion Hl; subst n0.
  clear Hl.
  split; [|exact Hsame].
  destruct (isDirectory stat) eqn:Hdir.
  - (* a directory: its entries, one after the other *)
    destruct stat; try discriminate. clear Hdir.
    apply bind_Ok in H as ([] & w1 & Hmk & H).
    pose proof (fs_mkdir_p_made _ _ _ Hmk dst (reflexivity _)) as Hdst1.
    assert (Hsame1 : same_below src w w1).
    { eapply grown_same_below; [exact Ha|reflexivity|eapply fs_mkdir_p_grown, Hmk]. }
    apply bind_Ok in H as (es & w2 & Hrd & H).
    pose proof (fs_readdir_same_world _ _ _ _ Hrd) as ->.
    rewrite fs_readdir_eq, (Hsame1 src (reflexivity _)), Hsrc in Hrd.
    inversion Hrd; subst es; clear Hrd.
    assert (Hloop : forall L done wi,
               NoDup (done ++ L) ->
               same_below src w wi -> fs wi !! dst = Some Dir ->
               (forall e q n, e ∈ done -> fs w !! (src ++ e :: q) = Some n ->
                              regular n = true -> fs wi !! (dst ++ e :: q) = Some n) ->
               forM_ (fun entry => copyFileOrDir fuel (join src [entry]) (join dst [entry]))
                     L wi = (Ok tt, w') ->
               fs w' !! dst = Some Dir
               /\ forall e q n, e ∈ done ++ L -> fs w !! (src ++ e :: q) = Some n ->
                                regular n = true -> fs w' !! (dst ++ e :: q) = Some n).
    { induction L as [|e L IHL]; intros done wi Hnd Hsi Hdi Hdone HL.
      - inversion HL; subst. rewrite app_nil_r. split; assumption.
      - unfold forM_ in HL. simpl in HL. apply bind_Ok in HL as ([] & wj & He & HL).
        unfold join in He.
        assert (Htree_i : tree_below (fs wi) (src ++ [e])).
        { apply tree_below_child. eapply tree_below_same; [|exact Htree].
          intros k Hk. apply Hsi, Hk. }
        destruct (IH _ _ _ _ (apart_child _ _ e Ha) Htree_i He) as (Hcp & _).
        pose proof (copyFileOrDir_within _ _ _ _ _ _ He) as Hw.
        assert (Hsj : same_below src w wj).
        { intros k Hk. rewrite <- (Hsi k Hk).
          eapply within_apart; [exact Hw|]. eapply apart_below_child; eassumption. }
        assert (Hdj : fs wj !! dst = Some Dir).
        { eapply within_present; [exact Hw|apply prefix_snoc_not|exact Hdi]. }
        replace (done ++ e :: L) with ((done ++ [e]) ++ L) in *
          by (rewrite <- app_assoc; reflexivity).
        apply (IHL (done ++ [e]) wj Hnd Hsj Hdj); [|exact HL].
        intros e' q n He' Hn Hreg. apply elem_of_app in He' as [He'|He'].
        + eapply within_present; [exact Hw| |eapply Hdone; eassumption].
          intros Hpre. apply prefix_app_inv in Hpre.
          apply prefix_cons_inv_1 in Hpre. subst e'.
          apply NoDup_app in Hnd as (Hnd & _ & _).
          apply NoDup_app in Hnd as (_ & Hnd & _). apply (Hnd e He'). left.
        + apply list_elem_of_singleton in He' as ->.
          specialize (Hcp q n). rewrite <- !app_assoc in Hcp. simpl in Hcp.
          apply Hcp; [|exact Hreg].
          rewrite (Hsi (src ++ e :: q)) by (apply prefix_app_r; reflexivity). exact Hn. }
    destruct (Hloop (entries (fs w1) src) [] w1) as (Hdst' & Hall);
      [apply NoDup_entries|exact Hsame1|exact Hdst1|intros e q n He; inversion He|exact H|].
    intros q n Hq Hreg. destruct q as [|e q].
    + rewrite app_nil_r in *. congruence.
    + apply (Hall e q n); [|exact Hq|exact Hreg]. simpl.
      apply elem_of_entries. rewrite (Hsame1 (src ++ [e])) by (apply prefix_app_r; reflexivity).
      eapply tree_below_entry; [exact Htree|]. rewrite Hq. eauto.
  - (* not a directory: one file *)
    apply bind_Ok in H as ([] & w1 & Hmk & H).
    intros q n Hq Hreg.
    destruct (decide (q = [])) as [->|Hne].
    2:{ rewrite (tree_below_leaf _ _ _ _ Htree Hsrc) in Hq; [discriminate| |exact Hne].
        intros ->. discriminate. }
    rewrite app_nil_r in *. rewrite Hsrc in Hq. inversion Hq; subst n.
    destruct stat as [c| |text]; try discriminate.
    unfold fs_copyFile in H.
    assert (Hsrc1 : fs w1 !! src = Some (File c)).
    { eapply grown_present; [eapply fs_mkdir_p_grown, Hmk|exact Hsrc]. }
    rewrite (bind_eq_Ok _ _ _ _ _ (fs_readFile_file _ _ _ Hsrc1)) in H.
    apply fs_writeFile_Ok in H. rewrite H. apply lookup_insert_eq.
Qed.

End CopyLemmas.
Lemma well_formed_check (m : gmap path node) :
  map_Forall (fun k _ => k = [] \/ isDirectory <$> m !! dirname k = Some true) m ->
  well_formed m.
Proof.
  intros H k x [n Hn]. destruct (H _ _ Hn) as [Hnil|Hd].
  - destruct k; discriminate.
  - rewrite dirname_snoc in Hd. destruct (m !! k) as [[| |]|]; try discriminate.
    reflexivity.
Qed.

Lemma backup_not_above ts t sr : ¬ backupDestination ts t sr `prefix_of` t.
Proof.
  intros H. apply prefix_length in H. unfold backupDestination, join in H.
  rewrite !length_app in H. simpl in H. lia.
Qed.

Lemma dashes_clean s c :
  In c (list_ascii_of_string (dashes s)) -> c <> ":"%char /\ c <> "."%char.
Proof.
  induction s as [|a s IH]; simpl; [contradiction|].
  intros [<-|Hin]; [|apply IH, Hin].
  destruct (Ascii.eqb a ":") eqn:E1; [split; discriminate|].
  destruct (Ascii.eqb a ".") eqn:E2; [split; discriminate|].
  simpl. apply Ascii.eqb_neq in E1. apply Ascii.eqb_neq in E2. split; assumption.
Qed.

Section BackupLemmas.

Variable fuel : nat.

Lemma backupTarget_same_below t sr w r w1 :
  ¬ t `prefix_of` backupDestination (dashes (clock w (ticks w))) t sr ->
  backupTarget fuel t sr w = (r, w1) ->
  same_below t w w1.
Proof.
  intros Hnp H. unfold backupTarget in H.
  set (dest := backupDestination (dashes (clock w (ticks w))) t sr) in *.
  assert (Ha : apart t dest) by (split; [exact Hnp|apply backup_not_above]).
  unfold bind at 1 in H. simpl in H. fold dest in H.
  match type of H with
  | ?c ?w0 = _ =>
      assert (Hw : keeps (within dest) c);
      [|eapply within_same_below in Ha; [|eapply Hw, H]]
  end.
  { apply keeps_bind; [apply _|apply ensureDir_within, dirname_prefix|intros _].
    apply copyFileOrDir_within. }
  intros k Hk. rewrite (Ha k Hk). reflexivity.
Qed.

Lemma backupTarget_copies t sr w w1 :
  tree_below (fs w) t ->
  ¬ t `prefix_of` backupDestination (dashes (clock w (ticks w))) t sr ->
  backupTarget fuel t sr w = (Ok tt, w1) ->
  copied (fs w) t (fs w1) (backupDestination (dashes (clock w (ticks w))) t sr)
  /\ same_below t w w1.
Proof.
  intros Htree Hnp H.
  split; [|eapply backupTarget_same_below; eassumption].
  unfold backupTarget in H.
  set (dest := backupDestination (dashes (clock w (ticks w))) t sr) in *.
  assert (Ha : apart t dest) by (split; [exact Hnp|apply backup_not_above]).
  unfold bind at 1 in H. simpl in H. fold dest in H.
  apply bind_Ok in H as ([] & wb & Hmk & Hcp).
  assert (Hsb : same_below t (set_fs (fs w) w) wb).
  { eapply grown_same_below; [exact Ha|apply dirname_prefix|].
    pose proof (fs_mkdir_p_grown _ _ _ _ Hmk) as Hg. exact Hg. }
  assert (Htree_b : tree_below (fs wb) t).
  { eapply tree_below_same; [|exact Htree]. intros k Hk. rewrite (Hsb k Hk). reflexivity. }
  destruct (copyFileOrDir_copies _ _ _ _ _ Ha Htree_b Hcp) as (Hcopied & _).
  intros q n Hq Hreg. apply Hcopied; [|exact Hreg].
  rewrite (Hsb (t ++ q)) by (apply prefix_app_r; reflexivity). exact Hq.
Qed.

End BackupLemmas.

Lemma foldM_never_Ok {A S} (f : S -> A -> M S) (a : A) :
  (forall s w s' w', f s a w <> (Ok s', w')) ->
  forall L, a ∈ L -> forall s w s' w', foldM f s L w <> (Ok s', w').
Proof.
  intros Hf. induction L as [|x L IH]; intros Hin s w s' w' H; [inversion Hin|].
  simpl in H. apply bind_Ok in H as (s1 & w1 & H1 & H2).
  apply elem_of_cons in Hin as [->|Hin].
  - exact (Hf _ _ _ _ H1).
  - exact (IH Hin _ _ _ _ H2).
Qed.

(** A directory cannot be copied to a place inside itself: the copy never
    completes. *)
Lemma copy_into_itself fuel : forall src a rest w u w',
  copyFileOrDir fuel src (src ++ a :: rest) w <> (Ok u, w').
Proof.
  induction fuel as [|fuel IH]; intros src a rest w u w' H; [discriminate|].
  simpl in H. apply bind_Ok in H as (stat & w0 & Hl & H).
  pose proof (fs_lstat_same_world _ _ _ _ Hl) as ->.
  rewrite fs_lstat_eq in Hl. destruct (fs w !! src) as [n0|] eqn:Hsrc; inversion Hl; subst n0.
  clear Hl. destruct (isDirectory stat) eqn:Hdir.
  - apply bind_Ok in H as ([] & w1 & Hmk & H).
    apply bind_Ok in H as (es & w2 & Hrd & H).
    pose proof (fs_readdir_same_world _ _ _ _ Hrd) as ->.
    assert (Hsrc1 : fs w1 !! src = Some Dir).
    { eapply fs_mkdir_p_made; [exact Hmk|]. apply prefix_app_r. reflexivity. }
    rewrite fs_readdir_eq, Hsrc1 in Hrd. inversion Hrd; subst es; clear Hrd.
    assert (Ha : a ∈ entries (fs w1) src).
    { apply elem_of_entries. rewrite (fs_mkdir_p_made _ _ _ Hmk); [eauto|].
      apply prefix_app, prefix_cons, prefix_nil. }
    unfold forM_ in H. destruct u.
    eapply (foldM_never_Ok _ a); [|exact Ha|exact H].
    intros [] wa [] wb Hc. unfold join in Hc.
    replace ((src ++ a :: rest) ++ [a]) with ((src ++ [a]) ++ rest ++ [a]) in Hc
      by (rewrite <- !app_assoc; reflexivity).
    destruct (rest ++ [a]) as [|b rest'] eqn:E; [destruct rest; discriminate|].
    exact (IH _ _ _ _ _ _ Hc).
  - apply bind_Ok in H as ([] & w1 & Hmk & H).
    assert (Hsrc1 : fs w1 !! src = Some Dir).
    { eapply fs_mkdir_p_made; [exact Hmk|]. unfold dirname.
      rewrite removelast_app by discriminate. apply prefix_app_r. reflexivity. }
    pose proof (grown_present _ _ _ _ _ (fs_mkdir_p_grown _ _ _ _ Hmk) Hsrc) as Hsrc1'.
    rewrite Hsrc1 in Hsrc1'. inversion Hsrc1'; subst stat. discriminate.
Qed.

Lemma foldM_no_timeout {A S} (f : S -> A -> M S) (Inv : World -> Prop) (L : list A) :
  (forall s x w w', x ∈ L -> Inv w -> f s x w <> (Timeout, w')) ->
  (forall s x w s' w', x ∈ L -> Inv w -> f s x w = (Ok s', w') -> Inv w') ->
  forall s w w', Inv w -> foldM f s L w <> (Timeout, w').
Proof.
  induction L as [|x L IH]; intros Hno Hinv s w w' Hw H; [discriminate|].
  simpl in H.
  destruct (bind_inv _ _ _ _ _ H) as [(s1 & w1 & H1 & H2)|[(e & _ & ?)|[H1 _]]];
    [|discriminate|].
  - eapply (IH (fun s x w w' Hx => Hno s x w w' (list_elem_of_further _ _ _ Hx))
               (fun s x w s' w' Hx => Hinv s x w s' w' (list_elem_of_further _ _ _ Hx)));
      [|exact H2].
    eapply Hinv; [left|exact Hw|exact H1].
  - eapply Hno; [left|exact Hw|exact H1].
Qed.

Lemma fs_mkdir_p_no_timeout p w w' : fs_mkdir_p p w <> (Timeout, w').
Proof. unfold fs_mkdir_p. destruct (mkdirs [] p (fs w)) as [[e|] m']; discriminate. Qed.

Lemma fs_copyFile_no_timeout src dst w w' : fs_copyFile src dst w <> (Timeout, w').
Proof.
  unfold fs_copyFile, bind, fs_readFile, fs_writeFile.
  destruct (read_through 40 (fs w) src); [discriminate|].
  destruct (fs w !! dst) as [[| |]|]; destruct (fs w !! dirname dst) as [[| |]|];
    discriminate.
Qed.

(** With fuel beyond the depth of the tree below [src], the copy does not
    run out of fuel. *)
Lemma copyFileOrDir_no_timeout fuel : forall src dst w w',
  apart src dst -> 0 < fuel ->
  (forall k, src `prefix_of` k -> is_Some (fs w !! k) -> length k < length src + fuel) ->
  copyFileOrDir fuel src dst w <> (Timeout, w').
Proof.
  induction fuel as [|fuel IH]; intros src dst w w' Ha Hpos Hdeep H; [lia|].
  simpl in H.
  destruct (bind_inv _ _ _ _ _ H) as [(stat & w0 & Hl & H1)|[(e & _ & ?)|[Hl _]]];
    [|discriminate|rewrite fs_lstat_eq in Hl; destruct (fs w !! src); discriminate].
  pose proof (fs_lstat_same_world _ _ _ _ Hl) as ->. clear H.
  destruct (isDirectory stat).
  - destruct (bind_inv _ _ _ _ _ H1) as [([] & w1 & Hmk & H2)|[(e & _ & ?)|[Hmk _]]];
      [|discriminate|exact (fs_mkdir_p_no_timeout _ _ _ Hmk)].
    assert (Hsame1 : same_below src w w1).
    { eapply grown_same_below; [exact Ha|reflexivity|eapply fs_mkdir_p_grown, Hmk]. }
    destruct (bind_inv _ _ _ _ _ H2) as [(es & w2 & Hrd & H3)|[(e & _ & ?)|[Hrd _]]];
      [|discriminate|rewrite fs_readdir_eq in Hrd;
                     destruct (fs w1 !! src) as [[| |]|]; discriminate].
    pose proof (fs_readdir_same_world _ _ _ _ Hrd) as ->.
    assert (Hes : forall e, e ∈ es -> is_Some (fs w !! (src ++ [e]))).
    { intros e He. rewrite fs_readdir_eq in Hrd.
      destruct (fs w1 !! src) as [[| |]|]; inversion Hrd; subst es.
      apply elem_of_entries in He.
      rewrite (Hsame1 (src ++ [e])) in He by (apply prefix_app_r; reflexivity). exact He. }
    unfold forM_ in H3.
    eapply (foldM_no_timeout _ (same_below src w) es); [| |exact Hsame1|exact H3].
    + intros [] e wi wj He Hsi Hc. unfold join in Hc.
      specialize (Hes e He). pose proof (Hdeep _ (prefix_app_r _ _ [e] (reflexivity _)) Hes)
        as Hlen. rewrite length_app in Hlen. simpl in Hlen.
      eapply (IH (src ++ [e]) (dst ++ [e]) wi wj (apart_child _ _ e Ha)); [lia| |exact Hc].
      intros k Hk Hpres. rewrite length_app. simpl.
      assert (Hk' : src `prefix_of` k) by (eapply prefix_app_l, Hk).
      rewrite (Hsi k Hk') in Hpres. specialize (Hdeep k Hk' Hpres). lia.
    + intros [] e wi [] wj He Hsi Hc. unfold join in Hc.
      intros k Hk. rewrite <- (Hsi k Hk).
      eapply within_apart; [eapply copyFileOrDir_within, Hc|].
      eapply apart_below_child; eassumption.
  - destruct (bind_inv _ _ _ _ _ H1) as [([] & w1 & Hmk & H2)|[(e & _ & ?)|[Hmk _]]];
      [|discriminate|exact (fs_mkdir_p_no_timeout _ _ _ Hmk)].
    exact (fs_copyFile_no_timeout _ _ _ _ H2).
Qed.

Section BackupTotal.

Variable fuel : nat.

Lemma backupTarget_into_itself t sr w u w1 :
  t `prefix_of` backupDestination (dashes (clock w (ticks w))) t sr ->
  backupTarget fuel t sr w <> (Ok u, w1).
Proof.
  intros [q Hq] H. unfold backupTarget in H.
  unfold bind at 1 in H. simpl in H. rewrite Hq in H.
  apply bind_Ok in H as ([] & wb & _ & Hcp).
  destruct q as [|a rest].
  - rewrite app_nil_r in Hq. apply (backup_not_above (dashes (clock w (ticks w))) t sr).
    rewrite Hq. reflexivity.
  - exact (copy_into_itself _ _ _ _ _ _ _ Hcp).
Qed.

Lemma backupTarget_no_timeout t sr w w1 :
  ¬ t `prefix_of` backupDestination (dashes (clock w (ticks w))) t sr ->
  0 < fuel ->
  (forall k, t `prefix_of` k -> is_Some (fs w !! k) -> length k < length t + fuel) ->
  backupTarget fuel t sr w <> (Timeout, w1).
Proof.
  intros Hnp Hpos Hdeep H. unfold backupTarget in H.
  set (dest := backupDestination (dashes (clock w (ticks w))) t sr) in *.
  assert (Ha : apart t dest) by (split; [exact Hnp|apply backup_not_above]).
  unfold bind at 1 in H. simpl in H. fold dest in H.
  destruct (bind_inv _ _ _ _ _ H) as [([] & wb & Hmk & Hcp)|[(e & _ & ?)|[Hmk _]]];
    [|discriminate|exact (fs_mkdir_p_no_timeout _ _ _ Hmk)].
  assert (Hsb : same_below t (set_fs (fs w) w) wb).
  { eapply grown_same_below; [exact Ha|apply dirname_prefix|].
    pose proof (fs_mkdir_p_grown _ _ _ _ Hmk) as Hg. exact Hg. }
  eapply copyFileOrDir_no_timeout; [exact Ha|exact Hpos| |exact Hcp].
  intros k Hk Hpres. rewrite (Hsb k Hk) in Hpres. exact (Hdeep k Hk Hpres).
Qed.

End BackupTotal.

(** * The drift detector *)

Section StatusLemmas.

Variable hashPath : gmap path node -> path -> string.

Lemma getStatus_record results record w :
  exists e,
    (let! exists_ := fileExists (rec_path record) in
     if negb exists_ then
       ret (results ++ [{| entry_path := rec_path record; status := missing;
                           reason := Some "target missing" |}])
     else
       let! stat :=
         match rec_mode record with
         | link | auto => let! s := fs_lstat (rec_path record) in ret (Some s)
         | copy => ret None
         end in
       let is_link :=
         match stat with Some s => isSymbolicLink s | None => false end in
       let mode :=
         match rec_mode record with
         | auto => if is_link then link else copy
         | m => m
         end in
       let drift why :=
         ret (results ++ [{| entry_path := rec_path record; status := drifted;
                             reason := Some why |}]) in
       let fine :=
         ret (results ++ [{| entry_path := rec_path record; status := ok;
                             reason := None |}]) in
       if decide (mode = link) then
         if negb is_link then drift "link target changed"
         else if negb (truthy (rec_linkTarget record))
         then drift "link target changed"
         else
           let! linkTarget := readLinkTarget (rec_path record) in
           if negb (bool_decide (linkTarget = rec_linkTarget record))
           then drift "link target changed"
           else fine
       else
         if negb (truthy (rec_hash record)) then drift "content changed"
         else
           let! m := get_fs in
           let currentHash := hashPath m (rec_path record) in
           if negb (bool_decide (Some currentHash = rec_hash record))
           then drift "content changed"
           else fine) w = (Ok (results ++ [e]), w)
    /\ entry_path e = rec_path record
    /\ verdict e = classify hashPath (fs w) record.
Proof.
  rewrite (bind_eq_Ok _ _ _ _ _ (fileExists_eq _ _)).
  unfold classify, link_effective.
  destruct (fs w !! rec_path record) as [n|] eqn:E.
  2:{ simpl. eexists. split; [reflexivity|]. split; reflexivity. }
  rewrite bool_decide_eq_true_2 by eauto. cbn [negb].
  assert (Hl : fs_lstat (rec_path record) w = (Ok n, w)).
  { rewrite fs_lstat_eq, E. reflexivity. }
  destruct (rec_mode record) eqn:Hm.
  - (* auto *)
    unfold bind at 1. unfold bind at 1. rewrite Hl. cbn [ret].
    destruct n as [c| |text]; cbn [isSymbolicLink].
    + destruct (decide (copy = link)) as [?|_]; [discriminate|].
      destruct (truthy (rec_hash record)); cbn [negb orb].
      * unfold bind, get_fs. destruct (bool_decide _); cbn [negb];
          eexists; (split; [reflexivity|split; reflexivity]).
      * eexists; (split; [reflexivity|split; reflexivity]).
    + destruct (decide (copy = link)) as [?|_]; [discriminate|].
      destruct (truthy (rec_hash record)); cbn [negb orb].
      * unfold bind, get_fs. destruct (bool_decide _); cbn [negb];
          eexists; (split; [reflexivity|split; reflexivity]).
      * eexists; (split; [reflexivity|split; reflexivity]).
    + destruct (decide (link = link)) as [_|?]; [|congruence]. cbn [negb orb].
      destruct (truthy (rec_linkTarget record)); cbn [negb orb].
      * rewrite (bind_eq_Ok _ _ _ _ _ (readLinkTarget_eq _ _ _ E)). cbn [current_link].
        destruct (bool_decide _); cbn [negb];
          eexists; (split; [reflexivity|split; reflexivity]).
      * eexists; (split; [reflexivity|split; reflexivity]).
  - (* link *)
    unfold bind at 1. unfold bind at 1. rewrite Hl. cbn [ret].
    destruct (decide (link = link)) as [_|?]; [|congruence].
    destruct n as [c| |text]; cbn [isSymbolicLink negb orb];
      try (eexists; (split; [reflexivity|split; reflexivity])).
    destruct (truthy (rec_linkTarget record)); cbn [negb orb].
    + rewrite (bind_eq_Ok _ _ _ _ _ (readLinkTarget_eq _ _ _ E)). cbn [current_link].
      destruct (bool_decide _); cbn [negb];
        eexists; (split; [reflexivity|split; reflexivity]).
    + eexists; (split; [reflexivity|split; reflexivity]).
  - (* copy *)
    unfold bind at 1. cbn [ret].
    destruct (decide (copy = link)) as [?|_]; [discriminate|].
    destruct (truthy (rec_hash record)); cbn [negb orb].
    + unfold bind, get_fs. destruct (bool_decide _); cbn [negb];
        eexists; (split; [reflexivity|split; reflexivity]).
    + eexists; (split; [reflexivity|split; reflexivity]).
Qed.

End StatusLemmas.

(** * The snapshot *)

Lemma files_get_set_eq {A} k (v : A) l : files_get k (files_set k v l) = Some v.
Proof.
  unfold files_get. induction l as [|[k' v'] l IH]; simpl.
  - rewrite bool_decide_eq_true_2 by reflexivity. reflexivity.
  - destruct (decide (k' = k)) as [->|Hne]; simpl.
    + rewrite bool_decide_eq_true_2 by reflexivity. reflexivity.
    + rewrite bool_decide_eq_false_2 by exact Hne. exact IH.
Qed.

Lemma files_get_set_ne {A} k k' (v : A) l :
  k <> k' -> files_get k' (files_set k v l) = files_get k' l.
Proof.
  intros Hne. unfold files_get. induction l as [|[k0 v0] l IH]; simpl.
  - rewrite bool_decide_eq_false_2 by exact Hne. reflexivity.
  - destruct (decide (k0 = k)) as [->|Hne0]; simpl.
    + rewrite !bool_decide_eq_false_2 by exact Hne. reflexivity.
    + destruct (bool_decide (k0 = k')); [reflexivity|exact IH].
Qed.

Section StateLemmas.

Variable fuel : nat.
Variable hashPath : gmap path node -> path -> string.

Lemma buildState_files stateRoot md pr ms es newState w w' :
  buildState hashPath stateRoot md pr ms es w = (Ok newState, w') ->
  (forall k, k ∉ map target ms ->
             files_get k (st_files newState) = files_get k (previous_files es))
  /\ (forall m, m ∈ ms ->
        exists r m', files_get (target m) (st_files newState) = Some r
                     /\ m' ∈ ms /\ target m' = target m /\ describes r m')
  /\ fs w' = fs w.
Proof.
  unfold buildState. intros H.
  apply bind_Ok in H as (F & w1 & Hfold & H).
  apply bind_Ok in H as (iso & w2 & Hnow & H).
  inversion H; subst; clear H. simpl.
  assert (Hfs2 : fs w' = fs w1) by (inversion Hnow; reflexivity). rewrite Hfs2. clear Hnow.
  fold (previous_files es) in Hfold. revert Hfold. generalize (previous_files es).
  revert w. induction ms as [|m ms IH]; intros w files Hfold; simpl in Hfold.
  - inversion Hfold; subst. repeat split; try reflexivity.
    intros m Hm. inversion Hm.
  - apply bind_Ok in Hfold as (files1 & w0 & Hstep & Hrest).
    assert (Hstep' : exists r, describes r m /\ files1 = files_set (target m) r files
                               /\ fs w0 = fs w).
    { clear IH Hrest.
      apply bind_Ok in Hstep as (stat & wa & Ha & Hstep).
      assert (wa = w) as ->.
      { rewrite fs_lstat_eq in Ha. destruct (fs w !! target m); inversion Ha; reflexivity. }
      apply bind_Ok in Hstep as (meta & wb & Hb & Hstep).
      assert (wb = w) as -> by (inversion Hb; reflexivity).
      apply bind_Ok in Hstep as (hash & wc & Hc & Hstep).
      assert (wc = w) as ->.
      { destruct (decide _); [|inversion Hc; reflexivity].
        apply bind_Ok in Hc as (? & ? & Hg & Hc). inversion Hg; subst.
        inversion Hc. reflexivity. }
      apply bind_Ok in Hstep as (lt & wd & Hd & Hstep).
      assert (wd = w) as ->.
      { destruct (decide _); [|inversion Hd; reflexivity].
        unfold readLinkTarget, try_catch, bind, fs_readlink, bind, get_fs in Hd.
        destruct (fs w !! target m) as [[| |]|]; simpl in Hd; inversion Hd; reflexivity. }
      inversion Hstep; subst. eexists. split; [|split; reflexivity].
      repeat split. }
    destruct Hstep' as (r & Hdesc & -> & Hfs0).
    destruct (IH _ _ Hrest) as (Hkeep & Hnew & Hfs).
    split; [|split].
    + intros k Hk. rewrite Hkeep by set_solver.
      apply files_get_set_ne. set_solver.
    + intros m0 Hm0.
      destruct (decide (target m0 ∈ map target ms)) as [Hin|Hnin].
      * apply list_elem_of_fmap in Hin as (m1 & Ht & Hm1).
        destruct (Hnew m1 Hm1) as (r1 & m' & Hg & Hm' & Ht' & Hd').
        exists r1, m'. rewrite Ht. split; [exact Hg|]. split; [set_solver|].
        split; [congruence|exact Hd'].
      * assert (m0 = m) as ->.
        { apply elem_of_cons in Hm0 as [->|Hm0]; [reflexivity|].
          exfalso. apply Hnin. apply list_elem_of_fmap. eauto. }
        exists r, m. rewrite Hkeep by exact Hnin.
        split; [apply files_get_set_eq|]. split; [set_solver|]. split; [reflexivity|exact Hdesc].
    + congruence.
Qed.

Lemma plan_readState options w ms es w0 :
  plan options w = (Ok (ms, es), w0) ->
  readState (sourceRoot options) w = (Ok es, w).
Proof.
  unfold plan. intros H.
  apply bind_Ok in H as (md & w1 & H1 & H).
  assert (w1 = w) as ->.
  { unfold resolveSyncMode in H1. destruct (linkMode options); inversion H1; reflexivity. }
  apply bind_Ok in H as (ms' & w2 & H2 & H).
  pose proof (resolveMappings_pure (config options) (sourceRoot options) (opt_mode options)
                (projectRoot options) md (agentFilter options) w) as Hp.
  rewrite H2 in Hp. simpl in Hp. subst w2.
  apply bind_Ok in H as (es' & w3 & H3 & H).
  pose proof (readState_pure (sourceRoot options) w) as Hp.
  rewrite H3 in Hp. simpl in Hp. subst w3.
  inversion H; subst. exact H3.
Qed.

Lemma readState_snapshot root w st :
  fs w !! getStatePath root = Some (File (Snapshot st)) ->
  readState root w = (Ok (Some st), w).
Proof.
  intros H. unfold readState, try_catch, bind, fs_readFile. simpl. rewrite H. reflexivity.
Qed.

End StateLemmas.

(** ** The run as a whole *)

Lemma returns_foldM {A S} (f : S -> A -> M S) (P : S -> Prop) (l : list A) :
  (forall s x, P s -> returns (f s x) P) ->
  forall s, P s -> returns (foldM f s l) P.
Proof.
  intros Hf. induction l as [|x l IH]; intros s Hs w a w' H; simpl in H.
  - inversion H; subst. exact Hs.
  - apply bind_Ok in H as (s1 & w1 & H1 & H2).
    eapply IH; [|exact H2]. eapply Hf; eassumption.
Qed.

Section DryRunLemmas.

Variable fuel : nat.
Variable hashPath : gmap path node -> path -> string.

Lemma syncApply_dry opts m cs allow l w :
  dryRun opts = true ->
  syncApply fuel opts m cs allow l w
  = (Ok {| conflictState := cs; updatedMappings := updatedMappings l;
           skippedMappings := skippedMappings l; loop_warnings := loop_warnings l |}, w).
Proof. intros H. unfold syncApply. rewrite H. reflexivity. Qed.

Lemma syncMapping_dry_same_fs opts es l m :
  dryRun opts = true -> keeps same_fs (syncMapping fuel opts es l m).
Proof.
  intros Hdry. unfold syncMapping.
  assert (Happly : forall cs allow, keeps same_fs (syncApply fuel opts m cs allow l)).
  { intros cs allow w r w' H. rewrite syncApply_dry in H by exact Hdry.
    inversion H. reflexivity. }
  apply keeps_bind; [apply _| |].
  { eapply keeps_weaken; [apply same_world_same_fs|apply fileExists_same_world]. }
  intros srcE. apply keeps_if.
  { apply keeps_if; [apply keeps_throw|apply keeps_ret]; apply _. }
  apply keeps_bind; [apply _| |].
  { eapply keeps_weaken; [apply same_world_same_fs|apply fileExists_same_world]. }
  intros tgtE. apply keeps_if; [|apply Happly].
  apply keeps_bind; [apply _|apply resolveConflictPolicy_same_fs|].
  intros d. destruct (action d).
  - apply Happly.
  - rewrite Hdry. simpl. apply keeps_bind; [apply _|apply keeps_ret; apply _|].
    intros _. apply Happly.
  - apply keeps_ret; apply _.
  - apply keeps_throw; apply _.
Qed.

Lemma syncMapping_dry_updated opts es l m :
  dryRun opts = true ->
  returns (syncMapping fuel opts es l m)
          (fun l' => updatedMappings l' = updatedMappings l).
Proof.
  intros Hdry. unfold syncMapping.
  assert (Happly : forall cs allow,
             returns (syncApply fuel opts m cs allow l)
                     (fun l' => updatedMappings l' = updatedMappings l)).
  { intros cs allow w r w' H. rewrite syncApply_dry in H by exact Hdry.
    inversion H. reflexivity. }
  eapply returns_bind; [apply returns_any|]. intros srcE _.
  destruct (negb srcE).
  { destruct (default false (strict opts));
      [apply returns_throw|apply returns_ret; reflexivity]. }
  eapply returns_bind; [apply returns_any|]. intros tgtE _.
  destruct (tgtE && negb (force opts) && negb (isManaged (target m) es)); [|apply Happly].
  eapply returns_bind; [apply returns_any|]. intros d _.
  destruct (action d).
  - apply Happly.
  - eapply returns_bind; [apply returns_any|]. intros _ _. apply Happly.
  - apply returns_ret. reflexivity.
  - apply returns_throw.
Qed.

Lemma syncLoop_dry opts es ms :
  dryRun opts = true ->
  forall l w r w',
    syncLoop fuel opts es l ms w = (r, w') ->
    fs w' = fs w /\ forall l', r = Ok l' -> updatedMappings l' = updatedMappings l.
Proof.
  intros Hdry. unfold syncLoop.
  induction ms as [|m ms IH]; intros l w r w' H; simpl in H.
  - inversion H; subst. split; [reflexivity|]. intros l' Hl. inversion Hl. reflexivity.
  - destruct (bind_inv _ _ _ _ _ H) as [(l1 & w1 & H1 & H2)|[(e & H1 & ->)|[H1 ->]]].
    + destruct (IH _ _ _ _ H2) as [Hfs Hup].
      split.
      * rewrite Hfs. exact (syncMapping_dry_same_fs opts es l m Hdry _ _ _ H1).
      * intros l' Hl. rewrite (Hup l' Hl).
        exact (syncMapping_dry_updated opts es l m Hdry _ _ _ H1).
    + split; [exact (syncMapping_dry_same_fs opts es l m Hdry _ _ _ H1)|discriminate].
    + split; [exact (syncMapping_dry_same_fs opts es l m Hdry _ _ _ H1)|discriminate].
Qed.

End DryRunLemmas.


Section PartitionLemmas.

Variable fuel : nat.
Variable hashPath : gmap path node -> path -> string.

Lemma syncApply_step opts m cs allow l l' w w' :
  syncApply fuel opts m cs allow l w = (Ok l', w') ->
  skippedMappings l' = skippedMappings l
  /\ updatedMappings l' = updatedMappings l ++ (if dryRun opts then [] else [m]).
Proof.
  unfold syncApply. destruct (dryRun opts).
  - intros H. inversion H. simpl. rewrite app_nil_r. split; reflexivity.
  - intros H. apply bind_Ok in H as (ws & w1 & _ & H). inversion H. split; reflexivity.
Qed.

(** One turn of the loop puts the mapping in exactly one of the two lists,
    or, in a dry run, possibly in none. *)
Lemma syncMapping_step opts es l m l' w w' :
  syncMapping fuel opts es l m w = (Ok l', w') ->
  (skippedMappings l' = skippedMappings l ++ [m]
   /\ updatedMappings l' = updatedMappings l)
  \/ (skippedMappings l' = skippedMappings l
      /\ updatedMappings l' = updatedMappings l ++ (if dryRun opts then [] else [m])).
Proof.
  unfold syncMapping. intros H.
  apply bind_Ok in H as (srcE & w1 & _ & H).
  destruct (negb srcE).
  { destruct (default false (strict opts)); [discriminate|].
    inversion H. left. split; reflexivity. }
  apply bind_Ok in H as (tgtE & w2 & _ & H).
  destruct (tgtE && negb (force opts) && negb (isManaged (target m) es)).
  2:{ right. eapply syncApply_step, H. }
  apply bind_Ok in H as (d & w3 & _ & H).
  destruct (action d).
  - right. eapply syncApply_step, H.
  - apply bind_Ok in H as (u & w4 & _ & H). right. eapply syncApply_step, H.
  - inversion H. left. split; reflexivity.
  - discriminate.
Qed.

Lemma syncLoop_partition opts es ms : forall l w l' w',
  syncLoop fuel opts es l ms w = (Ok l', w') ->
  exists us ss,
    updatedMappings l' = updatedMappings l ++ us
    /\ skippedMappings l' = skippedMappings l ++ ss
    /\ us `sublist_of` ms /\ ss `sublist_of` ms
    /\ (dryRun opts = false -> ms ≡ₚ us ++ ss).
Proof.
  unfold syncLoop. induction ms as [|m ms IH]; intros l w l' w' H; simpl in H.
  - inversion H; subst. exists [], []. rewrite !app_nil_r. repeat split; auto.
  - apply bind_Ok in H as (l1 & w1 & H1 & H2).
    destruct (IH _ _ _ _ H2) as (us & ss & Hu & Hs & Hsu & Hss & Hperm).
    destruct (syncMapping_step _ _ _ _ _ _ _ H1) as [[Hs1 Hu1]|[Hs1 Hu1]].
    + exists us, (m :: ss). rewrite Hu, Hs, Hu1, Hs1, <- app_assoc.
      repeat split; auto.
      * apply sublist_cons, Hsu.
      * apply sublist_skip, Hss.
      * intros Hdry. rewrite (Hperm Hdry). apply Permutation_middle.
    + destruct (dryRun opts) eqn:Hdry.
      * exists us, ss. rewrite Hu, Hs, Hu1, Hs1, app_nil_r.
        repeat split; auto; try (apply sublist_cons; assumption). discriminate.
      * exists (m :: us), ss. rewrite Hu, Hs, Hu1, Hs1, <- app_assoc.
        repeat split; auto.
        -- apply sublist_skip, Hsu.
        -- apply sublist_cons, Hss.
        -- intros _. simpl. rewrite (Hperm eq_refl). reflexivity.
Qed.

End PartitionLemmas.


(** ** The plan *)

Lemma resolveSyncMode_not_auto lm :
  returns (resolveSyncMode lm)
          (fun md => md <> auto /\ (lm <> auto -> md = lm)).
Proof.
  intros w md w' H. destruct lm; simpl in H.
  - unfold bind, canCreateSymlink, ret in H.
    split; [|congruence].
    destruct (symlinkAllowed w _); inversion H; discriminate.
  - inversion H. split; [discriminate|reflexivity].
  - inversion H. split; [discriminate|reflexivity].
Qed.

Lemma has_slash_app s t : has_slash (s +:+ t) = has_slash s || has_slash t.
Proof.
  induction s as [|c s IH]; simpl; [reflexivity|].
  rewrite IH. apply orb_assoc.
Qed.

Lemma split_slash_no_slash s : forall cur,
  has_slash cur = false ->
  Forall (fun c => has_slash c = false) (split_slash s cur).
Proof.
  induction s as [|c s IH]; intros cur Hcur; simpl.
  - constructor; [exact Hcur|constructor].
  - destruct (Ascii.eqb c "/") eqn:Hc.
    + constructor; [exact Hcur|]. apply IH. reflexivity.
    + apply IH. rewrite has_slash_app, Hcur. simpl. rewrite Hc. reflexivity.
Qed.

Lemma normalised_removelast p : normalised p -> normalised (removelast p).
Proof.
  intros H. destruct (dirname_prefix p) as [k Hk]. unfold dirname in Hk.
  unfold normalised in *. rewrite Hk in H. apply Forall_app in H as [H _]. exact H.
Qed.

Lemma walk_normalised parts : forall base,
  normalised base -> Forall (fun c => has_slash c = false) parts ->
  normalised (walk base parts).
Proof.
  unfold walk. induction parts as [|c parts IH]; intros base Hb Hp; simpl; [exact Hb|].
  apply Forall_cons in Hp as [Hc Hp]. apply IH; [|exact Hp].
  destruct (decide (c = "" ∨ c = ".")) as [|Hn1]; [exact Hb|].
  destruct (decide (c = "..")) as [|Hn2]; [apply normalised_removelast, Hb|].
  apply Forall_app. split; [exact Hb|]. constructor; [|constructor].
  unfold is_name. tauto.
Qed.

(** [path.resolve] gives a normalised path whatever the text. *)
Lemma path_resolve_normalised from s :
  normalised from -> normalised (path_resolve from s).
Proof.
  intros H. unfold path_resolve. apply walk_normalised.
  - destruct (isAbsolute s); [constructor|exact H].
  - apply split_slash_no_slash. reflexivity.
Qed.

(** Without [..] the walk stays below where it starts. *)
Lemma walk_below parts : forall base,
  ".." ∉ parts -> base `prefix_of` walk base parts.
Proof.
  unfold walk. induction parts as [|c parts IH]; intros base Hp; simpl; [reflexivity|].
  assert (Hrest : ".." ∉ parts) by (intros H; apply Hp; right; exact H).
  destruct (decide (c = "" ∨ c = ".")) as [|Hn1]; [apply IH, Hrest|].
  destruct (decide (c = "..")) as [->|Hn2]; [exfalso; apply Hp; left|].
  etransitivity; [|apply IH, Hrest]. apply prefix_app_r. reflexivity.
Qed.

(** What one agent adds to the plan. *)
Lemma resolveMappings_each (P : ResolvedMapping -> Prop) cfg sr md pr lm af w ms w' :
  (forall name entry scope mf text,
      (name, entry) ∈ agents cfg ->
      (truthy af = true -> af = Some name) ->
      match md with global => cfg_global entry | project => cfg_project entry end
      = Some scope ->
      mf ∈ files scope ++ getProfileFiles cfg ->
      P {| agent := name;
           source := resolveFromRoot sr (mf_source mf);
           target := resolveFromRoot (path_resolve (cwd w) text) (mf_target mf);
           mode := lm |}) ->
  resolveMappings cfg sr md pr lm af w = (Ok ms, w') ->
  Forall P ms.
Proof.
  intros HP. unfold resolveMappings.
  assert (Hin : forall x, x ∈ agents cfg -> x ∈ agents cfg) by auto.
  revert Hin. generalize (agents cfg) at 1 3. intros l Hin.
  assert (Hnil : Forall P []) by constructor.
  revert Hnil. generalize (@nil ResolvedMapping). revert ms w'.
  induction l as [|[name entry] l IH]; intros ms w' acc Hacc H; simpl in H.
  - inversion H; subst. exact Hacc.
  - apply bind_Ok in H as (acc1 & w1 & H1 & H2).
    assert (Hstep : w1 = w /\ Forall P acc1).
    { clear H2 IH.
      destruct (truthy af && negb (bool_decide (af = Some name))) eqn:Hsel.
      { inversion H1; subst. auto. }
      assert (Haf : truthy af = true -> af = Some name).
      { intros Ht. rewrite Ht in Hsel. simpl in Hsel.
        apply negb_false_iff, bool_decide_eq_true in Hsel. exact Hsel. }
      destruct (match md with global => cfg_global entry | project => cfg_project entry end)
        as [scope|] eqn:Hscope.
      2:{ inversion H1; subst. auto. }
      apply bind_Ok in H1 as (rt & w2 & Hrt & H1).
      assert (w2 = w) as ->.
      { destruct md; [inversion Hrt; reflexivity|].
        destruct (negb (truthy pr)); [discriminate|inversion Hrt; reflexivity]. }
      apply bind_Ok in H1 as (e & w3 & He & H1). inversion He; subst w3.
      apply bind_Ok in H1 as (resolvedRoot & w4 & Hr & H1).
      unfold resolvePath in Hr. inversion Hr; subst w4.
      inversion H1; subst. split; [reflexivity|].
      apply Forall_app. split; [exact Hacc|].
      apply Forall_forall. intros m Hm. apply list_elem_of_fmap in Hm as (mf & -> & Hmf).
      eapply HP; [apply Hin; left| | |]; eauto. }
    destruct Hstep as [-> Hacc1].
    eapply IH; [intros x Hx; apply Hin; right; exact Hx|exact Hacc1|exact H2].
Qed.


(** ** Expansion of the environment *)

Lemma span_app f a b :
  all_chars f a = true ->
  match b with String c _ => f c = false | EmptyString => True end ->
  span f (a +:+ b) = (a, b).
Proof.
  intros Ha Hb. induction a as [|c a IH]; simpl in *.
  - destruct b as [|c b]; simpl; [reflexivity|]. rewrite Hb. reflexivity.
  - apply andb_true_iff in Ha as [Hc Ha]. rewrite Hc, (IH Ha). reflexivity.
Qed.

Lemma span_length f s a b : span f s = (a, b) -> String.length b <= String.length s.
Proof.
  revert a b. induction s as [|c s IH]; intros a b H; simpl in H.
  - inversion H. simpl. lia.
  - destruct (f c).
    + destruct (span f s) as [a' b'] eqn:Hs. inversion H; subst.
      specialize (IH _ _ eq_refl). simpl. lia.
    + inversion H; subst. simpl. lia.
Qed.

Lemma match_placeholder_length r name fb rest :
  match_placeholder r = Some (name, fb, rest) ->
  String.length rest < String.length r.
Proof.
  unfold match_placeholder. destruct (span is_name_char r) as [n r1] eqn:Hs.
  apply span_length in Hs.
  destruct (decide (n = "")); [discriminate|].
  destruct r1 as [|c r1]; [discriminate|].
  destruct (Ascii.eqb c "}") eqn:Hc.
  { apply Ascii.eqb_eq in Hc as ->. intros H. inversion H; subst. simpl in Hs. lia. }
  destruct (Ascii.eqb c ":") eqn:Hc2.
  2:{ intros H. exfalso. revert H.
      destruct c as [[] [] [] [] [] [] [] []]; try discriminate. }
  apply Ascii.eqb_eq in Hc2 as ->.
  destruct r1 as [|c' r1]; [discriminate|].
  destruct (Ascii.eqb c' "-") eqn:Hc3.
  2:{ intros H. exfalso. revert H.
      destruct c' as [[] [] [] [] [] [] [] []]; try discriminate. }
  apply Ascii.eqb_eq in Hc3 as ->.
  destruct (span (fun c => negb (Ascii.eqb c "}")) r1) as [f r2] eqn:Hs2.
  apply span_length in Hs2.
  destruct r2 as [|c'' r2]; [discriminate|].
  destruct (Ascii.eqb c'' "}") eqn:Hc4.
  2:{ intros H. exfalso. revert H.
      destruct c'' as [[] [] [] [] [] [] [] []]; try discriminate. }
  apply Ascii.eqb_eq in Hc4 as ->.
  intros H. inversion H; subst. simpl in *. lia.
Qed.

Lemma expandEnv_from_other n c s e :
  c <> "$"%char ->
  expandEnv_from (S n) (String c s) e = String c (expandEnv_from n s e).
Proof.
  intros Hc. destruct c as [[] [] [] [] [] [] [] []]; try reflexivity.
  contradiction.
Qed.

Lemma expandEnv_from_placeholder n r e :
  expandEnv_from (S n) (String "$" (String "{" r)) e =
  match match_placeholder r with
  | Some (varName, fallback, rest) =>
      replacement e varName fallback +:+ expandEnv_from n rest e
  | None => String "$" (expandEnv_from n (String "{" r) e)
  end.
Proof.
  simpl. destruct (match_placeholder r) as [[[varName fallback] rest]|]; [|reflexivity].
  unfold replacement. destruct (e !! varName), fallback; reflexivity.
Qed.

Lemma expandEnv_from_dollar n s e :
  match s with String "{" _ => False | _ => True end ->
  expandEnv_from (S n) (String "$" s) e = String "$" (expandEnv_from n s e).
Proof.
  intros Hs. destruct s as [|c s]; [reflexivity|].
  destruct c as [[] [] [] [] [] [] [] []]; try reflexivity. contradiction.
Qed.

(** More fuel than the length of the text changes nothing. *)
Lemma expandEnv_from_fuel e n : forall fuel s,
  String.length s <= n -> n <= fuel ->
  expandEnv_from fuel s e = expandEnv_from n s e.
Proof.
  induction n as [|n IH]; intros fuel s Hs Hf.
  - destruct s; [|simpl in Hs; lia]. destruct fuel; reflexivity.
  - destruct fuel as [|fuel]; [lia|].
    destruct s as [|c s]; [reflexivity|]. simpl in Hs.
    destruct (ascii_dec c "$") as [->|Hc].
    2:{ rewrite !expandEnv_from_other by exact Hc. f_equal. apply IH; lia. }
    destruct s as [|c' s].
    { rewrite !expandEnv_from_dollar by exact I. f_equal. apply IH; simpl; lia. }
    destruct (ascii_dec c' "{") as [->|Hc'].
    2:{ rewrite !expandEnv_from_dollar.
        - f_equal. apply IH; simpl in *; lia.
        - destruct c' as [[] [] [] [] [] [] [] []]; try exact I. contradiction.
        - destruct c' as [[] [] [] [] [] [] [] []]; try exact I. contradiction. }
    rewrite !expandEnv_from_placeholder.
    destruct (match_placeholder s) as [[[varName fallback] rest]|] eqn:Hm.
    + apply match_placeholder_length in Hm. f_equal. apply IH; simpl in *; lia.
    + f_equal. apply IH; simpl in *; lia.
Qed.

Lemma append_empty_r s : s +:+ "" = s.
Proof.
  induction s as [|c s IH]; [reflexivity|].
  change (String c s +:+ "") with (String c (s +:+ "")). f_equal. exact IH.
Qed.

Lemma expandEnv_cons_other c s e :
  c <> "$"%char -> expandEnv (String c s) e = String c (expandEnv s e).
Proof. intros Hc. unfold expandEnv. simpl String.length. apply expandEnv_from_other, Hc. Qed.

Lemma expandEnv_app_plain pre s e :
  all_chars (not_char "$") pre = true ->
  expandEnv (pre +:+ s) e = pre +:+ expandEnv s e.
Proof.
  induction pre as [|c pre IH]; intros H; [reflexivity|].
  simpl in H. apply andb_true_iff in H as [Hc H].
  change (String c pre +:+ s) with (String c (pre +:+ s)).
  rewrite expandEnv_cons_other, (IH H); [reflexivity|].
  intros ->. discriminate.
Qed.

Lemma is_name_char_brace : is_name_char "}" = false.
Proof. reflexivity. Qed.

Lemma match_placeholder_plain name rest :
  name <> "" -> all_chars is_name_char name = true ->
  match_placeholder (name +:+ String "}" rest) = Some (name, None, rest).
Proof.
  intros Hne Hn. unfold match_placeholder.
  rewrite (span_app is_name_char name (String "}" rest) Hn) by reflexivity.
  destruct (decide (name = "")); [contradiction|reflexivity].
Qed.

Lemma match_placeholder_fallback name fb rest :
  name <> "" -> all_chars is_name_char name = true ->
  all_chars (not_char "}") fb = true ->
  match_placeholder (name +:+ String ":" (String "-" (fb +:+ String "}" rest)))
  = Some (name, Some fb, rest).
Proof.
  intros Hne Hn Hfb. unfold match_placeholder.
  rewrite (span_app is_name_char name _ Hn) by reflexivity.
  destruct (decide (name = "")); [contradiction|].
  rewrite (span_app (fun c => negb (Ascii.eqb c "}")) fb (String "}" rest) Hfb)
    by reflexivity.
  reflexivity.
Qed.

Lemma expandEnv_placeholder_at r e varName fallback rest :
  match_placeholder r = Some (varName, fallback, rest) ->
  expandEnv (String "$" (String "{" r)) e
  = replacement e varName fallback +:+ expandEnv rest e.
Proof.
  intros Hm. unfold expandEnv. simpl String.length.
  rewrite expandEnv_from_placeholder, Hm. f_equal.
  apply expandEnv_from_fuel; [lia|].
  apply match_placeholder_length in Hm. lia.
Qed.


(** ** What can be raised *)

Lemma raises_ret {A} P (a : A) : raises P (ret a).
Proof. intros w e w' H. discriminate. Qed.

Lemma raises_throw {A} (P : exn -> Prop) e : P e -> raises P (@throw A e).
Proof. intros HP w e' w' H. inversion H; subst. exact HP. Qed.

Lemma raises_timeout {A} P : raises P (@timeout A).
Proof. intros w e w' H. discriminate. Qed.

(** The continuation may rely on what the first step returns. *)
Lemma raises_bind {A B} P (Q : A -> Prop) (c : M A) (k : A -> M B) :
  raises P c -> returns c Q -> (forall a, Q a -> raises P (k a)) -> raises P (bind c k).
Proof.
  intros Hc HQ Hk w e w' H.
  destruct (bind_inv _ _ _ _ _ H) as [(a & w1 & H1 & H2)|[(e' & H1 & He)|[H1 He]]].
  - eapply Hk; [eapply HQ, H1|exact H2].
  - inversion He; subst. eapply Hc, H1.
  - discriminate.
Qed.

Lemma raises_seq {A B} P (c : M A) (k : A -> M B) :
  raises P c -> (forall a, raises P (k a)) -> raises P (bind c k).
Proof.
  intros Hc Hk. apply (raises_bind P (fun _ => True)); auto. apply returns_any.
Qed.

(** What the handler does with the errors of the body. *)
Lemma raises_try_catch {A} P Q (c : M A) (h : exn -> M A) :
  raises Q c -> (forall e, Q e -> raises P (h e)) -> raises P (try_catch c h).
Proof.
  intros Hc Hh w e w' H. unfold try_catch in H.
  destruct (c w) as [[a|e0|] w1] eqn:Hcw; try discriminate.
  eapply Hh; [eapply Hc, Hcw|exact H].
Qed.

Lemma raises_foldM {A S} P (f : S -> A -> M S) (l : list A) :
  (forall s x, raises P (f s x)) -> forall s, raises P (foldM f s l).
Proof.
  intros Hf. induction l as [|x l IH]; intros s; simpl.
  - apply raises_ret.
  - apply raises_seq; [apply Hf|apply IH].
Qed.

Lemma raises_if {A} P (b : bool) (c1 c2 : M A) :
  raises P c1 -> raises P c2 -> raises P (if b then c1 else c2).
Proof. destruct b; auto. Qed.

Lemma raises_weaken {A} (P Q : exn -> Prop) (c : M A) :
  (forall e, P e -> Q e) -> raises P c -> raises Q c.
Proof. intros HPQ Hc w e w' H. apply HPQ. eapply Hc, H. Qed.

(** A computation that always returns raises nothing. *)
Lemma raises_never {A} P (c : M A) :
  (forall w, exists a w', c w = (Ok a, w')) -> raises P c.
Proof. intros Hc w e w' H. destruct (Hc w) as (a & w1 & Ha). congruence. Qed.

Lemma fs_lstat_errno p : raises errno (fs_lstat p).
Proof.
  intros w e w' H. rewrite fs_lstat_eq in H.
  destruct (fs w !! p); inversion H. reflexivity.
Qed.

Lemma fs_readdir_errno p : raises errno (fs_readdir p).
Proof.
  intros w e w' H. rewrite fs_readdir_eq in H.
  destruct (fs w !! p) as [[]|]; inversion H; reflexivity.
Qed.

Lemma fs_unlink_errno p : raises errno (fs_unlink p).
Proof.
  intros w e w' H. rewrite fs_unlink_eq in H.
  destruct (fs w !! p) as [[]|]; inversion H; reflexivity.
Qed.

Lemma fs_rmdir_errno p : raises errno (fs_rmdir p).
Proof.
  intros w e w' H. rewrite fs_rmdir_eq in H.
  destruct (fs w !! p) as [[]|]; try (inversion H; reflexivity).
  destruct (decide (p = [])); [inversion H; reflexivity|].
  destruct (entries (fs w) p); inversion H; reflexivity.
Qed.

Lemma fs_rm_rf_errno p : raises errno (fs_rm_rf p).
Proof.
  intros w e w' H. rewrite fs_rm_rf_eq in H.
  destruct (decide (p = [])); inversion H; reflexivity.
Qed.

Lemma mkdirs_errno rest : forall base m e m',
  mkdirs base rest m = (Some e, m') -> errno e.
Proof.
  induction rest as [|x rest IH]; intros base m e m' H; simpl in H.
  - destruct (m !! base) as [[]|]; inversion H; reflexivity.
  - destruct (m !! base) as [[]|] eqn:Hb; try (inversion H; reflexivity);
      eapply IH, H.
Qed.

Lemma fs_mkdir_p_errno p : raises errno (fs_mkdir_p p).
Proof.
  intros w e w' H. unfold fs_mkdir_p in H.
  destruct (mkdirs [] p (fs w)) as [[e0|] m'] eqn:Hm; inversion H; subst.
  eapply mkdirs_errno, Hm.
Qed.

Lemma fs_symlink_errno text p : raises errno (fs_symlink text p).
Proof.
  intros w e w' H. unfold fs_symlink in H.
  destruct (negb (symlinkAllowed w p)); [inversion H; reflexivity|].
  destruct (decide (p = [])); [inversion H; reflexivity|].
  destruct (fs w !! p); [inversion H; reflexivity|].
  destruct (fs w !! dirname p) as [[]|]; inversion H; reflexivity.
Qed.

Lemma read_through_errno hops : forall m p e,
  read_through hops m p = inl e -> errno e.
Proof.
  induction hops as [|hops IH]; intros m p e H; simpl in H;
    destruct (m !! p) as [[]|]; inversion H; try reflexivity.
  eapply IH. eassumption.
Qed.

Lemma fs_readFile_errno p : raises errno (fs_readFile p).
Proof.
  intros w e w' H. unfold fs_readFile in H.
  destruct (read_through 40 (fs w) p) as [e0|c] eqn:Hr; inversion H; subst.
  eapply read_through_errno, Hr.
Qed.

Lemma fs_writeFile_errno p c : raises errno (fs_writeFile p c).
Proof.
  intros w e w' H. unfold fs_writeFile in H.
  destruct (fs w !! p) as [[]|]; destruct (fs w !! dirname p) as [[]|];
    inversion H; reflexivity.
Qed.

Lemma fs_copyFile_errno src dst : raises errno (fs_copyFile src dst).
Proof.
  apply raises_seq; [apply fs_readFile_errno|intros c; apply fs_writeFile_errno].
Qed.

Lemma fileExists_never p P : raises P (fileExists p).
Proof. apply raises_never. intros w. rewrite fileExists_eq. eauto. Qed.

Lemma getTargetInfo_never p P : raises P (getTargetInfo p).
Proof. apply raises_never. intros w. rewrite getTargetInfo_eq. eauto. Qed.

Lemma copyFileOrDir_errno fuel : forall src dst,
  raises errno (copyFileOrDir fuel src dst).
Proof.
  induction fuel as [|fuel IH]; intros src dst; simpl; [apply raises_timeout|].
  apply raises_seq; [apply fs_lstat_errno|]. intros stat. apply raises_if.
  - apply raises_seq; [apply fs_mkdir_p_errno|]. intros _.
    apply raises_seq; [apply fs_readdir_errno|]. intros entries.
    apply raises_foldM. intros _ entry. apply IH.
  - apply raises_seq; [apply fs_mkdir_p_errno|]. intros _. apply fs_copyFile_errno.
Qed.

Lemma ensureTargetParent_errno p t ws : raises errno (ensureTargetParent p t ws).
Proof.
  unfold ensureTargetParent. apply raises_seq; [apply fileExists_never|].
  intros parentExists. apply raises_if;
    (apply raises_seq; [apply fs_mkdir_p_errno|intros _; apply raises_ret]).
Qed.

Lemma removeDirectory_errno t allow : raises errno (removeDirectory t allow).
Proof.
  unfold removeDirectory, removeEmptyDirectory. apply raises_if.
  - apply raises_seq; [apply fs_readdir_errno|]. intros entries.
    apply raises_if; [apply raises_ret|].
    apply raises_seq; [apply fs_rmdir_errno|intros _; apply raises_ret].
  - apply raises_seq; [apply fs_rm_rf_errno|intros _; apply raises_ret].
Qed.

(** With permission, [removeDirectory] never answers no. *)
Lemma removeDirectory_allowed t allow :
  returns (removeDirectory t allow) (fun removed => removed = false -> allow = false).
Proof.
  intros w removed w' H. destruct allow; [|reflexivity].
  unfold removeDirectory in H. simpl in H.
  apply bind_Ok in H as (u & w1 & _ & H). inversion H. discriminate.
Qed.

Section ErrorLemmas.

Variable fuel : nat.

Lemma remove_or_refuse_raises t allow :
  raises (apply_error t allow)
    (let! removed := removeDirectory t allow in
     if negb removed then throw (refuse t) else ret tt).
Proof.
  eapply raises_bind.
  - eapply raises_weaken; [|apply removeDirectory_errno]. intros e He. left. exact He.
  - apply removeDirectory_allowed.
  - intros removed Hr. destruct removed; simpl; [apply raises_ret|].
    apply raises_throw. right. auto.
Qed.

Lemma applyCopyMapping_raises m o :
  raises (apply_error (target m) (default false o)) (applyCopyMapping fuel m o).
Proof.
  assert (Hweak : forall A (c : M A), raises errno c ->
                    raises (apply_error (target m) (default false o)) c).
  { intros A c. apply raises_weaken. intros e He. left. exact He. }
  unfold applyCopyMapping.
  apply raises_seq; [apply Hweak, fs_lstat_errno|]. intros sourceStat.
  apply raises_seq; [apply getTargetInfo_never|]. intros existing.
  assert (Hrest : raises (apply_error (target m) (default false o))
                    (ensureTargetParent (dirname (target m)) (target m) None ;;;
                     copyFileOrDir fuel (source m) (target m))).
  { apply raises_seq; [apply Hweak, ensureTargetParent_errno|].
    intros _. apply Hweak, copyFileOrDir_errno. }
  apply raises_if.
  - apply raises_seq.
    { destruct existing as [info|]; [|apply raises_ret].
      apply raises_if; [apply Hweak, fs_unlink_errno|apply raises_ret]. }
    intros _. apply raises_seq; [|intros _; exact Hrest].
    destruct existing as [info|]; [|apply raises_ret].
    apply raises_if; [apply remove_or_refuse_raises|apply raises_ret].
  - apply raises_seq; [|intros _; exact Hrest].
    destruct existing as [info|]; [|apply raises_ret].
    apply raises_if; [apply remove_or_refuse_raises|apply Hweak, fs_unlink_errno].
Qed.

Lemma apply_error_not_errno t allow e :
  apply_error t allow e -> instanceof_AgentConfigError e = true ->
  e = refuse t /\ allow = false.
Proof.
  intros [He|H] Hi; [|exact H]. destruct e; simpl in *; discriminate.
Qed.

Lemma applyMapping_raises m ws o :
  raises (apply_error (target m) (default false o)) (applyMapping fuel m ws o).
Proof.
  assert (Hweak : forall A (c : M A), raises errno c ->
                    raises (apply_error (target m) (default false o)) c).
  { intros A c. apply raises_weaken. intros e He. left. exact He. }
  unfold applyMapping.
  destruct (decide (mode m = copy)).
  { apply raises_seq; [apply (applyCopyMapping_raises m (Some (default false o)))|].
    intros _. apply raises_ret. }
  apply raises_seq; [apply Hweak, ensureTargetParent_errno|]. intros pushed.
  eapply raises_try_catch with (Q := apply_error (target m) (default false o)).
  - apply raises_seq; [apply Hweak, fs_lstat_errno|]. intros sourceStat.
    apply raises_seq; [apply getTargetInfo_never|]. intros existing.
    assert (Hcreate : forall ws0 : list string,
               raises (apply_error (target m) (default false o))
                      (fs_symlink (render (source m)) (target m) ;;; ret ws0)).
    { intros ws0. apply raises_seq; [apply Hweak, fs_symlink_errno|].
      intros _. apply raises_ret. }
    destruct existing as [info|]; [|apply Hcreate].
    apply raises_if.
    + destruct (decide _); [apply raises_ret|].
      apply raises_seq; [apply Hweak, fs_unlink_errno|intros _; apply Hcreate].
    + apply raises_if.
      * eapply raises_bind.
        -- apply Hweak, removeDirectory_errno.
        -- apply removeDirectory_allowed.
        -- intros removed Hr. destruct removed; simpl; [apply Hcreate|].
           apply raises_throw. right. auto.
      * apply raises_seq; [apply Hweak, fs_unlink_errno|intros _; apply Hcreate].
  - intros e He. destruct (instanceof_AgentConfigError e) eqn:Hi.
    + apply raises_throw. exact He.
    + apply raises_seq; [apply (applyCopyMapping_raises m (Some (default false o)))|].
      intros _. apply raises_ret.
Qed.

Lemma syncApply_raises opts m cs allow l :
  raises (fun e => (e = refuse (target m) /\ allow = false)
                   \/ e = AgentConfigError ("Failed to sync " +:+ render (target m))
                                           ExitCodes.Filesystem)
         (syncApply fuel opts m cs allow l).
Proof.
  unfold syncApply. apply raises_if; [apply raises_ret|].
  apply raises_seq; [|intros ws; apply raises_ret].
  apply (raises_try_catch _ (apply_error (target m) allow)).
  - apply (applyMapping_raises m (loop_warnings l) (Some allow)).
  - intros e0 He0. destruct (instanceof_AgentConfigError e0) eqn:Hi.
    + apply raises_throw. left. apply apply_error_not_errno; assumption.
    + apply raises_throw. right. reflexivity.
Qed.

End ErrorLemmas.


Lemma errno_failure opts e : errno e -> failure opts e.
Proof. destruct e; try discriminate. intros _. constructor. Qed.

Lemma fs_readlink_errno p : raises errno (fs_readlink p).
Proof.
  intros w e w' H. unfold fs_readlink, bind, get_fs in H.
  destruct (fs w !! p) as [[]|]; inversion H; reflexivity.
Qed.

Lemma readLinkTarget_errno p : raises errno (readLinkTarget p).
Proof.
  unfold readLinkTarget. apply (raises_try_catch _ errno).
  - apply raises_seq; [apply fs_readlink_errno|intros text; apply raises_ret].
  - intros e He. apply raises_if; [apply raises_ret|apply raises_throw, He].
Qed.

Lemma readState_raises sr :
  raises (fun e => errno e
                   \/ exists message,
                        e = AgentConfigError ("Invalid JSON in " +:+ render (getStatePath sr)
                                              +:+ ": " +:+ message) ExitCodes.Validation)
         (readState sr).
Proof.
  unfold readState.
  apply (raises_try_catch _ (fun e => errno e \/ exists msg, e = SyntaxError msg)).
  - apply raises_seq.
    { eapply raises_weaken; [|apply fs_readFile_errno]. auto. }
    intros raw. apply raises_seq; [|intros doc; apply raises_ret].
    destruct raw; simpl; [apply raises_throw; eauto|apply raises_ret].
  - intros e He. apply raises_if; [apply raises_ret|].
    destruct He as [He|[msg ->]].
    + destruct e; try discriminate. apply raises_throw. left. reflexivity.
    + apply raises_throw. right. eauto.
Qed.

Lemma resolveMappings_raises cfg sr md pr lm af :
  raises (fun e => e = AgentConfigError "Project root is required for project mode"
                                        ExitCodes.Validation)
         (resolveMappings cfg sr md pr lm af).
Proof.
  unfold resolveMappings. apply raises_foldM. intros mappings [name entry].
  apply raises_if; [apply raises_ret|].
  destruct (match md with global => cfg_global entry | project => cfg_project entry end);
    [|apply raises_ret].
  apply raises_seq.
  { destruct md; [apply raises_ret|].
    apply raises_if; [apply raises_throw; reflexivity|apply raises_ret]. }
  intros rt. apply raises_seq; [intros w0 e0 w0' H0; discriminate H0|].
  intros e. apply raises_seq; [intros w0 e0 w0' H0; discriminate H0|].
  intros resolvedRoot. apply raises_ret.
Qed.

Lemma resolveSyncMode_never lm P : raises P (resolveSyncMode lm).
Proof.
  apply raises_never. intros w0.
  destruct lm; simpl; unfold bind, canCreateSymlink, ret; eauto.
Qed.

Section FailureLemmas.

Variable fuel : nat.
Variable hashPath : gmap path node -> path -> string.

Lemma backupTarget_errno t sr : raises errno (backupTarget fuel t sr).
Proof.
  unfold backupTarget. apply raises_seq; [intros w0 e0 w0' H0; discriminate H0|].
  intros iso. apply raises_seq; [apply fs_mkdir_p_errno|].
  intros _. apply copyFileOrDir_errno.
Qed.

Lemma syncMapping_raises opts es l m :
  raises (failure opts) (syncMapping fuel opts es l m).
Proof.
  assert (Happly : forall cs allow,
             raises (failure opts) (syncApply fuel opts m cs allow l)).
  { intros cs allow. eapply raises_weaken; [|apply syncApply_raises].
    intros e [[-> _] | ->]; constructor. }
  unfold syncMapping.
  apply raises_seq; [apply fileExists_never|]. intros sourceExists.
  apply raises_if.
  { destruct (strict opts) as [[]|] eqn:Hstrict; simpl;
      [apply raises_throw; constructor; exact Hstrict|apply raises_ret..]. }
  apply raises_seq; [apply fileExists_never|]. intros targetExists.
  destruct (targetExists && negb (force opts) && negb (isManaged (target m) es))
    eqn:Hconflict; [|apply Happly].
  assert (Hforce : force opts = false).
  { destruct (force opts); [|reflexivity].
    rewrite andb_false_r in Hconflict. discriminate. }
  apply raises_seq.
  { apply raises_never. intros w. apply resolveConflictPolicy_total. }
  intros d. destruct (action d).
  - apply Happly.
  - apply raises_seq; [|intros _; apply Happly].
    apply raises_if; [|apply raises_ret].
    eapply raises_weaken; [apply errno_failure|apply backupTarget_errno].
  - apply raises_ret.
  - apply raises_throw. constructor. exact Hforce.
Qed.

Lemma buildState_errno sr md pr ms es :
  raises errno (buildState hashPath sr md pr ms es).
Proof.
  unfold buildState. apply raises_seq.
  - apply raises_foldM. intros files mapping.
    apply raises_seq; [apply fs_lstat_errno|]. intros stat.
    apply raises_seq; [intros w0 e0 w0' H0; discriminate H0|]. intros meta.
    apply raises_seq.
    { destruct (decide _); [|apply raises_ret].
      apply raises_seq; [intros w0 e0 w0' H0; discriminate H0|intros; apply raises_ret]. }
    intros hash. apply raises_seq; [|intros; apply raises_ret].
    destruct (decide _); [apply readLinkTarget_errno|apply raises_ret].
  - intros files. apply raises_seq; [intros w0 e0 w0' H0; discriminate H0|].
    intros; apply raises_ret.
Qed.

Lemma writeState_errno sr st : raises errno (writeState sr st).
Proof.
  unfold writeState. apply raises_seq; [apply fs_mkdir_p_errno|].
  intros _. apply fs_writeFile_errno.
Qed.

End FailureLemmas.


(** ** The terminal and the conflict policy *)

Lemma fs_symlink_host text p : keeps same_host (fs_symlink text p).
Proof.
  intros w r w' H. unfold fs_symlink in H.
  destruct (negb (symlinkAllowed w p)); [inversion H; reflexivity|].
  destruct (decide (p = [])); [inversion H; reflexivity|].
  destruct (fs w !! p); [inversion H; reflexivity|].
  destruct (fs w !! dirname p) as [[]|]; inversion H; subst;
    try reflexivity; apply set_fs_host.
Qed.

Lemma question_host : keeps same_host question.
Proof.
  intros w r w' H. unfold question in H. inversion H; subst.
  unfold same_host. simpl. auto.
Qed.

Lemma now_ISO_host : keeps same_host now_ISO.
Proof.
  intros w r w' H. unfold now_ISO in H. inversion H; subst.
  unfold same_host. simpl. auto.
Qed.

Lemma resolveConflictPolicy_host target cs :
  keeps same_host (resolveConflictPolicy target cs).
Proof.
  unfold resolveConflictPolicy. destruct (policy cs); [apply keeps_ret; apply _|].
  apply keeps_bind; [apply _|apply keeps_pure; [apply _|reflexivity]|].
  intros tty. apply keeps_if; [apply keeps_ret; apply _|].
  apply keeps_bind; [apply _| |intros [act applyToAll]; apply keeps_ret; apply _].
  unfold promptConflictAction.
  apply keeps_bind; [apply _|apply question_host|]. intros choice.
  apply keeps_bind; [apply _|apply question_host|]. intros answer.
  destruct (parseInt (trim choice)) as [z|]; [|apply keeps_ret; apply _].
  repeat match goal with
         | |- context [match ?x with _ => _ end] => is_var x; destruct x
         end; apply keeps_ret; apply _.
Qed.

Section HostLemmas.

Variable fuel : nat.

Lemma applyMapping_host m ws o : keeps same_host (applyMapping fuel m ws o).
Proof.
  unfold applyMapping. destruct (decide (mode m = copy)).
  { apply keeps_bind; [apply _|apply applyCopyMapping_host|].
    intros _. apply keeps_ret; apply _. }
  apply keeps_bind; [apply _|apply ensureTargetParent_host|]. intros pushed.
  assert (Hcreate : forall ws0 : list string,
             keeps same_host (fs_symlink (render (source m)) (target m) ;;; ret ws0)).
  { intros ws0. apply keeps_bind; [apply _|apply fs_symlink_host|].
    intros _. apply keeps_ret; apply _. }
  apply keeps_try_catch; [apply _| |].
  - apply keeps_bind; [apply _| |].
    { eapply keeps_weaken; [apply same_world_host|apply fs_lstat_same_world]. }
    intros sourceStat. apply keeps_bind; [apply _| |].
    { eapply keeps_weaken; [apply same_world_host|apply getTargetInfo_same_world]. }
    intros existing. destruct existing as [info|]; [|apply Hcreate].
    apply keeps_if.
    + destruct (decide _); [apply keeps_ret; apply _|].
      apply keeps_bind; [apply _|apply fs_unlink_host|intros _; apply Hcreate].
    + apply keeps_if.
      * apply keeps_bind; [apply _|apply removeDirectory_host|].
        intros removed. apply keeps_if; [apply keeps_throw; apply _|apply Hcreate].
      * apply keeps_bind; [apply _|apply fs_unlink_host|intros _; apply Hcreate].
  - intros e. apply keeps_if; [apply keeps_throw; apply _|].
    apply keeps_bind; [apply _|apply applyCopyMapping_host|].
    intros _. apply keeps_ret; apply _.
Qed.

Lemma backupTarget_host t sr : keeps same_host (backupTarget fuel t sr).
Proof.
  unfold backupTarget. apply keeps_bind; [apply _|apply now_ISO_host|].
  intros iso. apply keeps_bind; [apply _|apply fs_mkdir_p_host|].
  intros _. apply copyFileOrDir_host.
Qed.

Lemma syncApply_host opts m cs allow l : keeps same_host (syncApply fuel opts m cs allow l).
Proof.
  unfold syncApply. apply keeps_if; [apply keeps_ret; apply _|].
  apply keeps_bind; [apply _| |intros ws; apply keeps_ret; apply _].
  apply keeps_try_catch; [apply _|apply applyMapping_host|].
  intros e. apply keeps_if; apply keeps_throw; apply _.
Qed.

Lemma syncApply_state opts m cs allow l :
  returns (syncApply fuel opts m cs allow l) (fun l' => conflictState l' = cs).
Proof.
  intros w l' w' H. unfold syncApply in H. destruct (dryRun opts).
  - inversion H. reflexivity.
  - apply bind_Ok in H as (ws & w1 & _ & H). inversion H. reflexivity.
Qed.

Lemma syncMapping_host opts es l m : keeps same_host (syncMapping fuel opts es l m).
Proof.
  unfold syncMapping.
  apply keeps_bind; [apply _| |].
  { eapply keeps_weaken; [apply same_world_host|apply fileExists_same_world]. }
  intros srcE. apply keeps_if.
  { apply keeps_if; [apply keeps_throw|apply keeps_ret]; apply _. }
  apply keeps_bind; [apply _| |].
  { eapply keeps_weaken; [apply same_world_host|apply fileExists_same_world]. }
  intros tgtE. apply keeps_if; [|apply syncApply_host].
  apply keeps_bind; [apply _|apply resolveConflictPolicy_host|].
  intros d. destruct (action d).
  - apply syncApply_host.
  - apply keeps_bind; [apply _| |intros _; apply syncApply_host].
    apply keeps_if; [apply backupTarget_host|apply keeps_ret; apply _].
  - apply keeps_ret; apply _.
  - apply keeps_throw; apply _.
Qed.

(** Without a terminal, and unless the policy is to cancel, no decision is
    to cancel, and the policy does not become so. *)
Lemma resolveConflictPolicy_unattended target cs w d w' :
  isTTY w = false -> policy cs <> Some cancel ->
  resolveConflictPolicy target cs w = (Ok d, w') ->
  action d <> cancel /\ policy (state d) <> Some cancel.
Proof.
  intros Htty Hpol H. destruct (policy cs) as [p|] eqn:Hp.
  - rewrite (resolveConflictPolicy_fixed _ _ _ _ Hp) in H. inversion H; subst. simpl.
    split; congruence.
  - rewrite resolveConflictPolicy_cannot_ask in H by auto.
    inversion H; subst. simpl. split; discriminate.
Qed.

Lemma syncMapping_unattended opts es l m w r w' :
  isTTY w = false -> policy (conflictState l) <> Some cancel ->
  syncMapping fuel opts es l m w = (r, w') ->
  match r with
  | Ok l' => policy (conflictState l') <> Some cancel
  | Throw e => forall message, e <> AgentConfigError message ExitCodes.Conflict
  | Timeout => True
  end.
Proof.
  intros Htty Hpol H.
  assert (Happly : forall cs allow w0 r0 w0',
             policy cs <> Some cancel ->
             syncApply fuel opts m cs allow l w0 = (r0, w0') ->
             match r0 with
             | Ok l' => policy (conflictState l') <> Some cancel
             | Throw e => forall message, e <> AgentConfigError message ExitCodes.Conflict
             | Timeout => True
             end).
  { intros cs allow w0 r0 w0' Hcs H0. destruct r0 as [l'|e|]; [| |exact I].
    - rewrite (syncApply_state opts m cs allow l _ _ _ H0). exact Hcs.
    - intros message ->.
      destruct (syncApply_raises fuel opts m cs allow l _ _ _ H0) as [[He _]|He];
        discriminate He. }
  unfold syncMapping in H.
  rewrite (bind_eq_Ok _ _ _ _ _ (fileExists_eq _ _)) in H.
  destruct (negb _).
  { destruct (default false (strict opts)); inversion H; subst; [discriminate|exact Hpol]. }
  rewrite (bind_eq_Ok _ _ _ _ _ (fileExists_eq _ _)) in H.
  destruct (_ && _ && _); [|eapply Happly; eassumption].
  destruct (resolveConflictPolicy_total (target m) (conflictState l) w) as (d & w1 & Hd).
  rewrite (bind_eq_Ok _ _ _ _ _ Hd) in H.
  destruct (resolveConflictPolicy_unattended _ _ _ _ _ Htty Hpol Hd) as [Hact Hst].
  destruct (action d); [| | |contradiction].
  - eapply Happly; eassumption.
  - destruct (bind_inv _ _ _ _ _ H) as [(u & w2 & _ & H2)|[(e & H1 & ->)|[_ ->]]];
      [eapply Happly; eassumption| |exact I].
    intros message ->. destruct (negb (dryRun opts)); [|discriminate].
    pose proof (backupTarget_errno fuel _ _ _ _ _ H1) as He. discriminate He.
  - inversion H; subst. exact Hst.
Qed.

Lemma syncLoop_unattended opts es ms : forall l w r w',
  isTTY w = false -> policy (conflictState l) <> Some cancel ->
  syncLoop fuel opts es l ms w = (r, w') ->
  forall e, r = Throw e -> forall message, e <> AgentConfigError message ExitCodes.Conflict.
Proof.
  unfold syncLoop. induction ms as [|m ms IH]; intros l w r w' Htty Hpol H; simpl in H.
  - inversion H; subst. discriminate.
  - destruct (bind_inv _ _ _ _ _ H) as [(l1 & w1 & H1 & H2)|[(e1 & H1 & ->)|[_ ->]]].
    + pose proof (syncMapping_unattended _ _ _ _ _ _ _ Htty Hpol H1) as Hl1.
      destruct (syncMapping_host opts es l m _ _ _ H1) as (_ & Htty1 & _).
      eapply IH; [|exact Hl1|exact H2]. congruence.
    + intros e He. inversion He; subst.
      exact (syncMapping_unattended _ _ _ _ _ _ _ Htty Hpol H1).
    + discriminate.
Qed.

End HostLemmas.


(** ** More on copies *)

(** Creating directories does not change what a path reads as, when it
    reads as a file. *)
Lemma read_through_grown (t : path) (m m' : gmap path node) (hops : nat) :
  forall (p : path) c,
  grown_map t m m' ->
  read_through hops m' p = inr c -> read_through hops m p = inr c.
Proof.
  induction hops as [|hops IH]; intros p c Hg H; simpl in *.
  - destruct (Hg p) as [Heq|(Hn & Hd & _)].
    + rewrite <- Heq. exact H.
    + rewrite Hd in H. discriminate.
  - destruct (Hg p) as [Heq|(Hn & Hd & _)].
    + rewrite <- Heq. destruct (m' !! p) as [[]|]; try exact H.
      eapply IH; eassumption.
    + rewrite Hd in H. discriminate.
Qed.

Lemma copy_entries_keep_directory fuel src dst (entries : list string) :
  forall w w',
    fs w !! dst = Some Dir ->
    forM_ (fun entry => copyFileOrDir fuel (join src [entry]) (join dst [entry]))
          entries w = (Ok tt, w') ->
    fs w' !! dst = Some Dir.
Proof.
  unfold forM_. induction entries as [|x entries IH]; intros w w' Hd H; simpl in H.
  - inversion H; subst. exact Hd.
  - apply bind_Ok in H as ([] & w1 & H1 & H2).
    eapply IH; [|exact H2].
    eapply within_present; [eapply copyFileOrDir_within, H1| |exact Hd].
    unfold join. intros Hpre. apply prefix_length in Hpre.
    rewrite length_app in Hpre. simpl in Hpre. lia.
Qed.


(** What a successful copy leaves at the destination. *)
Lemma copyFileOrDir_result fuel src dst w w' :
  copyFileOrDir fuel src dst w = (Ok tt, w') ->
  match fs w !! src with
  | Some Dir => fs w' !! dst = Some Dir
  | Some (File c) => fs w' !! dst = Some (File c)
  | Some (Symlink text) =>
      exists c, read_through 40 (fs w) src = inr c /\ fs w' !! dst = Some (File c)
  | None => False
  end.
Proof.
  intros H. destruct fuel as [|fuel]; [discriminate|]. simpl in H.
  apply bind_Ok in H as (stat & w0 & Hstat & H).
  rewrite fs_lstat_eq in Hstat.
  destruct (fs w !! src) as [n|] eqn:Hsrc; [|discriminate].
  inversion Hstat; subst stat w0. clear Hstat.
  destruct n as [c| |text]; simpl in H.
  - apply bind_Ok in H as ([] & w1 & Hmk & H). unfold fs_copyFile in H.
    apply bind_Ok in H as (c' & w2 & Hread & Hwrite).
    pose proof (grown_present _ _ _ _ _ (fs_mkdir_p_grown _ _ _ _ Hmk) Hsrc) as Hsrc1.
    rewrite (fs_readFile_file _ _ _ Hsrc1) in Hread. inversion Hread; subst c' w2.
    apply fs_writeFile_Ok in Hwrite. rewrite Hwrite. apply lookup_insert_eq.
  - apply bind_Ok in H as ([] & w1 & Hmk & H).
    apply bind_Ok in H as (entries & w2 & Hrd & H).
    pose proof (fs_readdir_same_world _ _ _ _ Hrd) as Hw. unfold same_world in Hw. subst w2.
    eapply copy_entries_keep_directory; [|exact H].
    eapply fs_mkdir_p_made; [exact Hmk|reflexivity].
  - apply bind_Ok in H as ([] & w1 & Hmk & H). unfold fs_copyFile in H.
    apply bind_Ok in H as (c & w2 & Hread & Hwrite).
    unfold fs_readFile in Hread.
    destruct (read_through 40 (fs w1) src) as [e|c0] eqn:Hrt; [discriminate|].
    inversion Hread; subst c0 w2. exists c. split.
    + eapply read_through_grown; [|exact Hrt].
      exact (fs_mkdir_p_grown _ _ _ _ Hmk).
    + apply fs_writeFile_Ok in Hwrite. rewrite Hwrite. apply lookup_insert_eq.
Qed.

Lemma copyFileOrDir_regular fuel src dst w w' :
  copyFileOrDir fuel src dst w = (Ok tt, w') ->
  exists n, fs w' !! dst = Some n /\ regular n = true.
Proof.
  intros H. apply copyFileOrDir_result in H.
  destruct (fs w !! src) as [[c| |text]|]; [eauto..|contradiction].
  destruct H as (c & _ & H). eauto.
Qed.


(** ** The state store and the drift detector *)

(** [mkdir -p] succeeds when nothing but directories is in the way. *)
Lemma mkdirs_free rest : forall base m,
  (forall k, base `prefix_of` k -> k `prefix_of` base ++ rest ->
             m !! k = None \/ m !! k = Some Dir) ->
  exists m', mkdirs base rest m = (None, m').
Proof.
  induction rest as [|x rest IH]; intros base m Hfree; simpl.
  - destruct (Hfree base) as [-> | ->]; [reflexivity|rewrite app_nil_r; reflexivity|eauto..].
  - assert (Hbase : m !! base = None \/ m !! base = Some Dir).
    { apply Hfree; [reflexivity|apply prefix_app_r; reflexivity]. }
    assert (Hnext : forall m0,
               (forall k, m0 !! k = m !! k \/ k = base) ->
               exists m', mkdirs (base ++ [x]) rest m0 = (None, m')).
    { intros m0 Hm0. apply IH. intros k Hk1 Hk2.
      rewrite <- app_assoc in Hk2. simpl in Hk2.
      destruct (Hm0 k) as [-> | ->].
      - apply Hfree; [|exact Hk2]. etransitivity; [|exact Hk1].
        apply prefix_app_r. reflexivity.
      - apply prefix_length in Hk1. rewrite length_app in Hk1. simpl in Hk1. lia. }
    destruct Hbase as [Hb|Hb]; rewrite Hb.
    + apply Hnext. intros k. destruct (decide (k = base)) as [->|Hne]; [right; reflexivity|].
      left. apply lookup_insert_ne. congruence.
    + apply Hnext. intros k. left. reflexivity.
Qed.

Lemma fs_mkdir_p_free p w :
  (forall k, k `prefix_of` p -> fs w !! k = None \/ fs w !! k = Some Dir) ->
  exists w', fs_mkdir_p p w = (Ok tt, w').
Proof.
  intros Hfree. unfold fs_mkdir_p.
  destruct (mkdirs_free p [] (fs w)) as [m' Hm'].
  - intros k _ Hk. apply Hfree. exact Hk.
  - rewrite Hm'. eauto.
Qed.

Section StatusTotal.

Variable hashPath : gmap path node -> path -> string.

(** With a snapshot at hand, [getStatus] returns, without changing
    anything, one entry for each record. *)
Lemma getStatus_returns stateRoot w st :
  readState stateRoot w = (Ok (Some st), w) ->
  exists entries,
    getStatus hashPath stateRoot w = (Ok entries, w)
    /\ Forall2 (fun e kv => entry_path e = rec_path kv.2
                            /\ verdict e = classify hashPath (fs w) kv.2)
               entries (st_files st).
Proof.
  intros Hread. unfold getStatus. rewrite (bind_eq_Ok _ _ _ _ _ Hread).
  match goal with
  | |- context [foldM ?f [] _] =>
      assert (H : forall (records : list (path * SyncRecord)) acc,
                 exists es,
                   foldM f acc (map snd records) w = (Ok (acc ++ es), w)
                   /\ Forall2 (fun e kv => entry_path e = rec_path kv.2
                                           /\ verdict e = classify hashPath (fs w) kv.2)
                              es records)
  end.
  { induction records as [|[k record] records IH]; intros acc.
    - exists []. rewrite app_nil_r. split; [reflexivity|constructor].
    - destruct (getStatus_record hashPath acc record w) as (e & He & Hp & Hv).
      destruct (IH (acc ++ [e])) as (es & Hes & Hall).
      exists (e :: es). split; [|constructor; [split; assumption|exact Hall]].
      simpl. rewrite (bind_eq_Ok _ _ _ _ _ He). rewrite Hes.
      rewrite <- app_assoc. reflexivity. }
  destruct (H (st_files st) []) as (es & H1 & H2). exists es. auto.
Qed.

End StatusTotal.


(** ** The snapshot after a run *)

Lemma files_set_keys {A} k (v : A) l :
  NoDup l.*1 -> NoDup (files_set k v l).*1.
Proof.
  assert (Hin : forall k' l0, k' ∈ (files_set k v l0).*1 -> k' = k \/ k' ∈ l0.*1).
  { intros k' l0. induction l0 as [|[k0 v0] l0 IH]; simpl.
    - intros H. apply list_elem_of_singleton in H. auto.
    - destruct (decide (k0 = k)) as [->|Hne]; simpl.
      + intros H. apply elem_of_cons in H as [->|H]; [auto|]. right. right. exact H.
      + intros H. apply elem_of_cons in H as [->|H]; [right; left|].
        destruct (IH H) as [->|H']; [auto|]. right. right. exact H'. }
  induction l as [|[k0 v0] l IH]; simpl; intros Hnd.
  - repeat constructor. intros H. inversion H.
  - apply NoDup_cons in Hnd as [Hk0 Hnd].
    destruct (decide (k0 = k)) as [->|Hne]; simpl.
    + apply NoDup_cons. split; assumption.
    + apply NoDup_cons. split; [|apply IH, Hnd].
      intros H. destruct (Hin _ _ H) as [->|H']; [congruence|contradiction].
Qed.

Lemma files_get_In {A} k (v : A) l :
  NoDup l.*1 -> (k, v) ∈ l -> files_get k l = Some v.
Proof.
  unfold files_get. induction l as [|[k0 v0] l IH]; intros Hnd Hin; [inversion Hin|].
  simpl in Hnd. apply NoDup_cons in Hnd as [Hk0 Hnd]. simpl.
  apply elem_of_cons in Hin as [Heq|Hin].
  - inversion Heq; subst. rewrite bool_decide_eq_true_2 by reflexivity. reflexivity.
  - rewrite bool_decide_eq_false_2.
    + apply IH; assumption.
    + simpl. intros ->. apply Hk0. apply list_elem_of_fmap. exists (k, v). auto.
Qed.

Lemma Forall2_impl_in {A B} (P Q : A -> B -> Prop) (l : list A) (k : list B) :
  Forall2 P l k -> (forall x y, y ∈ k -> P x y -> Q x y) -> Forall2 Q l k.
Proof.
  induction 1 as [|x y l k Hxy _ IH]; intros HPQ; constructor.
  - apply HPQ; [left|exact Hxy].
  - apply IH. intros x' y' Hy'. apply HPQ. right. exact Hy'.
Qed.

Section DriftLemmas.

Variable hashPath : gmap path node -> path -> string.

Lemma buildState_step_recorded files mapping w files' w' :
  (let! stat := fs_lstat (target mapping) in
   let! meta := get_statMeta (target mapping) in
   let isLink := isSymbolicLink stat in
   let modeValue := if isLink then link else copy in
   let! hash :=
     if decide (modeValue = copy)
     then (let! m := get_fs in ret (Some (hashPath m (target mapping))))
     else ret None in
   let! linkTarget :=
     if decide (modeValue = link) then readLinkTarget (target mapping)
     else ret None in
   let record :=
     {| rec_path := target mapping;
        rec_source := source mapping;
        rec_agent := agent mapping;
        rec_mode := modeValue;
        rec_size := meta.1;
        rec_mtimeMs := meta.2;
        rec_hash := hash;
        rec_linkTarget := linkTarget |} in
   ret (files_set (target mapping) record files)) w = (Ok files', w') ->
  w' = w /\ exists r, files' = files_set (target mapping) r files
                      /\ recorded hashPath (fs w) (target mapping) r.
Proof.
  intros H. apply bind_Ok in H as (stat & w1 & Hstat & H).
  rewrite fs_lstat_eq in Hstat.
  destruct (fs w !! target mapping) as [n|] eqn:Hn; [|discriminate].
  inversion Hstat; subst stat w1. clear Hstat.
  apply bind_Ok in H as (meta & w1 & Hmeta & H). inversion Hmeta; subst meta w1.
  destruct n as [c| |text]; simpl in H.
  - inversion H; subst. split; [reflexivity|]. eexists. split; [reflexivity|].
    split; [reflexivity|]. rewrite Hn. auto.
  - inversion H; subst. split; [reflexivity|]. eexists. split; [reflexivity|].
    split; [reflexivity|]. rewrite Hn. auto.
  - unfold bind at 1 in H. simpl in H.
    rewrite (bind_eq_Ok _ _ _ _ _ (readLinkTarget_eq _ _ _ Hn)) in H.
    inversion H; subst. split; [reflexivity|]. eexists. split; [reflexivity|].
    split; [reflexivity|]. rewrite Hn. auto.
Qed.

Lemma buildState_recorded sr md pr ms es st w w' :
  buildState hashPath sr md pr ms es w = (Ok st, w') ->
  fs w' = fs w
  /\ (NoDup (previous_files es).*1 -> NoDup (st_files st).*1)
  /\ forall k, k ∈ map target ms ->
       exists r, files_get k (st_files st) = Some r /\ recorded hashPath (fs w) k r.
Proof.
  intros H. unfold buildState in H.
  apply bind_Ok in H as (files & w1 & Hfold & H).
  apply bind_Ok in H as (updatedAt & w2 & Hnow & H). inversion H; subst. clear H.
  simpl. fold (previous_files es) in Hfold.
  assert (Hgen : forall ms files0 files,
             foldM (fun files mapping =>
                      let! stat := fs_lstat (target mapping) in
                      let! meta := get_statMeta (target mapping) in
                      let isLink := isSymbolicLink stat in
                      let modeValue := if isLink then link else copy in
                      let! hash :=
                        if decide (modeValue = copy)
                        then (let! m := get_fs in ret (Some (hashPath m (target mapping))))
                        else ret None in
                      let! linkTarget :=
                        if decide (modeValue = link) then readLinkTarget (target mapping)
                        else ret None in
                      let record :=
                        {| rec_path := target mapping;
                           rec_source := source mapping;
                           rec_agent := agent mapping;
                           rec_mode := modeValue;
                           rec_size := meta.1;
                           rec_mtimeMs := meta.2;
                           rec_hash := hash;
                           rec_linkTarget := linkTarget |} in
                      ret (files_set (target mapping) record files))
                   files0 ms w = (Ok files, w1) ->
             w1 = w
             /\ (NoDup files0.*1 -> NoDup files.*1)
             /\ forall k,
                  (k ∈ map target ms ->
                   exists r, files_get k files = Some r /\ recorded hashPath (fs w) k r)
                  /\ (k ∉ map target ms -> files_get k files = files_get k files0)).
  { clear. induction ms as [|m ms IH]; intros files0 files H; simpl in H.
    - inversion H; subst. split; [reflexivity|]. split; [auto|].
      intros k. split; [intros Hk; inversion Hk|reflexivity].
    - apply bind_Ok in H as (files1 & w2 & Hstep & Hrest).
      apply buildState_step_recorded in Hstep as (-> & r & -> & Hr).
      destruct (IH _ _ Hrest) as (-> & Hnd & Hk). split; [reflexivity|].
      split; [intros H0; apply Hnd, files_set_keys, H0|].
      intros k. destruct (Hk k) as [Hin Hout]. split.
      + intros Hm. simpl in Hm.
        destruct (decide (k ∈ map target ms)) as [Hin'|Hnin]; [apply Hin, Hin'|].
        apply elem_of_cons in Hm as [->|Hm]; [|contradiction].
        exists r. split; [|exact Hr]. rewrite (Hout Hnin). apply files_get_set_eq.
      + intros Hm. simpl in Hm. rewrite Hout.
        * apply files_get_set_ne. intros Heq. apply Hm. rewrite <- Heq. left.
        * intros Hin'. apply Hm. right. exact Hin'. }
  destruct (Hgen _ _ _ Hfold) as (-> & Hnd & Hk).
  split; [exact (now_ISO_same_fs _ _ _ Hnow)|]. split; [exact Hnd|].
  intros k Hin. apply (Hk k), Hin.
Qed.

(** A record made from the tree is in order as long as the target and
    what lies below it stay as they are. *)
Lemma recorded_is_ok (m m' : gmap path node) (k : path) r :
  (forall m1 m2 p, (forall q, p `prefix_of` q -> m2 !! q = m1 !! q) ->
                   hashPath m2 p = hashPath m1 p) ->
  (forall m0 p, hashPath m0 p <> "") ->
  recorded hashPath m k r ->
  (forall q, k `prefix_of` q -> m' !! q = m !! q) ->
  m' !! k <> Some (Symlink "") ->
  classify hashPath m' r = (ok, None).
Proof.
  intros Hlocal Hne [Hpath Hrec] Hsame Hlink. unfold classify. rewrite Hpath.
  rewrite (Hsame k) by reflexivity. rewrite (Hsame k) in Hlink by reflexivity.
  destruct (m !! k) as [[c| |text]|] eqn:Hk; try contradiction.
  - destruct Hrec as [Hmode Hhash]. unfold link_effective. rewrite Hmode, Hhash. simpl.
    rewrite (Hlocal m m' k Hsame).
    rewrite bool_decide_eq_false_2 by apply Hne.
    rewrite bool_decide_eq_true_2 by reflexivity. reflexivity.
  - destruct Hrec as [Hmode Hhash]. unfold link_effective. rewrite Hmode, Hhash. simpl.
    rewrite (Hlocal m m' k Hsame).
    rewrite bool_decide_eq_false_2 by apply Hne.
    rewrite bool_decide_eq_true_2 by reflexivity. reflexivity.
  - destruct Hrec as [Hmode Htext]. unfold link_effective. rewrite Hmode, Htext. simpl.
    rewrite bool_decide_eq_false_2 by congruence.
    rewrite bool_decide_eq_true_2 by reflexivity. reflexivity.
Qed.

(** Writing the snapshot leaves what is apart from it as it was. *)
Lemma writeState_same_below sr st w w' k n :
  writeState sr st w = (Ok tt, w') ->
  apart k (getStatePath sr) -> fs w !! k = Some n ->
  forall q, k `prefix_of` q -> fs w' !! q = fs w !! q.
Proof.
  intros H [Hk1 Hk2] Hn q Hq. unfold writeState in H.
  apply bind_Ok in H as ([] & w1 & Hmk & Hw).
  apply fs_writeFile_Ok in Hw. rewrite Hw.
  rewrite lookup_insert_ne by (intros <-; contradiction).
  destruct (fs_mkdir_p_grown _ _ _ _ Hmk q) as [Heq|(Hnone & _ & Hpre)]; [exact Heq|].
  exfalso. apply Hk1. etransitivity; [exact Hq|]. etransitivity; [exact Hpre|].
  unfold getStatePath, join. apply prefix_app_r. reflexivity.
Qed.

End DriftLemmas.


(** ** Where links are refused *)

Section FallbackLemmas.

Variable fuel : nat.

Lemma create_refused text p (ws : list string) w r w' :
  symlinkAllowed w p = false ->
  (fs_symlink text p ;;; ret ws) w = (r, w') ->
  r = Throw (ErrnoException "EPERM").
Proof.
  intros Hno H. unfold bind, fs_symlink in H. rewrite Hno in H. simpl in H.
  inversion H. reflexivity.
Qed.

(** Where links are refused, the link branch of [applyMapping] returns only
    when the link is there already. *)
Lemma link_branch_refused m (ws : list string) allow w a w' :
  symlinkAllowed w (target m) = false ->
  fs w !! target m <> Some (Symlink (render (source m))) ->
  (let! sourceStat := fs_lstat (source m) in
   let! existing := getTargetInfo (target m) in
   let create := fs_symlink (render (source m)) (target m) ;;; ret ws in
   match existing with
   | Some info =>
       if info_isSymlink info then
         if decide (info_linkTarget info = Some (render (source m)))
         then ret ws
         else fs_unlink (target m) ;;; create
       else if info_isDirectory info then
         let! removed := removeDirectory (target m) allow in
         if negb removed then throw (refuse (target m)) else create
       else fs_unlink (target m) ;;; create
   | None => create
   end) w <> (Ok a, w').
Proof.
  intros Hno Hlink H.
  assert (Hcreate : forall w0 w1, same_host w w0 ->
             (fs_symlink (render (source m)) (target m) ;;; ret ws) w0 <> (Ok a, w1)).
  { intros w0 w1 (Hs & _) H0. apply create_refused in H0; [discriminate|].
    rewrite Hs. exact Hno. }
  apply bind_Ok in H as (stat & w0 & Hstat & H).
  pose proof (fs_lstat_same_world _ _ _ _ Hstat) as Hw. unfold same_world in Hw. subst w0.
  rewrite (bind_eq_Ok _ _ _ _ _ (getTargetInfo_eq _ _)) in H.
  destruct (fs w !! target m) as [[c| |text]|] eqn:Ht; simpl in H.
  - apply bind_Ok in H as (u & w1 & Hu & H).
    eapply Hcreate; [|exact H]. exact (fs_unlink_host _ _ _ _ Hu).
  - apply bind_Ok in H as (removed & w1 & Hrm & H).
    destruct removed; simpl in H; [|discriminate].
    eapply Hcreate; [|exact H]. exact (removeDirectory_host _ _ _ _ _ Hrm).
  - destruct (decide (Some text = Some (render (source m)))) as [Heq|Hne].
    + inversion Heq; subst. contradiction.
    + apply bind_Ok in H as (u & w1 & Hu & H).
      eapply Hcreate; [|exact H]. exact (fs_unlink_host _ _ _ _ Hu).
  - eapply Hcreate; [|exact H]. reflexivity.
Qed.

End FallbackLemmas.


(** ** Force *)

Section ForceLemmas.

Variable fuel : nat.
Variable hashPath : gmap path node -> path -> string.

Lemma syncApply_lists opts opts' m cs cs' allow l l' w :
  dryRun opts' = dryRun opts -> loop_lists l' = loop_lists l ->
  lists_of (syncApply fuel opts' m cs' allow l' w)
  = lists_of (syncApply fuel opts m cs allow l w).
Proof.
  intros Hdry Hl. unfold loop_lists in Hl. injection Hl as Hu Hs Hw.
  unfold syncApply. rewrite Hdry. destruct (dryRun opts).
  - unfold lists_of, loop_lists. simpl. congruence.
  - rewrite Hw. unfold bind.
    destruct (try_catch _ _ w) as [[ws|e|] w1]; [|reflexivity..].
    unfold lists_of, loop_lists. simpl. congruence.
Qed.

Lemma syncMapping_forced opts es l m w :
  force opts = true ->
  syncMapping fuel opts es l m w =
  match fs w !! source m with
  | None =>
      if default false (strict opts)
      then (Throw (AgentConfigError ("Missing source: " +:+ render (source m))
                                    ExitCodes.Validation), w)
      else (Ok (skip_with ("Skipping missing source: " +:+ render (source m))
                          m (conflictState l) l), w)
  | Some _ => syncApply fuel opts m (conflictState l) true l w
  end.
Proof.
  intros Hforce. destruct (fs w !! source m) as [ns|] eqn:Hs.
  - rewrite (syncMapping_no_conflict fuel opts es l m w ns Hs) by auto.
    rewrite Hforce. reflexivity.
  - apply syncMapping_missing_source, Hs.
Qed.

Lemma syncLoop_forced opts p es ms : forall l l' w,
  force opts = true -> loop_lists l' = loop_lists l ->
  lists_of (syncLoop fuel (with_policy p opts) es l' ms w)
  = lists_of (syncLoop fuel opts es l ms w).
Proof.
  unfold syncLoop. induction ms as [|m ms IH]; intros l l' w Hforce Hl.
  - unfold lists_of. simpl. rewrite Hl. reflexivity.
  - cbn [foldM]. unfold bind.
    rewrite (syncMapping_forced (with_policy p opts) es l' m w Hforce).
    rewrite (syncMapping_forced opts es l m w Hforce).
    change (strict (with_policy p opts)) with (strict opts).
    destruct (fs w !! source m) as [ns|].
    + pose proof (syncApply_lists opts (with_policy p opts) m (conflictState l)
                    (conflictState l') true l l' w eq_refl Hl) as Hstep.
      destruct (syncApply fuel (with_policy p opts) m (conflictState l') true l' w)
        as [[l1'|e'|] w1'];
        destruct (syncApply fuel opts m (conflictState l) true l w) as [[l1|e|] w1];
        unfold lists_of in Hstep; simpl in Hstep; inversion Hstep; subst;
        try reflexivity.
      apply IH; [exact Hforce|]. unfold loop_lists. congruence.
    + destruct (default false (strict opts)); [reflexivity|].
      apply IH; [exact Hforce|].
      unfold loop_lists, skip_with in *. simpl. inversion Hl. congruence.
Qed.

End ForceLemmas.


(** ** Warnings of the apply step *)

Lemma ensureTargetParent_created p t ws w r w' :
  fs w !! p = None ->
  ensureTargetParent p t ws w = (Ok r, w') ->
  r = (fun ws => ws ++ ["Created target parent directory: " +:+ render p
                        +:+ " (for " +:+ render t +:+ ")"]) <$> ws.
Proof.
  intros Hp H. unfold ensureTargetParent in H.
  rewrite (bind_eq_Ok _ _ _ _ _ (fileExists_missing _ _ Hp)) in H. simpl in H.
  apply bind_Ok in H as (u & w1 & _ & H). inversion H. reflexivity.
Qed.

Lemma ensureTargetParent_present p t ws w n r w' :
  fs w !! p = Some n ->
  ensureTargetParent p t ws w = (Ok r, w') -> r = ws.
Proof.
  intros Hp H. unfold ensureTargetParent in H.
  rewrite (bind_eq_Ok _ _ _ _ _ (fileExists_present _ _ _ Hp)) in H. simpl in H.
  apply bind_Ok in H as (u & w1 & _ & H). inversion H. reflexivity.
Qed.

Section WarningLemmas.

Variable fuel : nat.

(** The link branch returns the warnings it was given. *)
Lemma link_branch_warnings m (ws : list string) allow :
  returns
    (let! sourceStat := fs_lstat (source m) in
     let! existing := getTargetInfo (target m) in
     let create := fs_symlink (render (source m)) (target m) ;;; ret ws in
     match existing with
     | Some info =>
         if info_isSymlink info then
           if decide (info_linkTarget info = Some (render (source m)))
           then ret ws
           else fs_unlink (target m) ;;; create
         else if info_isDirectory info then
           let! removed := removeDirectory (target m) allow in
           if negb removed then throw (refuse (target m)) else create
         else fs_unlink (target m) ;;; create
     | None => create
     end)
    (fun ws' => ws' = ws).
Proof.
  assert (Hcreate : returns (fs_symlink (render (source m)) (target m) ;;; ret ws)
                            (fun ws' => ws' = ws)).
  { eapply returns_bind; [apply returns_any|]. intros _ _. apply returns_ret. reflexivity. }
  eapply returns_bind; [apply returns_any|]. intros stat _.
  eapply returns_bind; [apply returns_any|]. intros existing _.
  destruct existing as [info|]; [|exact Hcreate].
  destruct (info_isSymlink info).
  - destruct (decide _); [apply returns_ret; reflexivity|].
    eapply returns_bind; [apply returns_any|]. intros _ _. exact Hcreate.
  - destruct (info_isDirectory info).
    + eapply returns_bind; [apply returns_any|]. intros removed _.
      destruct (negb removed); [apply returns_throw|exact Hcreate].
    + eapply returns_bind; [apply returns_any|]. intros _ _. exact Hcreate.
Qed.

End WarningLemmas.


(** ** The command line *)

Lemma parsed_from_refl r args : parsed_from r args r.
Proof. unfold parsed_from. repeat split; auto. Qed.

(** One more argument in front, consumed by a step that changes the result
    from [r] to [r0]. *)
Lemma parsed_from_step r r0 arg rest r' :
  parsed_from r0 rest r' ->
  (arg_dryRun r0 = true -> arg_dryRun r = true \/ arg = "--dry-run") ->
  (arg_force r0 = true -> arg_force r = true \/ arg = "--force") ->
  (arg_strict r0 = true -> arg_strict r = true \/ arg = "--strict") ->
  (arg_help r0 = true -> arg_help r = true \/ arg = "--help" \/ arg = "-h") ->
  (forall m, arg_mode r0 = Some m ->
             arg_mode r = Some m \/ (m = link /\ arg = "--link")
             \/ (m = copy /\ arg = "--copy")) ->
  (forall p, arg_conflictPolicy r0 = Some p ->
             arg_conflictPolicy r = Some p \/ arg = "--on-conflict") ->
  (truthy (command r) = true -> command r0 = command r) ->
  parsed_from r (arg :: rest) r'.
Proof.
  intros (H1 & H2 & H3 & H4 & H5 & H6 & H7) G1 G2 G3 G4 G5 G6 G7.
  unfold parsed_from. repeat split.
  - intros H. destruct (H1 H) as [H0|H0]; [|right; right; exact H0].
    destruct (G1 H0) as [?| ->]; [auto|right; left].
  - intros H. destruct (H2 H) as [H0|H0]; [|right; right; exact H0].
    destruct (G2 H0) as [?| ->]; [auto|right; left].
  - intros H. destruct (H3 H) as [H0|H0]; [|right; right; exact H0].
    destruct (G3 H0) as [?| ->]; [auto|right; left].
  - intros H. destruct (H4 H) as [H0|[H0|H0]];
      [|right; left; right; exact H0|right; right; right; exact H0].
    destruct (G4 H0) as [?|[-> | ->]]; [auto|right; left; left|right; right; left].
  - intros m H. destruct (H5 m H) as [H0|[[-> H0]|[-> H0]]];
      [|right; left; split; [reflexivity|right; exact H0]
       |right; right; split; [reflexivity|right; exact H0]].
    destruct (G5 m H0) as [?|[[-> ->]|[-> ->]]];
      [auto|right; left; split; [reflexivity|left]|right; right; split; [reflexivity|left]].
  - intros p H. destruct (H6 p H) as [H0|H0]; [|right; right; exact H0].
    destruct (G6 p H0) as [?| ->]; [auto|right; left].
  - intros H. rewrite <- (G7 H). apply H7. rewrite (G7 H). exact H.
Qed.

Lemma parsed_from_skip r arg value rest r' :
  parsed_from r (arg :: rest) r' -> parsed_from r (arg :: value :: rest) r'.
Proof.
  intros (H1 & H2 & H3 & H4 & H5 & H6 & H7).
  assert (Hin : forall x, x ∈ arg :: rest -> x ∈ arg :: value :: rest).
  { intros x Hx. apply elem_of_cons in Hx as [->|Hx]; [left|right; right; exact Hx]. }
  unfold parsed_from. repeat split.
  - intros H. destruct (H1 H); auto.
  - intros H. destruct (H2 H); auto.
  - intros H. destruct (H3 H); auto.
  - intros H. destruct (H4 H) as [?|[?|?]]; auto.
  - intros m H. destruct (H5 m H) as [?|[[? ?]|[? ?]]]; auto.
  - intros p H. destruct (H6 p H); auto.
  - exact H7.
Qed.

Lemma parseLoop_parsed_from n : forall args r,
  length args <= n -> parsed_from r args (parseLoop r args).
Proof.
  induction n as [|n IH]; intros args r Hn.
  { destruct args; [apply parsed_from_refl|simpl in Hn; lia]. }
  destruct args as [|arg rest]; [apply parsed_from_refl|].
  simpl in Hn. cbn [parseLoop].
  assert (Hrest : forall r0, parsed_from r0 rest (parseLoop r0 rest))
    by (intros r0; apply IH; lia).
  destruct (negb (truthy (command r)) && negb (startsWith_dash arg)) eqn:Hcmd.
  { eapply parsed_from_step; [apply Hrest|simpl; auto..].
    intros Ht. rewrite Ht in Hcmd. discriminate. }
  destruct (bool_decide (arg = "--project")) eqn:E1.
  { destruct rest as [|value rest'].
    - eapply parsed_from_step; [apply parsed_from_refl|simpl; auto..].
    - apply parsed_from_skip.
      eapply parsed_from_step; [apply IH; simpl in Hn; lia|simpl; auto..]. }
  destruct (bool_decide (arg = "--dry-run")) eqn:E2.
  { apply bool_decide_eq_true in E2.
    eapply parsed_from_step; [apply Hrest|simpl; auto..]. }
  destruct (bool_decide (arg = "--link")) eqn:E3.
  { apply bool_decide_eq_true in E3.
    eapply parsed_from_step; [apply Hrest|simpl; auto..].
    intros m Hm. inversion Hm; subst. auto. }
  destruct (bool_decide (arg = "--copy")) eqn:E4.
  { apply bool_decide_eq_true in E4.
    eapply parsed_from_step; [apply Hrest|simpl; auto..].
    intros m Hm. inversion Hm; subst. auto. }
  destruct (bool_decide (arg = "--force")) eqn:E5.
  { apply bool_decide_eq_true in E5.
    eapply parsed_from_step; [apply Hrest|simpl; auto..]. }
  destruct (bool_decide (arg = "--on-conflict")) eqn:E6.
  { apply bool_decide_eq_true in E6.
    destruct rest as [|value rest'].
    - eapply parsed_from_step; [apply parsed_from_refl|simpl; auto..].
    - apply parsed_from_skip.
      eapply parsed_from_step; [apply IH; simpl in Hn; lia|..];
        destruct (policy_of (Some value)); simpl; auto. }
  destruct (bool_decide (arg = "--agent")) eqn:E7.
  { destruct rest as [|value rest'].
    - eapply parsed_from_step; [apply parsed_from_refl|simpl; auto..].
    - apply parsed_from_skip.
      eapply parsed_from_step; [apply IH; simpl in Hn; lia|simpl; auto..]. }
  destruct (bool_decide (arg = "--strict")) eqn:E8.
  { apply bool_decide_eq_true in E8.
    eapply parsed_from_step; [apply Hrest|simpl; auto..]. }
  destruct (bool_decide (arg = "--help") || bool_decide (arg = "-h")) eqn:E9.
  { apply orb_true_iff in E9 as [E9|E9]; apply bool_decide_eq_true in E9;
      (eapply parsed_from_step; [apply Hrest|simpl; auto..]). }
  eapply parsed_from_step; [apply Hrest|auto..].
Qed.


(** ** The clean script *)

Lemma append_assoc (s t u : string) : (s +:+ t) +:+ u = s +:+ (t +:+ u).
Proof.
  induction s as [|c s IH]; [reflexivity|].
  change ((String c s +:+ t) +:+ u) with (String c ((s +:+ t) +:+ u)).
  change (String c s +:+ (t +:+ u)) with (String c (s +:+ (t +:+ u))).
  f_equal. exact IH.
Qed.

Lemma string_prefix_cons a s b t :
  String.prefix (String a s) (String b t)
  = if ascii_dec a b then String.prefix s t else false.
Proof. reflexivity. Qed.

Lemma string_prefix_nil a s : String.prefix (String a s) "" = false.
Proof. reflexivity. Qed.

Lemma render_cons c p : render (c :: p) = String "/" (c +:+ render_tail p).
Proof.
  unfold render. cbn [map]. destruct p as [|c' p].
  - simpl. change ("/" +:+ c) with (String "/" c). f_equal. symmetry. apply append_empty_r.
  - cbn [map String.concat render_tail].
    change (("/" +:+ c) +:+ "" +:+ ?x) with (String "/" (c +:+ ("" +:+ x))).
    reflexivity.
Qed.

Lemma render_tail_shape p : render_tail p = "" \/ exists t, render_tail p = String "/" t.
Proof. destruct p as [|c p]; [left; reflexivity|right]. unfold render_tail. rewrite render_cons. eauto. Qed.

(** Two texts that start with a name and go on with a separator or end
    there: when one is a prefix of the other, the names are the same. *)
Lemma prefix_component c : forall d s t,
  has_slash c = false -> has_slash d = false ->
  (t = "" \/ exists t', t = String "/" t') ->
  String.prefix (c +:+ String "/" s) (d +:+ t) = true ->
  c = d /\ String.prefix (String "/" s) t = true.
Proof.
  induction c as [|a c IH]; intros d s t Hc Hd Ht H.
  - destruct d as [|x d]; [auto|].
    exfalso. simpl in Hd. apply orb_false_iff in Hd as [Hx _].
    change (String.prefix (String "/" s) (String x (d +:+ t)) = true) in H.
    rewrite string_prefix_cons in H. destruct (ascii_dec "/" x) as [E|E];
      [|discriminate H]. subst x. rewrite Ascii.eqb_refl in Hx. discriminate Hx.
  - simpl in Hc. apply orb_false_iff in Hc as [Ha Hc].
    change (String.prefix (String a (c +:+ String "/" s)) (d +:+ t) = true) in H.
    destruct d as [|x d].
    + exfalso. change ("" +:+ t) with t in H.
      destruct Ht as [-> |[t' ->]]; [rewrite string_prefix_nil in H; discriminate H|].
      rewrite string_prefix_cons in H.
      destruct (ascii_dec a "/") as [E|E]; [|discriminate H].
      subst a. rewrite Ascii.eqb_refl in Ha. discriminate Ha.
    + change (String.prefix (String a (c +:+ String "/" s)) (String x (d +:+ t)) = true) in H.
      rewrite string_prefix_cons in H.
      destruct (ascii_dec a x) as [->|]; [|discriminate H].
      simpl in Hd. apply orb_false_iff in Hd as [_ Hd].
      destruct (IH d s t Hc Hd Ht H) as [-> Hp]. auto.
Qed.

Lemma prefix_paths (p : path) : forall q : path,
  normalised p -> normalised q ->
  String.prefix (render_tail p +:+ "/") (render_tail q) = true ->
  p `prefix_of` q.
Proof.
  induction p as [|c p IH]; intros q Hp Hq H; [apply prefix_nil|].
  apply Forall_cons in Hp as [(Hc1 & _ & _ & Hc) Hp].
  unfold render_tail in H at 1. rewrite render_cons in H.
  change (String "/" (c +:+ render_tail p) +:+ "/")
    with (String "/" ((c +:+ render_tail p) +:+ "/")) in H.
  rewrite append_assoc in H.
  destruct q as [|d q]; [discriminate|].
  apply Forall_cons in Hq as [(_ & _ & _ & Hd) Hq].
  unfold render_tail in H at 2. rewrite render_cons in H.
  rewrite string_prefix_cons in H. destruct (ascii_dec "/" "/"); [|congruence].
  assert (Hshape : exists s, render_tail p +:+ "/" = String "/" s).
  { destruct (render_tail_shape p) as [-> |[t ->]]; [exists ""; reflexivity|].
    exists (t +:+ "/"). reflexivity. }
  destruct Hshape as [s Hs]. rewrite Hs in H.
  destruct (prefix_component c d s (render_tail q) Hc Hd (render_tail_shape q) H)
    as [-> Hrest].
  rewrite <- Hs in Hrest. apply prefix_cons. apply IH; assumption.
Qed.

Lemma component_eq c : forall d s t,
  has_slash c = false -> has_slash d = false ->
  (s = "" \/ exists s', s = String "/" s') ->
  (t = "" \/ exists t', t = String "/" t') ->
  c +:+ s = d +:+ t -> c = d /\ s = t.
Proof.
  induction c as [|a c IH]; intros d s t Hc Hd Hs Ht H.
  - change ("" +:+ s) with s in H. destruct d as [|x d]; [auto|].
    exfalso. simpl in Hd. apply orb_false_iff in Hd as [Hx _].
    change (s = String x (d +:+ t)) in H.
    destruct Hs as [-> |[s' ->]]; [discriminate|]. inversion H; subst. discriminate.
  - simpl in Hc. apply orb_false_iff in Hc as [Ha Hc].
    change (String a (c +:+ s) = d +:+ t) in H.
    destruct d as [|x d].
    + exfalso. change ("" +:+ t) with t in H.
      destruct Ht as [-> |[t' ->]]; [discriminate|]. inversion H; subst. discriminate.
    + change (String a (c +:+ s) = String x (d +:+ t)) in H. inversion H; subst.
      simpl in Hd. apply orb_false_iff in Hd as [_ Hd].
      destruct (IH d s t Hc Hd Hs Ht) as [-> ->]; auto.
Qed.

Lemma render_tail_inj (p : path) : forall q : path,
  normalised p -> normalised q -> render_tail p = render_tail q -> p = q.
Proof.
  induction p as [|c p IH]; intros q Hp Hq H.
  - destruct q as [|d q]; [reflexivity|].
    unfold render_tail in H. rewrite render_cons in H. discriminate.
  - apply Forall_cons in Hp as [(_ & _ & _ & Hc) Hp].
    destruct q as [|d q].
    { unfold render_tail in H. rewrite render_cons in H. discriminate. }
    apply Forall_cons in Hq as [(_ & _ & _ & Hd) Hq].
    unfold render_tail in H. rewrite !render_cons in H. inversion H as [H'].
    destruct (component_eq c d _ _ Hc Hd (render_tail_shape p) (render_tail_shape q) H')
      as [-> Ht].
    f_equal. apply IH; assumption.
Qed.

Lemma endsWith_sep_app s t : t <> "" -> endsWith_sep (s +:+ t) = endsWith_sep t.
Proof.
  intros Ht. induction s as [|c s IH]; [reflexivity|].
  change (String c s +:+ t) with (String c (s +:+ t)).
  cbn [endsWith_sep]. destruct (s +:+ t) eqn:E; [|exact IH].
  destruct s; [|discriminate]. simpl in E. contradiction.
Qed.

Lemma endsWith_sep_name c : c <> "" -> has_slash c = false -> endsWith_sep c = false.
Proof.
  induction c as [|a c IH]; intros Hne Hc; [contradiction|].
  simpl in Hc. apply orb_false_iff in Hc as [Ha Hc].
  destruct c as [|b c]; [exact Ha|]. apply IH; [discriminate|exact Hc].
Qed.

Lemma endsWith_sep_render (p : path) :
  normalised p -> p <> [] -> endsWith_sep (render p) = false.
Proof.
  induction p as [|c p IH]; intros Hp Hne; [contradiction|].
  apply Forall_cons in Hp as [(Hc1 & _ & _ & Hc) Hp].
  rewrite render_cons. destruct p as [|c' p].
  - simpl render_tail. rewrite append_empty_r.
    change (endsWith_sep (String "/" c) = false).
    destruct c; [contradiction|]. apply (endsWith_sep_name (String a c)); assumption.
  - change (String "/" (c +:+ render_tail (c' :: p)))
      with (String "/" c +:+ render_tail (c' :: p)).
    rewrite endsWith_sep_app.
    + apply IH; [exact Hp|discriminate].
    + unfold render_tail. rewrite render_cons. discriminate.
Qed.

(** The test of the script, on paths. *)
Lemma inside_project (root target : path) :
  normalised root -> normalised target ->
  negb (String.prefix (if endsWith_sep (render root) then render root
                       else render root +:+ "/") (render target))
  && negb (bool_decide (render target = render root)) = false ->
  root `prefix_of` target.
Proof.
  intros Hroot Htarget H. destruct root as [|c root]; [apply prefix_nil|].
  rewrite (endsWith_sep_render _ Hroot) in H by discriminate.
  apply andb_false_iff in H as [H|H].
  - apply negb_false_iff in H. destruct target as [|d target].
    + exfalso. rewrite render_cons in H. simpl in H.
      apply Forall_cons in Hroot as [(Hc & _) _].
      destruct c; [contradiction|discriminate].
    + apply prefix_paths; assumption.
  - apply negb_false_iff, bool_decide_eq_true in H.
    destruct target as [|d target].
    + exfalso. rewrite render_cons in H. simpl in H. inversion H as [H'].
      apply Forall_cons in Hroot as [(Hc & _) _]. destruct c; [contradiction|discriminate].
    + rewrite (render_tail_inj (d :: target) (c :: root) Htarget Hroot H). reflexivity.
Qed.


(** ** The copy-mode apply *)

Section CopyApplyLemmas.

Variable fuel : nat.

(** Before it copies, [applyCopyMapping] clears the target, and touches
    nothing else. *)
Lemma applyCopyMapping_prepares m o w w' :
  target m <> [] ->
  applyCopyMapping fuel m o w = (Ok tt, w') ->
  exists w1, within (target m) w w1
             /\ fs w1 !! target m = None
             /\ copyFileOrDir fuel (source m) (target m) w1 = (Ok tt, w').
Proof.
  intros Hne H. unfold applyCopyMapping in H.
  apply bind_Ok in H as (stat & w0 & Hl & H).
  apply fs_lstat_same_world in Hl as ->.
  rewrite (bind_eq_Ok _ _ _ _ _ (getTargetInfo_eq _ _)) in H.
  assert (Htail : forall w2,
             within (target m) w w2 -> fs w2 !! target m = None ->
             (ensureTargetParent (dirname (target m)) (target m) None ;;;
              copyFileOrDir fuel (source m) (target m)) w2 = (Ok tt, w') ->
             exists w1, within (target m) w w1
                        /\ fs w1 !! target m = None
                        /\ copyFileOrDir fuel (source m) (target m) w1 = (Ok tt, w')).
  { intros w2 Hin Habs Ht. apply bind_Ok in Ht as (r & w3 & He & Hc).
    apply ensureTargetParent_grown in He.
    exists w3. split; [|split; [|exact Hc]].
    - etransitivity; [exact Hin|]. eapply grown_within; [apply dirname_prefix|exact He].
    - rewrite (grown_other _ _ _ _ He); [exact Habs|]. apply not_below_dirname, Hne. }
  assert (Hrm : forall w2 u w3,
             fs w2 !! target m = Some Dir ->
             (let! removed := removeDirectory (target m) (default false o) in
              if negb removed then throw (refuse (target m)) else ret tt) w2 = (Ok u, w3) ->
             within (target m) w2 w3 /\ fs w3 !! target m = None).
  { intros w2 u w3 Hd Hk. apply bind_Ok in Hk as (removed & w4 & Hr & Hk).
    destruct removed; simpl in Hk; [|discriminate]. inversion Hk; subst.
    split; [exact (removeDirectory_within _ _ _ _ _ Hr)|].
    apply (removeDirectory_removed _ _ _ _ Hd Hr). }
  assert (Hun : forall w2 u w3,
             fs_unlink (target m) w2 = (Ok u, w3) ->
             within (target m) w2 w3 /\ fs w3 !! target m = None).
  { intros w2 u w3 Hu. split; [exact (fs_unlink_within _ _ _ _ Hu)|].
    apply fs_unlink_Ok in Hu as ->. simpl. apply lookup_delete_eq. }
  destruct (fs w !! target m) as [[c| |text]|] eqn:Et; simpl in H;
    destruct (isDirectory stat); simpl in H.
  - apply bind_Ok in H as (u1 & w2 & H1 & H). destruct (Hun _ _ _ H1) as [Hw Hn].
    apply bind_Ok in H as (u2 & w3 & H2 & H). inversion H2; subst.
    eapply Htail; eassumption.
  - apply bind_Ok in H as (u1 & w2 & H1 & H). destruct (Hun _ _ _ H1) as [Hw Hn].
    eapply Htail; eassumption.
  - apply bind_Ok in H as (u1 & w2 & H1 & H). inversion H1; subst.
    apply bind_Ok in H as (u2 & w3 & H2 & H). destruct (Hrm _ _ _ Et H2) as [Hw Hn].
    eapply Htail; eassumption.
  - apply bind_Ok in H as (u2 & w3 & H2 & H). destruct (Hrm _ _ _ Et H2) as [Hw Hn].
    eapply Htail; eassumption.
  - apply bind_Ok in H as (u1 & w2 & H1 & H). destruct (Hun _ _ _ H1) as [Hw Hn].
    apply bind_Ok in H as (u2 & w3 & H2 & H). inversion H2; subst.
    eapply Htail; eassumption.
  - apply bind_Ok in H as (u1 & w2 & H1 & H). destruct (Hun _ _ _ H1) as [Hw Hn].
    eapply Htail; eassumption.
  - apply bind_Ok in H as (u1 & w2 & H1 & H). inversion H1; subst.
    apply bind_Ok in H as (u2 & w3 & H2 & H). inversion H2; subst.
    eapply Htail; [reflexivity|exact Et|exact H].
  - apply bind_Ok in H as (u1 & w2 & H1 & H). inversion H1; subst.
    eapply Htail; [reflexivity|exact Et|exact H].
Qed.

End CopyApplyLemmas.


(** ** A copy brings nothing but the source *)

Lemma app_prefix_snoc (dst : path) e q :
  (dst ++ [e]) `prefix_of` (dst ++ q) -> exists q', q = e :: q'.
Proof.
  intros [r Hr]. rewrite <- app_assoc in Hr. apply app_inv_head in Hr.
  simpl in Hr. eauto.
Qed.

Lemma app_prefix_self (dst q : path) : (dst ++ q) `prefix_of` dst -> q = [].
Proof.
  intros H. apply prefix_length in H. rewrite length_app in H.
  destruct q; [reflexivity|simpl in H; lia].
Qed.

(** Where nothing was at or below the destination, what a successful copy
    leaves there has a counterpart in the source. *)
Lemma copyFileOrDir_only fuel : forall src dst w w',
  apart src dst -> tree_below (fs w) src ->
  (forall q, fs w !! (dst ++ q) = None) ->
  copyFileOrDir fuel src dst w = (Ok tt, w') ->
  forall q, is_Some (fs w' !! (dst ++ q)) -> is_Some (fs w !! (src ++ q)).
Proof.
  induction fuel as [|fuel IH]; intros src dst w w' Ha Htree Hfree H; [discriminate|].
  simpl in H. apply bind_Ok in H as (stat & w0 & Hl & H).
  pose proof (fs_lstat_same_world _ _ _ _ Hl) as ->.
  rewrite fs_lstat_eq in Hl. destruct (fs w !! src) as [n0|] eqn:Hsrc; inversion Hl; subst n0.
  clear Hl.
  assert (Hmade : forall p w1, p `prefix_of` dst -> grown p w w1 ->
                   forall q, is_Some (fs w1 !! (dst ++ q)) -> q = []).
  { intros p w1 Hp Hg q Hq. destruct (Hg (dst ++ q)) as [Heq|(_ & _ & Hpre)].
    - rewrite Heq, Hfree in Hq. destruct Hq; discriminate.
    - apply (app_prefix_self dst). etransitivity; eassumption. }
  destruct (isDirectory stat) eqn:Hdir.
  - destruct stat; try discriminate. clear Hdir.
    apply bind_Ok in H as ([] & w1 & Hmk & H).
    apply fs_mkdir_p_grown in Hmk.
    assert (Hsame1 : same_below src w w1).
    { eapply grown_same_below; [exact Ha|reflexivity|exact Hmk]. }
    apply bind_Ok in H as (es & w2 & Hrd & H).
    pose proof (fs_readdir_same_world _ _ _ _ Hrd) as ->.
    rewrite fs_readdir_eq, (Hsame1 src (reflexivity _)), Hsrc in Hrd.
    inversion Hrd; subst es; clear Hrd.
    assert (Hloop : forall L wi,
               NoDup L -> same_below src w wi ->
               (forall e q, e ∈ L -> fs wi !! (dst ++ e :: q) = None) ->
               (forall q, is_Some (fs wi !! (dst ++ q)) -> is_Some (fs w !! (src ++ q))) ->
               forM_ (fun entry => copyFileOrDir fuel (join src [entry]) (join dst [entry]))
                     L wi = (Ok tt, w') ->
               forall q, is_Some (fs w' !! (dst ++ q)) -> is_Some (fs w !! (src ++ q))).
    { induction L as [|e L IHL]; intros wi Hnd Hsi Hpend Hinv HL.
      - inversion HL; subst. exact Hinv.
      - unfold forM_ in HL. simpl in HL. apply bind_Ok in HL as ([] & wj & He & HL).
        unfold join in He. apply NoDup_cons in Hnd as [HeL Hnd].
        assert (Htree_i : tree_below (fs wi) (src ++ [e])).
        { apply tree_below_child. eapply tree_below_same; [|exact Htree].
          intros k Hk. apply Hsi, Hk. }
        assert (Hfree_i : forall q, fs wi !! ((dst ++ [e]) ++ q) = None).
        { intros q. rewrite <- app_assoc. apply Hpend. left. }
        pose proof (IH _ _ _ _ (apart_child _ _ e Ha) Htree_i Hfree_i He) as Honly.
        pose proof (copyFileOrDir_within _ _ _ _ _ _ He) as Hw.
        assert (Hsj : same_below src w wj).
        { intros k Hk. rewrite <- (Hsi k Hk).
          eapply within_apart; [exact Hw|]. eapply apart_below_child; eassumption. }
        assert (Hout : forall q, ¬ (dst ++ [e]) `prefix_of` (dst ++ q) ->
                         is_Some (fs wj !! (dst ++ q)) ->
                         q = [] \/ is_Some (fs wi !! (dst ++ q))).
        { intros q Hnp Hq. destruct (Hw (dst ++ q) Hnp) as [Heq|(_ & _ & Hpre)].
          - right. rewrite <- Heq. exact Hq.
          - left. apply prefix_app_inv in Hpre.
            destruct q as [|x q]; [reflexivity|]. exfalso. apply Hnp.
            apply prefix_cons_inv_1 in Hpre as ->. apply prefix_app, prefix_cons, prefix_nil. }
        apply (IHL wj Hnd Hsj); [| |exact HL].
        + intros e' q He'.
          destruct (fs wj !! (dst ++ e' :: q)) as [n|] eqn:E; [|reflexivity]. exfalso.
          destruct (Hout (e' :: q)) as [Hnil|Hs].
          * intros Hpre. apply app_prefix_snoc in Hpre as (q' & Hq').
            inversion Hq'; subst. contradiction.
          * rewrite E. eauto.
          * discriminate.
          * rewrite Hpend in Hs by (right; exact He'). destruct Hs; discriminate.
        + intros q Hq.
          destruct (decide ((dst ++ [e]) `prefix_of` (dst ++ q))) as [Hpre|Hnp].
          * apply app_prefix_snoc in Hpre as (q' & ->).
            specialize (Honly q'). rewrite <- !app_assoc in Honly. simpl in Honly.
            specialize (Honly Hq).
            rewrite (Hsi (src ++ e :: q')) in Honly by (apply prefix_app_r; reflexivity).
            exact Honly.
          * destruct (Hout q Hnp Hq) as [->|Hs]; [|apply Hinv, Hs].
            rewrite app_nil_r, Hsrc. eauto. }
    apply (Hloop (entries (fs w1) src) w1); [apply NoDup_entries|exact Hsame1| | |exact H].
    + intros e q _. destruct (fs w1 !! (dst ++ e :: q)) as [n|] eqn:E; [|reflexivity].
      exfalso. assert (Hq : e :: q = []) by (eapply (Hmade dst w1); [reflexivity|exact Hmk|rewrite E; eauto]).
      discriminate.
    + intros q Hq. rewrite (Hmade dst w1 (reflexivity _) Hmk q Hq), app_nil_r, Hsrc. eauto.
  - apply bind_Ok in H as ([] & w1 & Hmk & H).
    apply fs_mkdir_p_grown in Hmk.
    unfold fs_copyFile in H. apply bind_Ok in H as (c & w2 & Hr & H).
    apply fs_readFile_same_world in Hr as ->.
    apply fs_writeFile_Ok in H. intros q Hq. rewrite H in Hq.
    destruct (decide (q = [])) as [->|Hne]; [rewrite app_nil_r, Hsrc; eauto|].
    rewrite lookup_insert_ne in Hq.
    + exfalso. apply Hne. eapply (Hmade (dirname dst) w1); [apply dirname_prefix|exact Hmk|exact Hq].
    + intros Heq. apply Hne. rewrite <- (app_nil_r dst) in Heq at 1.
      apply app_inv_head in Heq. congruence.
Qed.

(** ** Copy mode replaces the target *)

Lemma not_below_dirname_app (t q : path) : t <> [] -> ¬ (t ++ q) `prefix_of` dirname t.
Proof.
  intros Hne Hpre. apply (not_below_dirname t Hne).
  etransitivity; [|exact Hpre]. apply prefix_app_r. reflexivity.
Qed.

(** Under what does not exist there is nothing. *)
Lemma tree_below_absent m t q : tree_below m t -> m !! t = None -> m !! (t ++ q) = None.
Proof.
  intros Htree Ht. destruct q as [|e q]; [rewrite app_nil_r; exact Ht|].
  destruct (m !! (t ++ e :: q)) as [n|] eqn:E; [|reflexivity]. exfalso.
  assert (Hs : is_Some (m !! (t ++ [e]))) by (eapply tree_below_entry; [exact Htree|rewrite E; eauto]).
  pose proof (Htree [] e Hs) as Hd. rewrite app_nil_r in Hd. congruence.
Qed.

Section ClearLemmas.

Variable fuel : nat.

(** Before it copies, [applyCopyMapping] clears the target with all that
    is below it. *)
Lemma applyCopyMapping_clears m o w w' :
  target m <> [] -> tree_below (fs w) (target m) ->
  applyCopyMapping fuel m o w = (Ok tt, w') ->
  exists w1, within (target m) w w1
             /\ (forall q, fs w1 !! (target m ++ q) = None)
             /\ copyFileOrDir fuel (source m) (target m) w1 = (Ok tt, w').
Proof.
  intros Hne Htree H. unfold applyCopyMapping in H.
  apply bind_Ok in H as (stat & w0 & Hl & H).
  apply fs_lstat_same_world in Hl as ->.
  rewrite (bind_eq_Ok _ _ _ _ _ (getTargetInfo_eq _ _)) in H.
  assert (Htail : forall w2,
             within (target m) w w2 -> (forall q, fs w2 !! (target m ++ q) = None) ->
             (ensureTargetParent (dirname (target m)) (target m) None ;;;
              copyFileOrDir fuel (source m) (target m)) w2 = (Ok tt, w') ->
             exists w1, within (target m) w w1
                        /\ (forall q, fs w1 !! (target m ++ q) = None)
                        /\ copyFileOrDir fuel (source m) (target m) w1 = (Ok tt, w')).
  { intros w2 Hin Habs Ht. apply bind_Ok in Ht as (r & w3 & He & Hc).
    apply ensureTargetParent_grown in He.
    exists w3. split; [|split; [|exact Hc]].
    - etransitivity; [exact Hin|]. eapply grown_within; [apply dirname_prefix|exact He].
    - intros q. rewrite (grown_other _ _ _ _ He); [apply Habs|].
      apply not_below_dirname_app, Hne. }
  assert (Hrm : forall u w3,
             fs w !! target m = Some Dir ->
             (let! removed := removeDirectory (target m) (default false o) in
              if negb removed then throw (refuse (target m)) else ret tt) w = (Ok u, w3) ->
             within (target m) w w3 /\ forall q, fs w3 !! (target m ++ q) = None).
  { intros u w3 Hd Hk. apply bind_Ok in Hk as (removed & w4 & Hr & Hk).
    destruct removed; simpl in Hk; [|discriminate]. inversion Hk; subst.
    split; [exact (removeDirectory_within _ _ _ _ _ Hr)|].
    rewrite (removeDirectory_dir _ _ _ Hd) in Hr.
    destruct (decide (target m = [])); [contradiction|].
    destruct (default false o).
    - inversion Hr; subst; simpl. intros q. rewrite rm_rf_lookup.
      apply decide_True. apply prefix_app_r. reflexivity.
    - destruct (entries (fs w) (target m)) as [|e es] eqn:E; inversion Hr; subst; simpl.
      intros [|e q]; [rewrite app_nil_r; apply lookup_delete_eq|].
      rewrite lookup_delete_ne.
      + destruct (fs w !! (target m ++ e :: q)) as [n1|] eqn:E1; [|reflexivity]. exfalso.
        assert (Hs : e ∈ entries (fs w) (target m)).
        { apply elem_of_entries. eapply tree_below_entry; [exact Htree|rewrite E1; eauto]. }
        rewrite E in Hs. inversion Hs.
      + intros Heq. rewrite <- (app_nil_r (target m)) in Heq at 1.
        apply app_inv_head in Heq. discriminate. }
  assert (Hun : forall u w3,
             fs_unlink (target m) w = (Ok u, w3) ->
             within (target m) w w3 /\ forall q, fs w3 !! (target m ++ q) = None).
  { intros u w3 Hu. split; [exact (fs_unlink_within _ _ _ _ Hu)|].
    rewrite fs_unlink_eq in Hu.
    destruct (fs w !! target m) as [n|] eqn:Et; [|discriminate].
    assert (Hnd : n <> Dir) by (intros ->; discriminate).
    assert (w3 = set_fs (delete (target m) (fs w)) w) as ->
      by (destruct n; inversion Hu; reflexivity).
    simpl. intros q. destruct (decide (q = [])) as [->|Hq].
    - rewrite app_nil_r. apply lookup_delete_eq.
    - rewrite lookup_delete_ne.
      + eapply tree_below_leaf; eassumption.
      + intros Heq. rewrite <- (app_nil_r (target m)) in Heq at 1.
        apply app_inv_head in Heq. congruence. }
  assert (Hnone : fs w !! target m = None -> forall q, fs w !! (target m ++ q) = None).
  { intros Et q. apply tree_below_absent; assumption. }
  destruct (fs w !! target m) as [[c| |text]|] eqn:Et; simpl in H;
    destruct (isDirectory stat); simpl in H.
  - apply bind_Ok in H as (u1 & w2 & H1 & H). destruct (Hun _ _ H1) as [Hw Hn].
    apply bind_Ok in H as (u2 & w3 & H2 & H). inversion H2; subst.
    eapply Htail; eassumption.
  - apply bind_Ok in H as (u1 & w2 & H1 & H). destruct (Hun _ _ H1) as [Hw Hn].
    eapply Htail; eassumption.
  - apply bind_Ok in H as (u1 & w2 & H1 & H). inversion H1; subst.
    apply bind_Ok in H as (u2 & w3 & H2 & H). destruct (Hrm _ _ eq_refl H2) as [Hw Hn].
    eapply Htail; eassumption.
  - apply bind_Ok in H as (u2 & w3 & H2 & H). destruct (Hrm _ _ eq_refl H2) as [Hw Hn].
    eapply Htail; eassumption.
  - apply bind_Ok in H as (u1 & w2 & H1 & H). destruct (Hun _ _ H1) as [Hw Hn].
    apply bind_Ok in H as (u2 & w3 & H2 & H). inversion H2; subst.
    eapply Htail; eassumption.
  - apply bind_Ok in H as (u1 & w2 & H1 & H). destruct (Hun _ _ H1) as [Hw Hn].
    eapply Htail; eassumption.
  - apply bind_Ok in H as (u1 & w2 & H1 & H). inversion H1; subst.
    apply bind_Ok in H as (u2 & w3 & H2 & H). inversion H2; subst.
    eapply Htail; [reflexivity|exact (Hnone eq_refl)|exact H].
  - apply bind_Ok in H as (u1 & w2 & H1 & H). inversion H1; subst.
    eapply Htail; [reflexivity|exact (Hnone eq_refl)|exact H].
Qed.

End ClearLemmas.


(** ** What the operator is asked *)

#[global] Instance same_lines_preorder : PreOrder same_lines.
Proof. split; unfold same_lines; [intros w; reflexivity|intros w1 w2 w3; congruence]. Qed.

Lemma same_world_lines w w' : same_world w w' -> same_lines w w'.
Proof. intros ->. reflexivity. Qed.

Lemma set_fs_lines m w : same_lines w (set_fs m w).
Proof. repeat split. Qed.

Lemma fs_mkdir_p_lines p : keeps same_lines (fs_mkdir_p p).
Proof.
  intros w r w' H. unfold fs_mkdir_p in H.
  destruct (mkdirs [] p (fs w)) as [[e|] m']; inversion H; subst; repeat split.
Qed.

Lemma fs_unlink_lines p : keeps same_lines (fs_unlink p).
Proof.
  intros w r w' H. rewrite fs_unlink_eq in H.
  destruct (fs w !! p) as [[| |]|]; inversion H; subst; repeat split.
Qed.

Lemma fs_rmdir_lines p : keeps same_lines (fs_rmdir p).
Proof.
  intros w r w' H. rewrite fs_rmdir_eq in H.
  destruct (fs w !! p) as [[| |]|]; try (inversion H; subst; repeat split; fail).
  destruct (decide (p = [])); [inversion H; subst; repeat split|].
  destruct (entries _ _); inversion H; subst; repeat split.
Qed.

Lemma fs_rm_rf_lines p : keeps same_lines (fs_rm_rf p).
Proof.
  intros w r w' H. rewrite fs_rm_rf_eq in H.
  destruct (decide (p = [])); inversion H; subst; repeat split.
Qed.

Lemma fs_writeFile_lines p c : keeps same_lines (fs_writeFile p c).
Proof.
  intros w r w' H. unfold fs_writeFile in H.
  destruct (fs w !! p) as [[| |]|]; destruct (fs w !! dirname p) as [[| |]|];
    inversion H; subst; repeat split.
Qed.

Lemma fs_copyFile_lines src dst : keeps same_lines (fs_copyFile src dst).
Proof.
  unfold fs_copyFile. apply keeps_bind; [apply _| |intros c; apply fs_writeFile_lines].
  eapply keeps_weaken; [apply same_world_lines|apply fs_readFile_same_world].
Qed.

Lemma copyFileOrDir_lines fuel : forall src dst,
  keeps same_lines (copyFileOrDir fuel src dst).
Proof.
  induction fuel as [|fuel IH]; intros src dst; simpl.
  - apply keeps_timeout, _.
  - apply keeps_bind; [apply _| |intros stat].
    { eapply keeps_weaken; [apply same_world_lines|apply fs_lstat_same_world]. }
    destruct (isDirectory stat).
    + apply keeps_bind; [apply _|apply fs_mkdir_p_lines|intros _].
      apply keeps_bind; [apply _| |intros es].
      { eapply keeps_weaken; [apply same_world_lines|apply fs_readdir_same_world]. }
      unfold forM_. apply keeps_foldM; [apply _|]. intros _ e. apply IH.
    + apply keeps_bind; [apply _|apply fs_mkdir_p_lines|intros _].
      apply fs_copyFile_lines.
Qed.

Lemma ensureTargetParent_lines p t ws : keeps same_lines (ensureTargetParent p t ws).
Proof.
  unfold ensureTargetParent.
  apply keeps_bind; [apply _| |intros b].
  { eapply keeps_weaken; [apply same_world_lines|apply fileExists_same_world]. }
  destruct (negb b).
  - apply keeps_bind; [apply _|apply fs_mkdir_p_lines|intros _]. apply keeps_ret, _.
  - apply keeps_bind; [apply _|apply fs_mkdir_p_lines|intros _]. apply keeps_ret, _.
Qed.

Lemma removeDirectory_lines t allow : keeps same_lines (removeDirectory t allow).
Proof.
  unfold removeDirectory, removeEmptyDirectory. destruct (negb allow).
  - apply keeps_bind; [apply _| |intros es].
    { eapply keeps_weaken; [apply same_world_lines|apply fs_readdir_same_world]. }
    destruct (Nat.ltb 0 (length es)); [apply keeps_ret, _|].
    apply keeps_bind; [apply _|apply fs_rmdir_lines|intros _]. apply keeps_ret, _.
  - apply keeps_bind; [apply _|apply fs_rm_rf_lines|intros _]. apply keeps_ret, _.
Qed.

Lemma fs_symlink_lines text p : keeps same_lines (fs_symlink text p).
Proof.
  intros w r w' H. unfold fs_symlink in H.
  destruct (negb (symlinkAllowed w p)); [inversion H; reflexivity|].
  destruct (decide (p = [])); [inversion H; reflexivity|].
  destruct (fs w !! p); [inversion H; reflexivity|].
  destruct (fs w !! dirname p) as [[]|]; inversion H; subst;
    try reflexivity; apply set_fs_lines.
Qed.

Lemma now_ISO_lines : keeps same_lines now_ISO.
Proof.
  intros w r w' H. unfold now_ISO in H. inversion H; subst.
  unfold same_lines. simpl. auto.
Qed.

Section LinesLemmas.

Variable fuel : nat.
Variable hashPath : gmap path node -> path -> string.

Lemma applyCopyMapping_lines m o : keeps same_lines (applyCopyMapping fuel m o).
Proof.
  unfold applyCopyMapping.
  apply keeps_bind; [apply _| |intros stat].
  { eapply keeps_weaken; [apply same_world_lines|apply fs_lstat_same_world]. }
  apply keeps_bind; [apply _| |intros existing].
  { eapply keeps_weaken; [apply same_world_lines|apply getTargetInfo_same_world]. }
  assert (Hrm : keeps same_lines
                  (let! removed := removeDirectory (target m) (default false o) in
                   if negb removed then throw (refuse (target m)) else ret tt)).
  { apply keeps_bind; [apply _|apply removeDirectory_lines|intros removed].
    destruct (negb removed); [apply keeps_throw, _|apply keeps_ret, _]. }
  assert (Htail : keeps same_lines
                    (ensureTargetParent (dirname (target m)) (target m) None ;;;
                     copyFileOrDir fuel (source m) (target m))).
  { apply keeps_bind; [apply _|apply ensureTargetParent_lines|intros _].
    apply copyFileOrDir_lines. }
  destruct (isDirectory stat).
  - apply keeps_bind; [apply _| |intros _].
    { destruct existing as [info|]; [|apply keeps_ret, _].
      destruct (negb (info_isDirectory info)); [apply fs_unlink_lines|apply keeps_ret, _]. }
    apply keeps_bind; [apply _| |intros _; exact Htail].
    destruct existing as [info|]; [|apply keeps_ret, _].
    destruct (info_isDirectory info); [exact Hrm|apply keeps_ret, _].
  - apply keeps_bind; [apply _| |intros _; exact Htail].
    destruct existing as [info|]; [|apply keeps_ret, _].
    destruct (info_isDirectory info); [exact Hrm|apply fs_unlink_lines].
Qed.

Lemma applyMapping_lines m ws o : keeps same_lines (applyMapping fuel m ws o).
Proof.
  unfold applyMapping. destruct (decide (mode m = copy)).
  { apply keeps_bind; [apply _|apply applyCopyMapping_lines|].
    intros _. apply keeps_ret; apply _. }
  apply keeps_bind; [apply _|apply ensureTargetParent_lines|]. intros pushed.
  assert (Hcreate : forall ws0 : list string,
             keeps same_lines (fs_symlink (render (source m)) (target m) ;;; ret ws0)).
  { intros ws0. apply keeps_bind; [apply _|apply fs_symlink_lines|].
    intros _. apply keeps_ret; apply _. }
  apply keeps_try_catch; [apply _| |].
  - apply keeps_bind; [apply _| |].
    { eapply keeps_weaken; [apply same_world_lines|apply fs_lstat_same_world]. }
    intros sourceStat. apply keeps_bind; [apply _| |].
    { eapply keeps_weaken; [apply same_world_lines|apply getTargetInfo_same_world]. }
    intros existing. destruct existing as [info|]; [|apply Hcreate].
    apply keeps_if.
    + destruct (decide _); [apply keeps_ret; apply _|].
      apply keeps_bind; [apply _|apply fs_unlink_lines|intros _; apply Hcreate].
    + apply keeps_if.
      * apply keeps_bind; [apply _|apply removeDirectory_lines|].
        intros removed. apply keeps_if; [apply keeps_throw; apply _|apply Hcreate].
      * apply keeps_bind; [apply _|apply fs_unlink_lines|intros _; apply Hcreate].
  - intros e. apply keeps_if; [apply keeps_throw; apply _|].
    apply keeps_bind; [apply _|apply applyCopyMapping_lines|].
    intros _. apply keeps_ret; apply _.
Qed.

Lemma backupTarget_lines t sr : keeps same_lines (backupTarget fuel t sr).
Proof.
  unfold backupTarget. apply keeps_bind; [apply _|apply now_ISO_lines|].
  intros iso. apply keeps_bind; [apply _|apply fs_mkdir_p_lines|].
  intros _. apply copyFileOrDir_lines.
Qed.

Lemma syncApply_lines opts m cs allow l : keeps same_lines (syncApply fuel opts m cs allow l).
Proof.
  unfold syncApply. apply keeps_if; [apply keeps_ret; apply _|].
  apply keeps_bind; [apply _| |intros ws; apply keeps_ret; apply _].
  apply keeps_try_catch; [apply _|apply applyMapping_lines|].
  intros e. apply keeps_if; apply keeps_throw; apply _.
Qed.

Lemma buildState_lines sr md pr ms es :
  keeps same_lines (buildState hashPath sr md pr ms es).
Proof.
  unfold buildState.
  apply keeps_bind; [apply _| |intros fls].
  - apply keeps_foldM; [apply _|]. intros acc m.
    apply keeps_bind; [apply _| |intros stat].
    { eapply keeps_weaken; [apply same_world_lines|apply fs_lstat_same_world]. }
    apply keeps_bind; [apply _| |intros meta].
    { apply keeps_pure; [apply _|reflexivity]. }
    apply keeps_bind; [apply _| |intros hash].
    { destruct (decide _); [|apply keeps_ret, _].
      apply keeps_bind; [apply _| |intros m0; apply keeps_ret, _].
      apply keeps_pure; [apply _|reflexivity]. }
    apply keeps_bind; [apply _| |intros lt; apply keeps_ret, _].
    destruct (decide _); [|apply keeps_ret, _].
    eapply keeps_weaken; [apply same_world_lines|apply readLinkTarget_same_world].
  - apply keeps_bind; [apply _|apply now_ISO_lines|intros iso]. apply keeps_ret, _.
Qed.

Lemma persist_lines opts ms es l : keeps same_lines (persist hashPath opts ms es l).
Proof.
  unfold persist. apply keeps_bind; [apply _| |intros _; apply keeps_ret, _].
  apply keeps_if; [|apply keeps_ret, _].
  apply keeps_bind; [apply _|apply buildState_lines|intros st].
  unfold writeState. apply keeps_bind; [apply _|apply fs_mkdir_p_lines|intros _].
  apply fs_writeFile_lines.
Qed.

Lemma syncMapping_settled opts es l m w r w' :
  settled opts (conflictState l) w ->
  syncMapping fuel opts es l m w = (r, w') ->
  same_lines w w'
  /\ forall l', r = Ok l' -> settled opts (conflictState l') w'.
Proof.
  intros Hs H.
  pose proof (syncMapping_host fuel opts es l m _ _ _ H) as (_ & Htty & _).
  assert (Hkeep : forall cs, settled opts cs w -> settled opts cs w').
  { intros cs [Hf|[Hp|Ht]]; [left; exact Hf|right; left; exact Hp|].
    right. right. rewrite Htty. exact Ht. }
  assert (Happly : forall cs allow w0 r0 w0',
             settled opts cs w ->
             syncApply fuel opts m cs allow l w0 = (r0, w0') ->
             same_lines w0 w0'
             /\ forall l', r0 = Ok l' -> settled opts (conflictState l') w').
  { intros cs allow w0 r0 w0' Hcs H0. split; [exact (syncApply_lines _ _ _ _ _ _ _ _ H0)|].
    intros l' ->. rewrite (syncApply_state fuel opts m cs allow l _ _ _ H0).
    apply Hkeep, Hcs. }
  unfold syncMapping in H.
  destruct (bind_inv _ _ _ _ _ H) as [(srcE & w1 & H1 & H2)|[(e & H1 & He)|[H1 He]]].
  2:{ apply fileExists_same_world in H1 as ->. subst r. split; [reflexivity|discriminate]. }
  2:{ apply fileExists_same_world in H1 as ->. subst r. split; [reflexivity|discriminate]. }
  apply fileExists_same_world in H1 as ->. clear H.
  destruct (negb srcE).
  { destruct (default false (strict opts)); inversion H2; subst.
    - split; [reflexivity|discriminate].
    - split; [reflexivity|]. intros l' Hl'. inversion Hl'; subst. simpl. exact Hs. }
  destruct (bind_inv _ _ _ _ _ H2) as [(tgtE & w1 & H1 & H3)|[(e & H1 & He)|[H1 He]]].
  2:{ apply fileExists_same_world in H1 as ->. subst r. split; [reflexivity|discriminate]. }
  2:{ apply fileExists_same_world in H1 as ->. subst r. split; [reflexivity|discriminate]. }
  apply fileExists_same_world in H1 as ->. clear H2.
  destruct (tgtE && negb (force opts) && negb (isManaged (target m) es)) eqn:Hcond;
    [|exact (Happly _ _ _ _ _ Hs H3)].
  assert (Hnf : force opts = false).
  { destruct (force opts); [|reflexivity]. rewrite andb_false_r in Hcond. discriminate. }
  assert (Hd : exists d, resolveConflictPolicy (target m) (conflictState l) w = (Ok d, w)
                         /\ policy (state d) <> None).
  { destruct (policy (conflictState l)) as [p|] eqn:Hp.
    - eexists. split; [apply resolveConflictPolicy_fixed, Hp|]. simpl. congruence.
    - eexists. split; [apply resolveConflictPolicy_cannot_ask; [exact Hp|]|simpl; discriminate].
      right. destruct Hs as [Hf|[Hpp|Ht]]; [congruence|contradiction|exact Ht]. }
  destruct Hd as (d & Hd & Hpd). rewrite (bind_eq_Ok _ _ _ _ _ Hd) in H3.
  assert (Hsd : settled opts (state d) w) by (right; left; exact Hpd).
  destruct (action d).
  - exact (Happly _ _ _ _ _ Hsd H3).
  - destruct (bind_inv _ _ _ _ _ H3) as [(u & w1 & H1 & H4)|[(e & H1 & He)|[H1 He]]].
    + assert (Hb : same_lines w w1).
      { destruct (negb (dryRun opts)); [exact (backupTarget_lines _ _ _ _ _ H1)|].
        inversion H1; reflexivity. }
      destruct (Happly _ _ _ _ _ Hsd H4) as [Ha Hl]. split; [|exact Hl].
      etransitivity; eassumption.
    + subst r. split; [|discriminate].
      destruct (negb (dryRun opts)); [exact (backupTarget_lines _ _ _ _ _ H1)|].
      inversion H1.
    + subst r. split; [|discriminate].
      destruct (negb (dryRun opts)); [exact (backupTarget_lines _ _ _ _ _ H1)|].
      inversion H1.
  - inversion H3; subst. split; [reflexivity|]. intros l' Hl'. inversion Hl'; subst. simpl.
    apply Hkeep, Hsd.
  - inversion H3; subst. split; [reflexivity|discriminate].
Qed.

Lemma syncLoop_settled opts es : forall ms l w r w',
  settled opts (conflictState l) w ->
  syncLoop fuel opts es l ms w = (r, w') -> same_lines w w'.
Proof.
  unfold syncLoop. induction ms as [|m ms IH]; intros l w r w' Hs H.
  - inversion H. reflexivity.
  - simpl in H.
    destruct (bind_inv _ _ _ _ _ H) as [(l1 & w1 & H1 & H2)|[(e & H1 & He)|[H1 He]]].
    + destruct (syncMapping_settled _ _ _ _ _ _ _ Hs H1) as [Hl Hs1].
      etransitivity; [exact Hl|]. eapply IH; [apply Hs1; reflexivity|exact H2].
    + exact (proj1 (syncMapping_settled _ _ _ _ _ _ _ Hs H1)).
    + exact (proj1 (syncMapping_settled _ _ _ _ _ _ _ Hs H1)).
Qed.

End LinesLemmas.

(** * The claims *)





(** C8: when the decision on a conflict is cancel, [syncConfigs] ends at
    once by throwing a Conflict error, and the file tree it leaves is the one
    the mappings applied before had produced: nothing is rolled back and
    nothing more is applied. *)
Theorem cancel_aborts_without_rollback :
  forall fuel hashPath opts w ms1 m ms2 es l1 w1 ns nt d w2,
    plan opts w = (Ok (ms1 ++ m :: ms2, es), w) ->
    syncLoop fuel opts es (initialLoop opts) ms1 w = (Ok l1, w1) ->
    fs w1 !! source m = Some ns -> fs w1 !! target m = Some nt ->
    force opts = false -> isManaged (target m) es = false ->
    resolveConflictPolicy (target m) (conflictState l1) w1 = (Ok d, w2) ->
    action d = cancel ->
    syncConfigs fuel hashPath opts w
    = (Throw (AgentConfigError "Sync cancelled" ExitCodes.Conflict), w2)
    /\ fs w2 = fs w1.
Proof.
  intros fuel hashPath opts w ms1 m ms2 es l1 w1 ns nt d w2
         Hplan Hloop Hs Ht Hf Hm Hd Hcancel.
  split; [|eapply resolveConflictPolicy_same_fs, Hd].
  eapply syncConfigs_loop_throw; [exact Hplan|].
  rewrite (syncLoop_split fuel opts es _ ms1 m ms2 w l1 w1 Hloop).
  apply bind_eq_Throw.
  rewrite (syncMapping_conflict fuel opts es l1 m w1 ns nt Hs Ht Hf Hm).
  rewrite (bind_eq_Ok _ _ _ _ _ Hd). rewrite Hcancel. reflexivity.
Qed.

Lemma cancel_aborts_without_rollback_witness :
  let opts := ex_options ex_two copy false (Some cancel) None in
  let w := ex_world ex_tree_taken true in
  exists w',
    syncConfigs 8 ex_hash opts w
    = (Throw (AgentConfigError "Sync cancelled" ExitCodes.Conflict), w')
    /\ fs w' !! ["t"; "FIRST.md"] = Some (File (Raw "hello"))
    /\ fs w' !! ex_AGENTS_md = Some (File (Raw "existing")).
Proof.
  intros opts w.
  pose (first := ex_mapping ex_agent_md ["t"; "FIRST.md"] copy).
  pose (second := ex_mapping ex_agent_md ex_AGENTS_md copy).
  pose (r := syncLoop 8 opts None (initialLoop opts) [first] w).
  exists (snd r).
  split; [|split; vm_compute; reflexivity].
  refine (proj1 (cancel_aborts_without_rollback 8 ex_hash opts w [first] second [] None
                   {| conflictState := {| policy := Some cancel; canAsk := true |};
                      updatedMappings := [first]; skippedMappings := [];
                      loop_warnings := [] |}
                   (snd r) (File (Raw "hello")) (File (Raw "existing"))
                   {| action := cancel;
                      state := {| policy := Some cancel; canAsk := true |} |}
                   (snd r) _ _ _ _ _ _ _ _));
    vm_compute; reflexivity.
Defined.








(** C2 (as stated, refuted): a non-empty directory at an unmanaged target,
    without force and without an overwrite or backup decision, does not make
    the mapping fail with a Filesystem error: the conflict is decided first,
    and a skip decision leaves the directory and records the mapping as
    skipped, without any error. *)
Lemma unpermitted_directory_is_skipped_not_failed :
  ¬ (forall fuel opts es l m w r w',
       fs w !! target m = Some Dir -> entries (fs w) (target m) <> [] ->
       force opts = false -> isManaged (target m) es = false ->
       (forall d w1, resolveConflictPolicy (target m) (conflictState l) w = (Ok d, w1) ->
                     action d <> overwrite /\ action d <> backup) ->
       syncMapping fuel opts es l m w = (r, w') ->
       exists msg, r = Throw (AgentConfigError msg ExitCodes.Filesystem)).
Proof.
  intros claim.
  pose (opts := ex_options ex_one link false None None).
  pose (m := ex_mapping ex_agent_md ex_AGENTS_md link).
  pose (w := ex_world ex_tree_dir true).
  pose (r := syncMapping 8 opts None (initialLoop opts) m w).
  assert (Hr : r = (Ok (skip_with "Skipping unmanaged target: /t/AGENTS.md" m
                          {| policy := Some skip; canAsk := true |} (initialLoop opts)),
                    snd r)) by (vm_compute; reflexivity).
  edestruct (claim 8 opts None (initialLoop opts) m w) as (msg & Hmsg).
  - vm_compute. reflexivity.
  - vm_compute. discriminate.
  - reflexivity.
  - reflexivity.
  - intros d w1 Hd.
    rewrite resolveConflictPolicy_cannot_ask in Hd by (auto; reflexivity).
    inversion Hd; subst. simpl. split; discriminate.
  - exact Hr.
  - discriminate.
Qed.

(** C2 (amended): a non-empty directory at the target of a mapping whose
    source exists is changed only when force is set, the target is managed,
    or the conflict decision is overwrite or backup.  In every other case the
    directory and all below it stay as they are, and the mapping is either
    skipped with a warning (decision skip) or the run is aborted with a
    Conflict error (decision cancel).  The apply step itself, reached without
    permission, throws a Filesystem error and leaves the directory as it is. *)
Theorem directory_replaced_only_with_permission :
  forall fuel opts es l m w ns,
    fs w !! source m = Some ns ->
    fs w !! target m = Some Dir -> entries (fs w) (target m) <> [] ->
    (forall r w',
       syncMapping fuel opts es l m w = (r, w') ->
       (force opts = true \/ isManaged (target m) es = true
        \/ exists d w1,
             resolveConflictPolicy (target m) (conflictState l) w = (Ok d, w1)
             /\ (action d = overwrite \/ action d = backup))
       \/ (same_below (target m) w w'
           /\ (r = Throw (AgentConfigError "Sync cancelled" ExitCodes.Conflict)
               \/ exists cs,
                    r = Ok (skip_with ("Skipping unmanaged target: "
                                       +:+ render (target m)) m cs l))))
    /\ (forall cs r w',
          dryRun opts = false ->
          syncApply fuel opts m cs false l w = (r, w') ->
          (exists msg, r = Throw (AgentConfigError msg ExitCodes.Filesystem))
          /\ same_below (target m) w w').
Proof.
  intros fuel opts es l m w ns Hs Hd He. split.
  - intros r w' H.
    destruct (force opts) eqn:Hf; [left; left; reflexivity|].
    destruct (isManaged (target m) es) eqn:Hm; [left; right; left; reflexivity|].
    rewrite (syncMapping_conflict fuel opts es l m w ns Dir Hs Hd Hf Hm) in H.
    destruct (resolveConflictPolicy_total (target m) (conflictState l) w) as (d & w1 & Hdec).
    rewrite (bind_eq_Ok _ _ _ _ _ Hdec) in H.
    pose proof (resolveConflictPolicy_same_fs _ _ _ _ _ Hdec) as Hfs.
    destruct (action d) eqn:Hact.
    + left. right. right. exists d, w1. auto.
    + left. right. right. exists d, w1. auto.
    + right. inversion H; subst. split; [|right; eauto].
      intros k _. rewrite Hfs. reflexivity.
    + right. inversion H; subst. split; [|left; reflexivity].
      intros k _. rewrite Hfs. reflexivity.
  - intros cs r w' Hdry H. eapply syncApply_refuses; eassumption.
Qed.

Lemma directory_replaced_only_with_permission_witness :
  let opts := ex_options ex_one link false None None in
  let m := ex_mapping ex_agent_md ex_AGENTS_md link in
  let w := ex_world ex_tree_dir true in
  exists r w',
    syncApply 8 opts m (conflictState (initialLoop opts)) false (initialLoop opts) w = (r, w')
    /\ (exists msg, r = Throw (AgentConfigError msg ExitCodes.Filesystem))
    /\ fs w' !! (ex_AGENTS_md ++ ["nested.txt"]) = Some (File (Raw "data")).
Proof.
  intros opts m w.
  pose (r := syncApply 8 opts m (conflictState (initialLoop opts)) false (initialLoop opts) w).
  exists (fst r), (snd r).
  destruct (proj2 (directory_replaced_only_with_permission 8 opts None (initialLoop opts)
                     m w (File (Raw "hello"))
                     ltac:(vm_compute; reflexivity) ltac:(vm_compute; reflexivity)
                     ltac:(vm_compute; discriminate))
              (conflictState (initialLoop opts)) (fst r) (snd r) eq_refl
              (surjective_pairing r)) as (Hmsg & Hsame).
  split; [exact (surjective_pairing r)|]. split; [exact Hmsg|].
  rewrite Hsame; [vm_compute; reflexivity|]. apply prefix_app_r. reflexivity.
Defined.




(** C10: when [syncConfigs] ends by throwing, the snapshot file is what it
    was before the run, so what the failing run had applied is not recorded:
    reading the state afterwards gives what it gave before.  No mapping
    targets the snapshot file itself, a directory that holds it, or a path
    below it: the file belongs to the state store alone. *)
Theorem failed_run_leaves_snapshot_untouched :
  forall fuel hashPath opts w e w',
    syncConfigs fuel hashPath opts w = (Throw e, w') ->
    (forall ms es, plan opts w = (Ok (ms, es), w) ->
                   Forall (fun m => apart (target m) (getStatePath (sourceRoot opts))) ms) ->
    fs w' !! getStatePath (sourceRoot opts) = fs w !! getStatePath (sourceRoot opts)
    /\ ((forall text, fs w !! getStatePath (sourceRoot opts) <> Some (Symlink text)) ->
        fst (readState (sourceRoot opts) w') = fst (readState (sourceRoot opts) w)).
Proof.
  intros fuel hashPath opts w e w' Hrun Hapart.
  assert (Hsame : same_at (getStatePath (sourceRoot opts)) w w').
  { rewrite syncConfigs_eq in Hrun.
    destruct (bind_inv _ _ _ _ _ Hrun) as [([ms es] & w0 & Hp & H)|[(e' & Hp & _)|[Hp _]]].
    - pose proof (plan_pure _ _ _ _ Hp) as ->.
      specialize (Hapart ms es Hp).
      assert (Hloop : forall r1 w1,
                 syncLoop fuel opts es (initialLoop opts) ms w = (r1, w1) ->
                 same_at (getStatePath (sourceRoot opts)) w w1).
      { intros r1 w1. apply syncLoop_same_at; [exact Hapart|].
        intros ts t. apply backup_apart_state. }
      destruct (bind_inv _ _ _ _ _ H) as [(l & w1 & Hl & Hpe)|[(e' & Hl & _)|[Hl _]]].
      + transitivity w1; [eapply Hloop, Hl|].
        eapply persist_failed; [exact Hpe|discriminate].
      + eapply Hloop, Hl.
      + eapply Hloop, Hl.
    - apply plan_pure in Hp as ->. reflexivity.
    - apply plan_pure in Hp as ->. reflexivity. }
  split; [exact Hsame|]. intros Hnl. apply readState_same_node; assumption.
Qed.

Lemma failed_run_leaves_snapshot_untouched_witness :
  let opts := ex_options ex_then_missing copy true None (Some true) in
  let w := ex_world ex_tree_drift true in
  exists w',
    syncConfigs 8 ex_hash opts w
    = (Throw (AgentConfigError "Missing source: /s/missing.md" ExitCodes.Validation), w')
    /\ fs w' !! ["t"; "FIRST.md"] = Some (File (Raw "hello"))
    /\ fs w' !! ["s"; ".sync-state.json"] = Some (File (Snapshot ex_snapshot)).
Proof.
  intros opts w. pose (r := syncConfigs 8 ex_hash opts w).
  assert (Hr : r = (Throw (AgentConfigError "Missing source: /s/missing.md"
                                            ExitCodes.Validation), snd r))
    by (vm_compute; reflexivity).
  exists (snd r). split; [exact Hr|]. split; [vm_compute; reflexivity|].
  destruct (failed_run_leaves_snapshot_untouched 8 ex_hash opts w _ _ Hr) as [Hsame _].
  - intros ms es Hp.
    assert (Hms : ms = [ex_mapping ex_agent_md ["t"; "FIRST.md"] copy;
                        ex_mapping ["s"; "missing.md"] ex_AGENTS_md copy]).
    { assert (Hc : fst (plan opts w) = Ok (ms, es)) by (rewrite Hp; reflexivity).
      vm_compute in Hc. inversion Hc. reflexivity. }
    rewrite Hms. repeat constructor; intros Hpre;
      apply (bool_decide_pack _) in Hpre; vm_compute in Hpre; exact Hpre.
  - etransitivity; [exact Hsame|]. vm_compute. reflexivity.
Defined.



(** * Further properties of the engine *)

(** X1: a dry run with an explicit link or copy mode leaves the file tree
    exactly as it was, whatever its outcome (it may still end with an
    error), and a dry run that returns reports no mapping as updated. *)
Theorem dry_run_changes_nothing :
  forall fuel hashPath opts w r w',
    dryRun opts = true -> linkMode opts <> auto ->
    syncConfigs fuel hashPath opts w = (r, w') ->
    fs w' = fs w /\ forall res, r = Ok res -> updated res = [].
Proof.
  intros fuel hashPath opts w r w' Hdry _ Hrun.
  rewrite syncConfigs_eq in Hrun.
  destruct (bind_inv _ _ _ _ _ Hrun) as [([ms es] & w0 & Hp & H)|[(e & Hp & ->)|[Hp ->]]].
  2,3: apply plan_pure in Hp as ->; split; [reflexivity|discriminate].
  apply plan_pure in Hp as ->.
  destruct (bind_inv _ _ _ _ _ H) as [(l & w1 & Hl & Hpe)|[(e & Hl & ->)|[Hl ->]]].
  2,3: split; [exact (proj1 (syncLoop_dry fuel opts es ms Hdry _ _ _ _ Hl))|discriminate].
  destruct (syncLoop_dry fuel opts es ms Hdry _ _ _ _ Hl) as [Hfs Hup].
  unfold persist in Hpe. rewrite Hdry in Hpe. simpl in Hpe.
  unfold bind, ret in Hpe. inversion Hpe; subst. split; [exact Hfs|].
  intros res Hres. inversion Hres. simpl. exact (Hup l eq_refl).
Qed.

Lemma dry_run_changes_nothing_witness :
  let opts := ex_dry_options ex_two copy (Some overwrite) in
  let w := ex_world ex_tree_taken true in
  exists res w',
    syncConfigs 8 ex_hash opts w = (Ok res, w')
    /\ fs w' = fs w /\ updated res = [] /\ length (planned res) = 2.
Proof.
  intros opts w. pose (r := syncConfigs 8 ex_hash opts w).
  assert (Hr : r = (Ok {| planned := [ex_mapping ex_agent_md ["t"; "FIRST.md"] copy;
                                     ex_mapping ex_agent_md ex_AGENTS_md copy];
                          updated := []; skipped := []; warnings := [] |}, snd r))
    by (vm_compute; reflexivity).
  destruct (dry_run_changes_nothing 8 ex_hash opts w _ _ eq_refl
              ltac:(discriminate) Hr) as [Hfs Hup].
  eexists _, (snd r). split; [exact Hr|]. split; [exact Hfs|].
  split; [exact (Hup _ eq_refl)|reflexivity].
Defined.

(** X2: in the result of a run, the updated and the skipped mappings are
    taken from the planned ones, in their order; outside a dry run every
    planned mapping is in exactly one of the two lists. *)
Theorem planned_is_updated_plus_skipped :
  forall fuel hashPath opts w res w',
    syncConfigs fuel hashPath opts w = (Ok res, w') ->
    updated res `sublist_of` planned res
    /\ skipped res `sublist_of` planned res
    /\ (dryRun opts = false -> planned res ≡ₚ updated res ++ skipped res).
Proof.
  intros fuel hashPath opts w res w' Hrun.
  apply syncConfigs_Ok_inv in Hrun as (ms & es & l & w1 & _ & Hloop & _ & ->).
  destruct (syncLoop_partition fuel opts es ms _ _ _ _ Hloop)
    as (us & ss & Hu & Hs & Hsu & Hss & Hperm).
  simpl in *. rewrite Hu, Hs. auto.
Qed.

Lemma planned_is_updated_plus_skipped_witness :
  let opts := ex_options ex_then_missing copy true None None in
  let w := ex_world ex_tree_fresh true in
  let first := ex_mapping ex_agent_md ["t"; "FIRST.md"] copy in
  let second := ex_mapping ["s"; "missing.md"] ex_AGENTS_md copy in
  exists res w',
    syncConfigs 8 ex_hash opts w = (Ok res, w')
    /\ updated res = [first] /\ skipped res = [second]
    /\ planned res ≡ₚ updated res ++ skipped res.
Proof.
  intros opts w first second. pose (r := syncConfigs 8 ex_hash opts w).
  assert (Hr : r = (Ok {| planned := [first; second]; updated := [first];
                          skipped := [second];
                          warnings := ["Skipping missing source: /s/missing.md"] |},
                    snd r)) by (vm_compute; reflexivity).
  eexists _, (snd r). split; [exact Hr|]. split; [reflexivity|]. split; [reflexivity|].
  exact (proj2 (proj2 (planned_is_updated_plus_skipped 8 ex_hash opts w _ _ Hr)) eq_refl).
Defined.

(** X3: the planned mappings of a run all carry one mode, which is link or
    copy and never auto: the mode asked for when that is link or copy, and
    what the platform allows when it is auto. *)
Theorem planned_mappings_share_a_resolved_mode :
  forall fuel hashPath opts w res w',
    syncConfigs fuel hashPath opts w = (Ok res, w') ->
    exists md,
      md <> auto
      /\ (linkMode opts <> auto -> md = linkMode opts)
      /\ Forall (fun m => mode m = md) (planned res).
Proof.
  intros fuel hashPath opts w res w' Hrun.
  apply syncConfigs_Ok_inv in Hrun as (ms & es & l & w1 & Hplan & _ & _ & ->).
  unfold plan in Hplan.
  apply bind_Ok in Hplan as (md & w2 & Hmd & Hplan).
  apply bind_Ok in Hplan as (ms' & w3 & Hms & Hplan).
  apply bind_Ok in Hplan as (es' & w4 & _ & Hret). inversion Hret; subst.
  destruct (resolveSyncMode_not_auto _ _ _ _ Hmd) as [Hna Hsame].
  exists md. split; [exact Hna|]. split; [exact Hsame|]. simpl.
  eapply (resolveMappings_each (fun m => mode m = md)); [|exact Hms].
  intros; reflexivity.
Qed.

Lemma planned_mappings_share_a_resolved_mode_witness :
  let opts := ex_options ex_two auto true None None in
  let w := ex_world ex_tree_fresh false in
  exists res w',
    syncConfigs 8 ex_hash opts w = (Ok res, w')
    /\ Forall (fun m => mode m = copy) (planned res).
Proof.
  intros opts w. pose (r := syncConfigs 8 ex_hash opts w).
  assert (Hr : r = (Ok {| planned := [ex_mapping ex_agent_md ["t"; "FIRST.md"] copy;
                                     ex_mapping ex_agent_md ex_AGENTS_md copy];
                          updated := [ex_mapping ex_agent_md ["t"; "FIRST.md"] copy;
                                      ex_mapping ex_agent_md ex_AGENTS_md copy];
                          skipped := []; warnings := [] |}, snd r))
    by (vm_compute; reflexivity).
  eexists _, (snd r). split; [exact Hr|].
  destruct (planned_mappings_share_a_resolved_mode 8 ex_hash opts w _ _ Hr)
    as (md & _ & _ & Hall).
  assert (Hmd : md = copy).
  { apply Forall_cons in Hall as [Hm _]. symmetry. exact Hm. }
  subst md. exact Hall.
Defined.

(** X4: a filter on the agent keeps the mappings of that agent only; a name
    that the configuration does not know gives an empty plan, not an error;
    and the empty string is no filter at all. *)
Theorem agent_filter_selects_one_agent :
  forall cfg sr md pr lm name,
    name <> "" ->
    (forall w ms w',
        resolveMappings cfg sr md pr lm (Some name) w = (Ok ms, w') ->
        Forall (fun m => agent m = name) ms)
    /\ (name ∉ (agents cfg).*1 ->
        forall w, resolveMappings cfg sr md pr lm (Some name) w = (Ok [], w))
    /\ resolveMappings cfg sr md pr lm (Some "") = resolveMappings cfg sr md pr lm None.
Proof.
  intros cfg sr md pr lm name Hname.
  assert (Htruthy : truthy (Some name) = true).
  { simpl. apply negb_true_iff, bool_decide_eq_false. exact Hname. }
  split; [|split].
  - intros w ms w' H.
    eapply (resolveMappings_each (fun m => agent m = name)); [|exact H].
    intros n entry scope mf text _ Haf _ _. simpl.
    specialize (Haf Htruthy). congruence.
  - intros Hnot w. unfold resolveMappings.
    match goal with |- foldM ?f _ _ _ = _ => set (step := f) end.
    assert (Hstep : forall acc n entry w0,
               n <> name -> step acc (n, entry) w0 = (Ok acc, w0)).
    { intros acc n entry w0 Hn. unfold step. rewrite Htruthy.
      rewrite bool_decide_eq_false_2 by congruence. reflexivity. }
    clearbody step. revert Hnot. generalize (agents cfg).
    generalize (@nil ResolvedMapping). intros acc l. revert acc.
    induction l as [|[n entry] l IH]; intros acc Hnot; [reflexivity|].
    assert (Hn : n <> name).
    { intros Heq. apply Hnot. subst n. simpl. left. }
    cbn [foldM]. rewrite (bind_eq_Ok _ _ _ _ _ (Hstep acc n entry w Hn)).
    apply IH. intros Hin. apply Hnot. simpl. right. exact Hin.
  - reflexivity.
Qed.

Lemma agent_filter_selects_one_agent_witness :
  let w := ex_world ex_tree_fresh true in
  resolveMappings ex_two_agents ["s"] global None copy (Some "claude") w
  = (Ok [{| agent := "claude"; source := ex_agent_md;
            target := ["t"; "claude"; "AGENTS.md"]; mode := copy |}], w)
  /\ resolveMappings ex_two_agents ["s"] global None copy (Some "cursor") w = (Ok [], w).
Proof.
  intros w.
  destruct (agent_filter_selects_one_agent ex_two_agents ["s"] global None copy "cursor"
              ltac:(discriminate)) as (_ & Hnone & _).
  split; [vm_compute; reflexivity|]. apply Hnone.
  vm_compute. intros H. repeat (apply elem_of_cons in H as [H|H]; [discriminate|]).
  inversion H.
Defined.

(** X5: project mode without a project root (null or the empty string)
    fails with a Validation error as soon as the configuration holds an agent
    that passes the filter and has a project scope; when there is no such
    agent, the plan is empty and nothing is reported. *)
Theorem project_mode_requires_a_project_root :
  forall cfg sr pr lm af w,
    truthy pr = false ->
    ((exists name entry scope,
         (name, entry) ∈ agents cfg /\ (truthy af = true -> af = Some name)
         /\ cfg_project entry = Some scope) ->
     resolveMappings cfg sr project pr lm af w
     = (Throw (AgentConfigError "Project root is required for project mode"
                                ExitCodes.Validation), w))
    /\ ((forall name entry, (name, entry) ∈ agents cfg ->
            (truthy af = true -> af = Some name) -> cfg_project entry = None) ->
        resolveMappings cfg sr project pr lm af w = (Ok [], w)).
Proof.
  intros cfg sr pr lm af w Hpr. unfold resolveMappings.
  match goal with |- context [foldM ?f _ _ _] => set (step := f) end.
  assert (Hskip : forall acc n entry w0,
             truthy af && negb (bool_decide (af = Some n)) = true
             \/ cfg_project entry = None ->
             step acc (n, entry) w0 = (Ok acc, w0)).
  { intros acc n entry w0 [Hsel|Hnone]; unfold step.
    - rewrite Hsel. reflexivity.
    - destruct (truthy af && negb (bool_decide (af = Some n))); [reflexivity|].
      rewrite Hnone. reflexivity. }
  assert (Hthrow : forall acc n entry scope w0,
             truthy af && negb (bool_decide (af = Some n)) = false ->
             cfg_project entry = Some scope ->
             step acc (n, entry) w0
             = (Throw (AgentConfigError "Project root is required for project mode"
                                        ExitCodes.Validation), w0)).
  { intros acc n entry scope w0 Hsel Hsome. unfold step.
    rewrite Hsel, Hsome, Hpr. reflexivity. }
  assert (Hsel : forall n, (truthy af = true -> af = Some n) <->
                           truthy af && negb (bool_decide (af = Some n)) = false).
  { intros n. destruct (truthy af); simpl.
    - rewrite negb_false_iff, bool_decide_eq_true. tauto.
    - split; [reflexivity|discriminate]. }
  clearbody step. generalize (@nil ResolvedMapping). generalize (agents cfg).
  intros l acc. split.
  - revert acc. induction l as [|[n entry] l IH]; intros acc (name & e & scope & Hin & Haf & Hsc).
    + inversion Hin.
    + cbn [foldM].
      destruct (truthy af && negb (bool_decide (af = Some n))) eqn:Hs.
      { rewrite (bind_eq_Ok _ _ _ _ _ (Hskip acc n entry w (or_introl Hs))).
        apply IH. exists name, e, scope. split; [|auto].
        apply elem_of_cons in Hin as [Heq|Hin]; [|exact Hin].
        inversion Heq; subst. apply Hsel in Haf. congruence. }
      destruct (cfg_project entry) as [sc|] eqn:Hp.
      { apply bind_eq_Throw. eapply Hthrow; eassumption. }
      rewrite (bind_eq_Ok _ _ _ _ _ (Hskip acc n entry w (or_intror Hp))).
      apply IH. exists name, e, scope. split; [|auto].
      apply elem_of_cons in Hin as [Heq|Hin]; [|exact Hin].
      inversion Heq; subst. congruence.
  - revert acc. induction l as [|[n entry] l IH]; intros acc Hall; [reflexivity|].
    cbn [foldM].
    assert (Hthis : truthy af && negb (bool_decide (af = Some n)) = true
                    \/ cfg_project entry = None).
    { destruct (truthy af && negb (bool_decide (af = Some n))) eqn:Hs; [left; reflexivity|].
      right. apply (Hall n entry); [left|]. apply Hsel. exact Hs. }
    rewrite (bind_eq_Ok _ _ _ _ _ (Hskip acc n entry w Hthis)).
    apply IH. intros name e Hin. apply Hall. right. exact Hin.
Qed.

Lemma project_mode_requires_a_project_root_witness :
  let w := ex_world ex_tree_fresh true in
  resolveMappings ex_project_config ["s"] project None copy None w
  = (Throw (AgentConfigError "Project root is required for project mode"
                             ExitCodes.Validation), w)
  /\ resolveMappings ex_project_config ["s"] project (Some "") copy (Some "codex") w
     = (Ok [], w).
Proof.
  intros w. split.
  - apply (proj1 (project_mode_requires_a_project_root ex_project_config ["s"] None
                    copy None w eq_refl)).
    eexists "claude", _, _. split; [left|]. split; [discriminate|reflexivity].
  - apply (proj2 (project_mode_requires_a_project_root ex_project_config ["s"] (Some "")
                    copy (Some "codex") w eq_refl)).
    intros name entry Hin Haf. specialize (Haf eq_refl).
    apply elem_of_cons in Hin as [Heq|Hin]; [|inversion Hin].
    inversion Heq; subst. discriminate.
Defined.

(** X6: every source and every target of the plan is an absolute
    normalised path: no empty component, no [.] and no [..], however the
    configuration spells its roots and files, provided the source root and
    the working directory are normalised themselves. *)
Theorem planned_paths_are_normalised :
  forall cfg sr md pr lm af w ms w',
    normalised sr -> normalised (cwd w) ->
    resolveMappings cfg sr md pr lm af w = (Ok ms, w') ->
    Forall (fun m => normalised (source m) /\ normalised (target m)) ms.
Proof.
  intros cfg sr md pr lm af w ms w' Hsr Hcwd H.
  eapply resolveMappings_each; [|exact H].
  intros name entry scope mf text _ _ _ _. simpl. unfold resolveFromRoot. split.
  - apply path_resolve_normalised, Hsr.
  - apply path_resolve_normalised, path_resolve_normalised, Hcwd.
Qed.

Lemma planned_paths_are_normalised_witness :
  let w := ex_world ex_tree_fresh true in
  exists m1 m2 m3,
    resolveMappings ex_two_agents ["s"] global None copy None w = (Ok [m1; m2; m3], w)
    /\ target m3 = ["t"; ".agents"; "skills"]
    /\ normalised (target m3).
Proof.
  intros w.
  pose (r := resolveMappings ex_two_agents ["s"] global None copy None w).
  assert (Hr : r = (Ok [{| agent := "claude"; source := ex_agent_md;
                           target := ["t"; "claude"; "AGENTS.md"]; mode := copy |};
                        {| agent := "codex"; source := ex_agent_md;
                           target := ["t"; "codex"; "AGENTS.md"]; mode := copy |};
                        {| agent := "codex"; source := ["s"; "skills"];
                           target := ["t"; ".agents"; "skills"]; mode := copy |}], w))
    by (vm_compute; reflexivity).
  eexists _, _, _. split; [exact Hr|]. split; [reflexivity|].
  assert (Hs : normalised ["s"]).
  { repeat constructor; discriminate. }
  assert (Hw : normalised (cwd w)).
  { repeat constructor; discriminate. }
  pose proof (planned_paths_are_normalised ex_two_agents ["s"] global None copy None
                w _ w Hs Hw Hr) as Hall.
  apply Forall_cons in Hall as [_ Hall]. apply Forall_cons in Hall as [_ Hall].
  apply Forall_cons in Hall as [[_ Ht] _]. exact Ht.
Defined.

(** X7: a relative path without a [..] component resolves to a path at or
    below the root it is resolved from; an absolute one is resolved on its
    own, whatever the root. *)
Theorem resolveFromRoot_stays_below_root :
  forall root relativePath,
    (isAbsolute relativePath = false ->
     ".." ∉ split_slash relativePath "" ->
     root `prefix_of` resolveFromRoot root relativePath)
    /\ (isAbsolute relativePath = true ->
        resolveFromRoot root relativePath = resolveFromRoot [] relativePath).
Proof.
  intros root relativePath. unfold resolveFromRoot, path_resolve. split.
  - intros -> Hdots. apply walk_below, Hdots.
  - intros ->. reflexivity.
Qed.

Lemma resolveFromRoot_stays_below_root_witness :
  ["home"; "u"; "project"] `prefix_of`
    resolveFromRoot ["home"; "u"; "project"] ".claude/agents/"
  /\ resolveFromRoot ["home"; "u"; "project"] ".claude/agents/"
     = ["home"; "u"; "project"; ".claude"; "agents"].
Proof.
  split; [|reflexivity].
  apply (proj1 (resolveFromRoot_stays_below_root ["home"; "u"; "project"]
                  ".claude/agents/")); [reflexivity|].
  vm_compute. intros H. repeat (apply elem_of_cons in H as [H|H]; [discriminate|]).
  inversion H.
Defined.



(** X9: the apply step fails in two ways only, both Filesystem errors: it
    refuses to replace a non-empty directory, which it does only when the
    directory may not be replaced, or it reports that it failed to sync the
    target, whatever the platform's error was. *)
Theorem apply_fails_only_with_filesystem_error :
  forall fuel opts m cs allow l w e w',
    syncApply fuel opts m cs allow l w = (Throw e, w') ->
    (e = AgentConfigError ("Refusing to replace non-empty directory: "
                           +:+ render (target m)) ExitCodes.Filesystem
     /\ allow = false)
    \/ e = AgentConfigError ("Failed to sync " +:+ render (target m))
                            ExitCodes.Filesystem.
Proof.
  intros fuel opts m cs allow l w e w' H. unfold syncApply in H.
  destruct (dryRun opts); [discriminate|].
  destruct (bind_inv _ _ _ _ _ H) as [(ws & w1 & _ & H2)|[(e' & H1 & He)|[_ He]]];
    [discriminate| |discriminate].
  inversion He; subst e'. clear He H.
  refine (raises_try_catch
            (fun e => (e = refuse (target m) /\ allow = false)
                      \/ e = AgentConfigError ("Failed to sync " +:+ render (target m))
                                              ExitCodes.Filesystem)
            (apply_error (target m) allow) _ _ _ _ w e w' H1).
  - apply (applyMapping_raises fuel m (loop_warnings l) (Some allow)).
  - intros e0 He0. destruct (instanceof_AgentConfigError e0) eqn:Hi.
    + apply raises_throw. left. apply apply_error_not_errno; assumption.
    + apply raises_throw. right. reflexivity.
Qed.

Lemma apply_fails_only_with_filesystem_error_witness :
  let opts := ex_options ex_one copy true None None in
  let m := ex_mapping ex_agent_md ex_AGENTS_md copy in
  let w := ex_world [([], Dir); (["s"], Dir); (ex_agent_md, File (Raw "hello"));
                     (["t"], File (Raw "in the way"))] true in
  exists e w',
    syncApply 8 opts m (conflictState (initialLoop opts)) true (initialLoop opts) w
    = (Throw e, w')
    /\ e = AgentConfigError ("Failed to sync " +:+ render (target m)) ExitCodes.Filesystem.
Proof.
  intros opts m w.
  pose (r := syncApply 8 opts m (conflictState (initialLoop opts)) true (initialLoop opts) w).
  assert (Hr : r = (Throw (AgentConfigError "Failed to sync /t/AGENTS.md"
                                            ExitCodes.Filesystem), snd r))
    by (vm_compute; reflexivity).
  eexists _, (snd r). split; [exact Hr|].
  destruct (apply_fails_only_with_filesystem_error 8 opts m
              (conflictState (initialLoop opts)) true (initialLoop opts) w _ _ Hr)
    as [[_ Hallow]|He]; [discriminate|exact He].
Defined.



(** X11: a run without a terminal is never cancelled, unless the caller
    asked for it: when the policy supplied is not cancel, no error of the
    run is a Conflict error. *)
Theorem unattended_run_is_never_cancelled :
  forall fuel hashPath opts w e w',
    isTTY w = false -> conflictPolicy opts <> Some cancel ->
    syncConfigs fuel hashPath opts w = (Throw e, w') ->
    forall message, e <> AgentConfigError message ExitCodes.Conflict.
Proof.
  intros fuel hashPath opts w e w' Htty Hpol H.
  assert (Hplan : raises (fun e => forall message,
                              e <> AgentConfigError message ExitCodes.Conflict)
                         (plan opts)).
  { unfold plan. apply raises_seq; [apply resolveSyncMode_never|].
    intros md. apply raises_seq.
    { eapply raises_weaken; [|apply resolveMappings_raises]. intros e0 ->. discriminate. }
    intros rms. apply raises_seq; [|intros; apply raises_ret].
    eapply raises_weaken; [|apply readState_raises].
    intros e0 [He0|[msg ->]]; [|discriminate]. intros message ->. discriminate He0. }
  assert (Hpersist : forall ms es l,
             raises (fun e => forall message,
                         e <> AgentConfigError message ExitCodes.Conflict)
                    (persist hashPath opts ms es l)).
  { intros ms es l. unfold persist. apply raises_seq; [|intros; apply raises_ret].
    apply raises_if; [|apply raises_ret].
    eapply raises_weaken with (P := errno).
    { intros e0 He0 message ->. discriminate He0. }
    apply raises_seq; [apply buildState_errno|intros st; apply writeState_errno]. }
  rewrite syncConfigs_eq in H.
  destruct (bind_inv _ _ _ _ _ H) as [([ms es] & w0 & Hp & H1)|[(e1 & Hp & He)|[_ He]]];
    [| |discriminate].
  2:{ inversion He; subst e1. exact (Hplan _ _ _ Hp). }
  apply plan_pure in Hp as ->.
  destruct (bind_inv _ _ _ _ _ H1) as [(l & w1 & Hl & Hpe)|[(e1 & Hl & He)|[_ He]]];
    [| |discriminate].
  - exact (Hpersist _ _ _ _ _ _ Hpe).
  - inversion He; subst e1.
    exact (syncLoop_unattended fuel opts es ms (initialLoop opts) _ _ _ Htty Hpol Hl _ eq_refl).
Qed.

Lemma unattended_run_is_never_cancelled_witness :
  let opts := ex_options ex_then_missing copy false None (Some true) in
  let w := ex_world (ex_tree_taken ++ [(["t"; "FIRST.md"], File (Raw "mine"))]) true in
  exists e w',
    syncConfigs 8 ex_hash opts w = (Throw e, w')
    /\ e = AgentConfigError "Missing source: /s/missing.md" ExitCodes.Validation
    /\ e <> AgentConfigError "Sync cancelled" ExitCodes.Conflict.
Proof.
  intros opts w. pose (r := syncConfigs 8 ex_hash opts w).
  assert (Hr : r = (Throw (AgentConfigError "Missing source: /s/missing.md"
                                            ExitCodes.Validation), snd r))
    by (vm_compute; reflexivity).
  eexists _, (snd r). split; [exact Hr|]. split; [reflexivity|].
  apply (unattended_run_is_never_cancelled 8 ex_hash opts w _ _ eq_refl
           ltac:(discriminate) Hr).
Defined.



(** X13: a copy that succeeds leaves a regular node at the destination: a
    directory for a directory, a file with the same content for a file, and
    for a symbolic link a file with the content the link leads to, not a
    link.  The destination is reached without going through a symbolic
    link. *)
Theorem copy_leaves_a_regular_node :
  forall fuel src dst w w',
    (forall k text, k `prefix_of` dst -> fs w !! k <> Some (Symlink text)) ->
    copyFileOrDir fuel src dst w = (Ok tt, w') ->
    match fs w !! src with
    | Some Dir => fs w' !! dst = Some Dir
    | Some (File c) => fs w' !! dst = Some (File c)
    | Some (Symlink text) =>
        exists c, read_through 40 (fs w) src = inr c /\ fs w' !! dst = Some (File c)
    | None => False
    end.
Proof.
  intros fuel src dst w w' _ H.
  pose proof (copyFileOrDir_result fuel src dst w w' H) as Hres.
  destruct (fs w !! src) as [[c| |text]|]; exact Hres.
Qed.

Lemma copy_leaves_a_regular_node_witness :
  let w := ex_world (ex_tree_fresh ++ [(["s"; "link.md"], Symlink "agent.md")]) true in
  exists w',
    copyFileOrDir 8 ["s"; "link.md"] ex_AGENTS_md w = (Ok tt, w')
    /\ fs w' !! ex_AGENTS_md = Some (File (Raw "hello")).
Proof.
  intros w. pose (r := copyFileOrDir 8 ["s"; "link.md"] ex_AGENTS_md w).
  assert (Hr : r = (Ok tt, snd r)) by (vm_compute; reflexivity).
  exists (snd r). split; [exact Hr|].
  assert (Hplain : forall k text, k `prefix_of` ex_AGENTS_md ->
                                  fs w !! k <> Some (Symlink text)).
  { intros k text Hk.
    apply prefix_of_snoc with (p := ["t"]) in Hk as [Hk| ->]; [|vm_compute; discriminate].
    apply prefix_of_snoc with (p := []) in Hk as [Hk| ->]; [|vm_compute; discriminate].
    apply prefix_nil_inv in Hk as ->. vm_compute. discriminate. }
  pose proof (copy_leaves_a_regular_node 8 _ _ w _ Hplain Hr) as H.
  change (fs w !! ["s"; "link.md"]) with (Some (Symlink "agent.md")) in H.
  destruct H as (c & Hc & Hdst). rewrite Hdst. f_equal. f_equal.
  assert (Hc' : read_through 40 (fs w) ["s"; "link.md"] = inr (Raw "hello"))
    by (vm_compute; reflexivity).
  congruence.
Defined.

(** X14: what [writeState] writes, [readState] reads back; and the state
    can be written whenever nothing but directories lies on the way to the
    source root and the snapshot path is free or holds a regular file: the
    root is created when it is missing. *)
Theorem written_state_is_read_back :
  forall root st w,
    (forall w', writeState root st w = (Ok tt, w') ->
                readState root w' = (Ok (Some st), w'))
    /\ ((forall k, k `prefix_of` root -> fs w !! k = None \/ fs w !! k = Some Dir) ->
        (fs w !! getStatePath root = None
         \/ exists c, fs w !! getStatePath root = Some (File c)) ->
        exists w', writeState root st w = (Ok tt, w')
                   /\ forall k, k `prefix_of` root -> fs w' !! k = Some Dir).
Proof.
  intros root st w. split.
  - intros w' H. unfold writeState in H.
    apply bind_Ok in H as ([] & w1 & _ & H). apply fs_writeFile_Ok in H.
    apply readState_snapshot. rewrite H. apply lookup_insert_eq.
  - intros Hfree Hfile. unfold writeState.
    destruct (fs_mkdir_p_free root w Hfree) as [w1 Hmk].
    rewrite (bind_eq_Ok _ _ _ _ _ Hmk).
    pose proof (fs_mkdir_p_made _ _ _ Hmk) as Hdirs.
    pose proof (fs_mkdir_p_grown _ _ _ _ Hmk) as Hg.
    assert (Hroot : fs w1 !! dirname (getStatePath root) = Some Dir).
    { unfold getStatePath, join. rewrite dirname_snoc. apply Hdirs. reflexivity. }
    assert (Hsame : fs w1 !! getStatePath root = fs w !! getStatePath root).
    { eapply grown_other; [exact Hg|]. unfold getStatePath, join.
      intros Hpre. apply prefix_length in Hpre. rewrite length_app in Hpre.
      simpl in Hpre. lia. }
    assert (Hw : fs_writeFile (getStatePath root) (JSON_stringify st) w1
                 = (Ok tt, set_fs (<[getStatePath root := File (JSON_stringify st)]> (fs w1)) w1)).
    { unfold fs_writeFile. rewrite Hsame, Hroot.
      destruct Hfile as [-> |[c ->]]; reflexivity. }
    eexists. split; [exact Hw|].
    intros k Hk. simpl. rewrite lookup_insert_ne; [apply Hdirs, Hk|].
    intros <-. unfold getStatePath, join in Hk. apply prefix_length in Hk.
    rewrite length_app in Hk. simpl in Hk. lia.
Qed.

Lemma written_state_is_read_back_witness :
  let w := ex_world [([], Dir)] true in
  exists w',
    writeState ["home"; "u"; ".agentconfig"] ex_snapshot w = (Ok tt, w')
    /\ fs w' !! ["home"; "u"; ".agentconfig"] = Some Dir
    /\ readState ["home"; "u"; ".agentconfig"] w' = (Ok (Some ex_snapshot), w').
Proof.
  intros w.
  destruct (written_state_is_read_back ["home"; "u"; ".agentconfig"] ex_snapshot w)
    as [Hread Hwrite].
  destruct Hwrite as (w' & Hw & Hdirs).
  - intros k Hk.
    apply prefix_of_snoc with (p := ["home"; "u"]) in Hk as [Hk| ->]; [|left; reflexivity].
    apply prefix_of_snoc with (p := ["home"]) in Hk as [Hk| ->]; [|left; reflexivity].
    apply prefix_of_snoc with (p := []) in Hk as [Hk| ->]; [|left; reflexivity].
    apply prefix_nil_inv in Hk as ->. right. reflexivity.
  - left. reflexivity.
  - exists w'. split; [exact Hw|]. split; [apply Hdirs; reflexivity|].
    apply Hread, Hw.
Defined.









(** X19: where the platform refuses symbolic links, a link-mode apply that
    succeeds has fallen back to copying, unless the link was in place
    already: it leaves a regular file or directory at the target, not a link,
    and the last warning says so, with the error that made it fall back. *)
Theorem link_mode_falls_back_to_copy :
  forall fuel m ws o w ws' w',
    mode m <> copy -> target m <> [] ->
    symlinkAllowed w (target m) = false ->
    fs w !! target m <> Some (Symlink (render (source m))) ->
    applyMapping fuel m ws o w = (Ok ws', w') ->
    (exists n, fs w' !! target m = Some n /\ regular n = true)
    /\ exists before reason,
         ws `prefix_of` before
         /\ ws' = before ++ ["Symlink failed for " +:+ render (target m) +:+ " ("
                             +:+ reason +:+ "); falling back to copy"].
Proof.
  intros fuel m ws o w ws' w' Hmode Htarget Hno Hlink H.
  unfold applyMapping in H. destruct (decide (mode m = copy)); [contradiction|].
  apply bind_Ok in H as (pushed & w1 & Hparent & H).
  pose proof (ensureTargetParent_host _ _ _ _ _ _ Hparent) as (Hs & _).
  pose proof (ensureTargetParent_grown _ _ _ _ _ _ Hparent) as Hg.
  destruct (ensureTargetParent_warnings _ _ _ _ _ _ Hparent) as (before & -> & Hbefore).
  simpl in H.
  assert (Hlink1 : fs w1 !! target m <> Some (Symlink (render (source m)))).
  { rewrite (grown_other _ _ _ _ Hg); [exact Hlink|]. apply not_below_dirname, Htarget. }
  unfold try_catch in H.
  match type of H with
  | context [match ?c w1 with _ => _ end] => destruct (c w1) as [[a|e|] w2] eqn:Hbody
  end.
  - exfalso. eapply (link_branch_refused m before (default false o)); [| |exact Hbody].
    + rewrite Hs. exact Hno.
    + exact Hlink1.
  - destruct (instanceof_AgentConfigError e); [discriminate|].
    apply bind_Ok in H as ([] & w3 & Hcopy & Hret). inversion Hret; subst. split.
    + apply applyCopyMapping_recopies in Hcopy as (w4 & _ & Hcopy); [|exact Htarget].
      eapply copyFileOrDir_regular, Hcopy.
    + exists before, (formatError e). split; [exact Hbefore|reflexivity].
  - discriminate.
Qed.

Lemma link_mode_falls_back_to_copy_witness :
  let m := ex_mapping ex_agent_md ex_AGENTS_md link in
  let w := ex_world ex_tree_taken false in
  exists ws' w',
    applyMapping 8 m [] (Some true) w = (Ok ws', w')
    /\ fs w' !! ex_AGENTS_md = Some (File (Raw "hello"))
    /\ ws' = ["Symlink failed for /t/AGENTS.md (EPERM: EPERM); falling back to copy"].
Proof.
  intros m w. pose (r := applyMapping 8 m [] (Some true) w).
  assert (Hr : r = (Ok ["Symlink failed for /t/AGENTS.md (EPERM: EPERM); falling back to copy"],
                    snd r)) by (vm_compute; reflexivity).
  eexists _, (snd r). split; [exact Hr|].
  destruct (link_mode_falls_back_to_copy 8 m [] (Some true) w _ _
              ltac:(discriminate) ltac:(discriminate) eq_refl
              ltac:(vm_compute; discriminate) Hr) as [(n & Hn & Hreg) _].
  split; [|reflexivity].
  assert (Hc : fs (snd r) !! ex_AGENTS_md = Some (File (Raw "hello")))
    by (vm_compute; reflexivity).
  change (fs (snd r) !! ex_AGENTS_md = Some n) in Hn.
  rewrite Hn in Hc. rewrite Hn. exact Hc.
Defined.

(** X20: with force, the conflict policy has no effect: whatever policy is
    supplied, the run has the same outcome and leaves the same world. *)
Theorem force_overrides_the_conflict_policy :
  forall fuel hashPath opts p w,
    force opts = true ->
    syncConfigs fuel hashPath (with_policy p opts) w = syncConfigs fuel hashPath opts w.
Proof.
  intros fuel hashPath opts p w Hforce.
  rewrite !syncConfigs_eq. unfold bind at 1 3.
  change (plan (with_policy p opts)) with (plan opts).
  destruct (plan opts w) as [[[ms es]|e|] w0]; [|reflexivity..].
  unfold bind.
  pose proof (syncLoop_forced fuel opts p es ms (initialLoop opts)
                (initialLoop (with_policy p opts)) w0 Hforce eq_refl) as Hloop.
  destruct (syncLoop fuel (with_policy p opts) es (initialLoop (with_policy p opts)) ms w0)
    as [r' w1'];
    destruct (syncLoop fuel opts es (initialLoop opts) ms w0) as [r w1].
  unfold lists_of in Hloop. simpl in Hloop. injection Hloop as Hr Hw. subst w1'.
  destruct r' as [l'|e'|], r as [l|e|]; simpl in Hr; try discriminate Hr.
  - unfold loop_lists in Hr. injection Hr as Hu Hs Hws.
    unfold persist. change (dryRun (with_policy p opts)) with (dryRun opts).
    simpl. rewrite Hu, Hs, Hws. reflexivity.
  - injection Hr as ->. reflexivity.
  - reflexivity.
Qed.

Lemma force_overrides_the_conflict_policy_witness :
  let opts := ex_options ex_one copy true None None in
  let w := ex_world ex_tree_taken true in
  exists res w',
    syncConfigs 8 ex_hash (with_policy (Some cancel) opts) w = (Ok res, w')
    /\ updated res = [ex_mapping ex_agent_md ex_AGENTS_md copy]
    /\ fs w' !! ex_AGENTS_md = Some (File (Raw "hello")).
Proof.
  intros opts w. pose (r := syncConfigs 8 ex_hash opts w).
  assert (Hr : r = (Ok {| planned := [ex_mapping ex_agent_md ex_AGENTS_md copy];
                          updated := [ex_mapping ex_agent_md ex_AGENTS_md copy];
                          skipped := []; warnings := [] |}, snd r))
    by (vm_compute; reflexivity).
  eexists _, (snd r). split.
  { rewrite (force_overrides_the_conflict_policy 8 ex_hash opts (Some cancel) w eq_refl).
    exact Hr. }
  split; [reflexivity|vm_compute; reflexivity].
Defined.

(** X21: what a successful apply adds to the warnings.  In copy mode,
    nothing: a missing parent directory of the target is created without a
    word.  In link mode, the creation of a missing parent directory is
    reported, and so is a fall back to copying; nothing else is. *)
Theorem apply_reports_what_it_did :
  forall fuel m ws o w ws' w',
    applyMapping fuel m ws o w = (Ok ws', w') ->
    let created := "Created target parent directory: " +:+ render (dirname (target m))
                   +:+ " (for " +:+ render (target m) +:+ ")" in
    let before :=
      match fs w !! dirname (target m) with None => ws ++ [created] | Some _ => ws end in
    if decide (mode m = copy) then ws' = ws
    else ws' = before
         \/ exists reason,
              ws' = before ++ ["Symlink failed for " +:+ render (target m) +:+ " ("
                               +:+ reason +:+ "); falling back to copy"].
Proof.
  intros fuel m ws o w ws' w' H created before. unfold applyMapping in H.
  destruct (decide (mode m = copy)) as [Hcopy|Hlink].
  { apply bind_Ok in H as (u & w1 & _ & H). inversion H. reflexivity. }
  apply bind_Ok in H as (pushed & w1 & Hparent & H).
  assert (Hpushed : pushed = Some before).
  { unfold before. destruct (fs w !! dirname (target m)) as [n|] eqn:Hp.
    - eapply ensureTargetParent_present; eassumption.
    - apply (ensureTargetParent_created _ _ _ _ _ _ Hp Hparent). }
  subst pushed. simpl in H. unfold try_catch in H.
  match type of H with
  | context [match ?c w1 with _ => _ end] => destruct (c w1) as [[a|e|] w2] eqn:Hbody
  end.
  - inversion H; subst. left.
    exact (link_branch_warnings m before (default false o) _ _ _ Hbody).
  - destruct (instanceof_AgentConfigError e); [discriminate|].
    apply bind_Ok in H as (u & w3 & _ & H). inversion H. right.
    exists (formatError e). reflexivity.
  - discriminate.
Qed.

Lemma apply_reports_what_it_did_witness :
  let w := ex_world ex_tree_fresh true in
  let target := ["t"; "deep"; "AGENTS.md"] in
  (exists ws' w',
      applyMapping 8 (ex_mapping ex_agent_md target copy) ["earlier"] None w = (Ok ws', w')
      /\ fs w' !! ["t"; "deep"] = Some Dir /\ ws' = ["earlier"])
  /\ (exists w', applyMapping 8 (ex_mapping ex_agent_md target link) [] None w
                 = (Ok ["Created target parent directory: /t/deep (for /t/deep/AGENTS.md)"],
                    w')).
Proof.
  intros w target. split.
  - pose (r := applyMapping 8 (ex_mapping ex_agent_md target copy) ["earlier"] None w).
    exists (match fst r with Ok ws => ws | _ => [] end), (snd r).
    assert (Hr : r = (Ok (match fst r with Ok ws => ws | _ => [] end), snd r))
      by (vm_compute; reflexivity).
    split; [exact Hr|]. split; [vm_compute; reflexivity|].
    exact (apply_reports_what_it_did 8 _ ["earlier"] None w _ _ Hr).
  - pose (r := applyMapping 8 (ex_mapping ex_agent_md target link) [] None w).
    assert (Hr : r = (Ok ["Created target parent directory: /t/deep (for /t/deep/AGENTS.md)"],
                      snd r)) by (vm_compute; reflexivity).
    exists (snd r). exact Hr.
Defined.

(** X22: [parseArgs] sets a switch only when its flag is on the command
    line, and the first word that is not an option is the command: once the
    command is set, no later argument replaces it. *)
Theorem parseArgs_sets_what_is_given :
  forall argv,
    let args := drop 2 argv in
    let result := parseArgs argv in
    (arg_dryRun result = true -> "--dry-run" ∈ args)
    /\ (arg_force result = true -> "--force" ∈ args)
    /\ (arg_strict result = true -> "--strict" ∈ args)
    /\ (arg_help result = true -> "--help" ∈ args \/ "-h" ∈ args)
    /\ (arg_mode result = Some link -> "--link" ∈ args)
    /\ (arg_mode result = Some copy -> "--copy" ∈ args)
    /\ (arg_mode result <> Some auto)
    /\ (forall p, arg_conflictPolicy result = Some p -> "--on-conflict" ∈ args)
    /\ (forall word rest,
          args = word :: rest -> word <> "" -> startsWith_dash word = false ->
          command result = Some word).
Proof.
  intros argv args result.
  destruct (parseLoop_parsed_from (length args) args
              {| command := None; arg_project := None; arg_dryRun := false;
                 arg_mode := None; arg_force := false; arg_conflictPolicy := None;
                 arg_agent := None; arg_strict := false; arg_help := false |}
              (le_n _)) as (H1 & H2 & H3 & H4 & H5 & H6 & _).
  fold (parseArgs argv) in H1, H2, H3, H4, H5, H6. fold result in H1, H2, H3, H4, H5, H6.
  simpl in *.
  split; [intros H; destruct (H1 H) as [?|?]; [discriminate|assumption]|].
  split; [intros H; destruct (H2 H) as [?|?]; [discriminate|assumption]|].
  split; [intros H; destruct (H3 H) as [?|?]; [discriminate|assumption]|].
  split; [intros H; destruct (H4 H) as [?|?]; [discriminate|assumption]|].
  split; [intros H; destruct (H5 _ H) as [?|[[_ ?]|[? _]]];
          [discriminate|assumption|discriminate]|].
  split; [intros H; destruct (H5 _ H) as [?|[[? _]|[_ ?]]];
          [discriminate|discriminate|assumption]|].
  split; [intros H; destruct (H5 _ H) as [?|[[? _]|[? _]]]; discriminate|].
  split; [intros p H; destruct (H6 _ H) as [?|?]; [discriminate|assumption]|].
  intros word rest Hargs Hword Hdash. unfold result, parseArgs. fold args. rewrite Hargs.
  cbn [parseLoop]. simpl truthy. rewrite Hdash. simpl.
  destruct (parseLoop_parsed_from (length rest) rest
              (set_command word
                 {| command := None; arg_project := None; arg_dryRun := false;
                    arg_mode := None; arg_force := false; arg_conflictPolicy := None;
                    arg_agent := None; arg_strict := false; arg_help := false |})
              (le_n _)) as (_ & _ & _ & _ & _ & _ & H7).
  apply H7. simpl. apply negb_true_iff, bool_decide_eq_false. exact Hword.
Qed.

Lemma parseArgs_sets_what_is_given_witness :
  let argv := ["node"; "agentconfig"; "sync"; "--agent"; "--force"; "extra"; "--on-conflict";
               "backup"; "--dry-run"] in
  command (parseArgs argv) = Some "sync"
  /\ arg_agent (parseArgs argv) = Some "--force"
  /\ arg_force (parseArgs argv) = false
  /\ arg_conflictPolicy (parseArgs argv) = Some backup
  /\ arg_dryRun (parseArgs argv) = true.
Proof.
  intros argv.
  destruct (parseArgs_sets_what_is_given argv) as (_ & _ & _ & _ & _ & _ & _ & _ & Hcmd).
  split; [|repeat split; reflexivity].
  apply (Hcmd "sync" _ eq_refl); [discriminate|reflexivity].
Defined.



(** X24: a copy-mode apply that succeeds leaves at the target a copy of
    the source: every file and directory at or below the source is found,
    the same, at the same place below the target, and the source is as it
    was.  Source and target are apart, and the tree is well formed. *)
Theorem copy_mode_leaves_a_copy :
  forall fuel m ws o w ws' w',
    mode m = copy -> apart (source m) (target m) -> well_formed (fs w) ->
    applyMapping fuel m ws o w = (Ok ws', w') ->
    (forall q n, fs w !! (source m ++ q) = Some n -> regular n = true ->
                 fs w' !! (target m ++ q) = Some n)
    /\ (forall k, source m `prefix_of` k -> fs w' !! k = fs w !! k).
Proof.
  intros fuel m ws o w ws' w' Hmode Hapart Hwf H.
  unfold applyMapping in H. destruct (decide (mode m = copy)); [|contradiction].
  apply bind_Ok in H as ([] & w0 & Hcopy & Hret). inversion Hret; subst ws' w0.
  assert (Hne : target m <> []).
  { intros Hnil. destruct Hapart as [_ Hts]. apply Hts. rewrite Hnil. apply prefix_nil. }
  apply applyCopyMapping_prepares in Hcopy as (w1 & Hin & _ & Hcopy); [|exact Hne].
  pose proof (within_same_below _ _ _ _ Hapart Hin) as Hsrc.
  assert (Htree : tree_below (fs w1) (source m)).
  { eapply tree_below_same; [exact Hsrc|]. apply well_formed_tree_below, Hwf. }
  destruct (copyFileOrDir_copies fuel _ _ _ _ Hapart Htree Hcopy) as [Hcp Hsame].
  split.
  - intros q n Hq Hreg. apply Hcp; [|exact Hreg].
    rewrite Hsrc; [exact Hq|]. apply prefix_app_r. reflexivity.
  - intros k Hk. rewrite (Hsame k Hk). apply Hsrc, Hk.
Qed.

Lemma copy_mode_leaves_a_copy_witness :
  let m := ex_mapping ["t"; "AGENTS.md"] ["s"; "mirror"] copy in
  let w := ex_world ex_tree_dir true in
  exists w', applyMapping 8 m [] (Some false) w = (Ok [], w')
             /\ fs w' !! ["s"; "mirror"; "nested.txt"] = Some (File (Raw "data")).
Proof.
  intros m w. pose (r := applyMapping 8 m [] (Some false) w).
  assert (Hr : r = (Ok [], snd r)) by (vm_compute; reflexivity).
  exists (snd r). split; [exact Hr|].
  assert (Hwf : well_formed (fs w)).
  { apply well_formed_check. apply (bool_decide_unpack _). vm_compute. exact I. }
  assert (Hapart : apart (source m) (target m)).
  { split; intros Hpre; apply (bool_decide_pack _) in Hpre; vm_compute in Hpre; exact Hpre. }
  destruct (copy_mode_leaves_a_copy 8 m [] (Some false) w _ _ eq_refl Hapart Hwf Hr)
    as [Hcp _].
  apply (Hcp ["nested.txt"] (File (Raw "data"))); vm_compute; reflexivity.
Defined.

(** X25: with the permission to replace it, a link-mode apply on a
    directory removes the directory with all that is below it and puts the
    link in its place; nothing else changes.  The platform allows the link,
    the source exists and the directories on the way to the target do. *)
Theorem permitted_link_replaces_the_directory :
  forall fuel m ws w ns,
    mode m <> copy -> target m <> [] ->
    symlinkAllowed w (target m) = true ->
    fs w !! source m = Some ns ->
    fs w !! target m = Some Dir ->
    (forall k, k `prefix_of` dirname (target m) -> fs w !! k = Some Dir) ->
    exists w',
      applyMapping fuel m ws (Some true) w = (Ok ws, w')
      /\ fs w' !! target m = Some (Symlink (render (source m)))
      /\ (forall k, target m `prefix_of` k -> k <> target m -> fs w' !! k = None)
      /\ (forall k, ¬ target m `prefix_of` k -> fs w' !! k = fs w !! k).
Proof.
  intros fuel m ws w ns Hmode Hne Hallow Hsrc Hdir Hparents.
  set (m1 := filter (fun kv => ¬ target m `prefix_of` kv.1) (fs w)).
  exists (set_fs (<[target m := Symlink (render (source m))]> m1) (set_fs m1 w)).
  assert (Hm1 : forall k, m1 !! k = if decide (target m `prefix_of` k) then None
                                    else fs w !! k).
  { intros k. apply rm_rf_lookup. }
  split; [|split; [|split]].
  - unfold applyMapping. destruct (decide (mode m = copy)); [contradiction|].
    rewrite (bind_eq_Ok _ _ _ _ _ (ensureTargetParent_noop _ _ _ _ Hparents)).
    simpl. unfold try_catch.
    rewrite (bind_eq_Ok _ _ _ _ _ (eq_trans (fs_lstat_eq _ _) ltac:(rewrite Hsrc; reflexivity))).
    rewrite (bind_eq_Ok _ _ _ _ _ (getTargetInfo_eq _ _)). rewrite Hdir. simpl.
    assert (Hrm : removeDirectory (target m) true w = (Ok true, set_fs m1 w)).
    { rewrite (removeDirectory_dir _ _ _ Hdir).
      destruct (decide (target m = [])); [contradiction|reflexivity]. }
    rewrite (bind_eq_Ok _ _ _ _ _ Hrm). simpl.
    rewrite (link_create (render (source m)) (target m) ws (set_fs m1 w)); [reflexivity|..].
    + exact Hallow.
    + exact Hne.
    + simpl. rewrite Hm1. destruct (decide _) as [|Hn]; [reflexivity|].
      exfalso. apply Hn. reflexivity.
    + simpl. rewrite Hm1. destruct (decide _) as [Hp|_].
      * exfalso. exact (not_below_dirname _ Hne Hp).
      * apply Hparents. reflexivity.
  - simpl. apply lookup_insert_eq.
  - intros k Hk Hneq. simpl. rewrite lookup_insert_ne by congruence.
    rewrite Hm1. destruct (decide _); [reflexivity|contradiction].
  - intros k Hk. simpl. rewrite lookup_insert_ne.
    + rewrite Hm1. destruct (decide _); [contradiction|reflexivity].
    + intros <-. apply Hk. reflexivity.
Qed.

Lemma permitted_link_replaces_the_directory_witness :
  let m := ex_mapping ex_agent_md ex_AGENTS_md link in
  let w := ex_world ex_tree_dir true in
  exists w', applyMapping 8 m [] (Some true) w = (Ok [], w')
             /\ fs w' !! ex_AGENTS_md = Some (Symlink "/s/agent.md")
             /\ fs w' !! (ex_AGENTS_md ++ ["nested.txt"]) = None.
Proof.
  intros m w.
  destruct (permitted_link_replaces_the_directory 8 m [] w (File (Raw "hello")))
    as (w' & Hrun & Hlink & Hgone & _).
  - discriminate.
  - discriminate.
  - reflexivity.
  - vm_compute. reflexivity.
  - vm_compute. reflexivity.
  - intros k Hk. apply prefix_of_snoc with (p := []) in Hk as [Hk| ->];
      [apply prefix_nil_inv in Hk as ->|]; vm_compute; reflexivity.
  - exists w'. split; [exact Hrun|]. split; [exact Hlink|].
    apply Hgone; [apply prefix_app_r; reflexivity|discriminate].
Defined.



(** X27: copy mode replaces the target, it does not merge into it: after a
    copy-mode apply that succeeds, whatever is at or below the target has a
    counterpart at the same place below the source, so what the target held
    before and the source does not hold is gone.  Source and target are
    apart, and the tree is well formed. *)
Theorem copy_mode_replaces_the_target :
  forall fuel m ws o w ws' w',
    mode m = copy -> apart (source m) (target m) -> well_formed (fs w) ->
    applyMapping fuel m ws o w = (Ok ws', w') ->
    forall q, fs w !! (source m ++ q) = None -> fs w' !! (target m ++ q) = None.
Proof.
  intros fuel m ws o w ws' w' Hmode Hapart Hwf H q Hq.
  unfold applyMapping in H. destruct (decide (mode m = copy)); [|contradiction].
  apply bind_Ok in H as ([] & w0 & Hcopy & Hret). inversion Hret; subst ws' w0.
  assert (Hne : target m <> []).
  { intros Hnil. destruct Hapart as [_ Hts]. apply Hts. rewrite Hnil. apply prefix_nil. }
  apply applyCopyMapping_clears in Hcopy as (w1 & Hin & Hfree & Hcopy);
    [|exact Hne|apply well_formed_tree_below, Hwf].
  pose proof (within_same_below _ _ _ _ Hapart Hin) as Hsrc.
  assert (Htree : tree_below (fs w1) (source m)).
  { eapply tree_below_same; [exact Hsrc|]. apply well_formed_tree_below, Hwf. }
  destruct (fs w' !! (target m ++ q)) as [n|] eqn:E; [|reflexivity]. exfalso.
  destruct (copyFileOrDir_only fuel _ _ _ _ Hapart Htree Hfree Hcopy q) as [n' Hn'];
    [rewrite E; eauto|].
  rewrite Hsrc in Hn' by (apply prefix_app_r; reflexivity). congruence.
Qed.

Lemma copy_mode_replaces_the_target_witness :
  let m := ex_mapping ex_agent_md ex_AGENTS_md copy in
  let w := ex_world ex_tree_dir true in
  exists w', applyMapping 8 m [] (Some true) w = (Ok [], w')
             /\ fs w' !! ["t"; "AGENTS.md"; "nested.txt"] = None.
Proof.
  intros m w. pose (r := applyMapping 8 m [] (Some true) w).
  assert (Hr : r = (Ok [], snd r)) by (vm_compute; reflexivity).
  exists (snd r). split; [exact Hr|].
  assert (Hwf : well_formed (fs w)).
  { apply well_formed_check. apply (bool_decide_unpack _). vm_compute. exact I. }
  assert (Hapart : apart (source m) (target m)).
  { split; intros Hpre; apply (bool_decide_pack _) in Hpre; vm_compute in Hpre; exact Hpre. }
  apply (copy_mode_replaces_the_target 8 m [] (Some true) w _ _ eq_refl Hapart Hwf Hr
           ["nested.txt"]).
  vm_compute. reflexivity.
Defined.

(** X28: a run that is forced, or has a conflict policy from its caller, or
    has no terminal, asks the operator nothing: whatever its outcome, no
    line has been read from the terminal. *)
Theorem settled_run_asks_nothing :
  forall fuel hashPath opts w r w',
    force opts = true \/ conflictPolicy opts <> None \/ isTTY w = false ->
    syncConfigs fuel hashPath opts w = (r, w') ->
    linesRead w' = linesRead w.
Proof.
  intros fuel hashPath opts w r w' Hs H. rewrite syncConfigs_eq in H.
  assert (Hloop : forall es ms r1 w1,
             syncLoop fuel opts es (initialLoop opts) ms w = (r1, w1) -> same_lines w w1).
  { intros es ms r1 w1 Hl. eapply syncLoop_settled; [|exact Hl]. exact Hs. }
  destruct (bind_inv _ _ _ _ _ H) as [([ms es] & w0 & Hp & H1)|[(e & Hp & _)|[Hp _]]];
    [|apply plan_pure in Hp as ->; reflexivity|apply plan_pure in Hp as ->; reflexivity].
  apply plan_pure in Hp as ->.
  destruct (bind_inv _ _ _ _ _ H1) as [(l & w1 & Hl & Hpe)|[(e & Hl & _)|[Hl _]]];
    [|exact (Hloop _ _ _ _ Hl)|exact (Hloop _ _ _ _ Hl)].
  transitivity (linesRead w1); [|exact (Hloop _ _ _ _ Hl)].
  exact (persist_lines hashPath _ _ _ _ _ _ _ Hpe).
Qed.

Lemma settled_run_asks_nothing_witness :
  let w := ex_terminal ex_tree_taken (fun _ => "1") in
  linesRead (snd (syncConfigs 8 ex_hash (ex_options ex_one copy false (Some backup) None) w))
  = 0
  /\ linesRead (snd (syncConfigs 8 ex_hash (ex_options ex_one copy false None None) w)) = 2.
Proof.
  intros w. split; [|vm_compute; reflexivity].
  pose (r := syncConfigs 8 ex_hash (ex_options ex_one copy false (Some backup) None) w).
  change 0 with (linesRead w).
  apply (settled_run_asks_nothing 8 ex_hash
           (ex_options ex_one copy false (Some backup) None) w (fst r) (snd r)).
  - right. left. discriminate.
  - exact (surjective_pairing r).
Defined.

